(** * Notification delivery service: a shallow embedding of the delivery engine

    The Go packages [entity], [postgres], [usecase], [queue] and [utils] are
    embedded as Rocq modules of the same names.  The relational store is an
    in-memory [World]; every repository method is one SQL statement and is
    modelled as one step of the [Repo] monad.  A statement can fail (driver
    error): the [faults] schedule of the world says which ones do. *)

From Stdlib Require Import ZArith NArith QArith Qround Qminmax Lqa.
From Stdlib Require Import String Ascii List Bool Lia.
From stdpp Require Import base option list gmap strings pretty.

Local Open Scope Z_scope.

(** ** Base types *)

(** [uuid.UUID]: 128 bits. *)
Definition UUID : Type := N.

(** [time.Time] and [time.Duration]: nanoseconds. *)
Definition Time : Type := Z.
Definition Duration : Type := Z.

Definition Nanosecond : Duration := 1.
Definition Millisecond : Duration := 1000000.
Definition Second : Duration := 1000000000.
Definition Minute : Duration := 60 * Second.
Definition Hour : Duration := 60 * Minute.

(** Go's [int] and [int64] are 64-bit two's complement. *)
Definition wrap64 (z : Z) : Z := (z + 2 ^ 63) mod 2 ^ 64 - 2 ^ 63.

(** The error values of the packages involved.  [ErrOther] stands for an
    [errors.New]/[fmt.Errorf] value or a driver error, with its message. *)
Inductive error : Type :=
  | ErrDeliveryNotFound
  | ErrFailedToCreateDelivery
  | ErrFailedToUpdateDelivery
  | ErrInvalidDeliveryStatus
  | ErrDeliveryAlreadyCompleted
  | ErrNotificationNotFound
  | ErrFailedToSaveNotification
  | ErrInvalidNotificationData
  | ErrDeliveryFailed
  | ErrUserHasNoDevices
  | ErrDeviceNotFound
  | ErrFailedToSaveDevice
  | ErrFailedToUpdateDevice
  | ErrTokenNotFound
  | ErrInvalidToken
  | ErrFailedToGenerateToken
  (* package repository declares its own values, distinct from usecase's *)
  | repository_ErrNotificationNotFound
  | repository_ErrDeviceNotFound
  | repository_ErrTokenNotFound
  | ErrOther (msg : string)
  (* fmt.Errorf("msg: %w", inner) *)
  | ErrWrap (msg : string) (inner : error).

Fixpoint error_eqb (a b : error) : bool :=
  match a, b with
  | ErrDeliveryNotFound, ErrDeliveryNotFound
  | ErrFailedToCreateDelivery, ErrFailedToCreateDelivery
  | ErrFailedToUpdateDelivery, ErrFailedToUpdateDelivery
  | ErrInvalidDeliveryStatus, ErrInvalidDeliveryStatus
  | ErrDeliveryAlreadyCompleted, ErrDeliveryAlreadyCompleted
  | ErrNotificationNotFound, ErrNotificationNotFound
  | ErrFailedToSaveNotification, ErrFailedToSaveNotification
  | ErrInvalidNotificationData, ErrInvalidNotificationData
  | ErrDeliveryFailed, ErrDeliveryFailed
  | ErrUserHasNoDevices, ErrUserHasNoDevices
  | ErrDeviceNotFound, ErrDeviceNotFound
  | ErrFailedToSaveDevice, ErrFailedToSaveDevice
  | ErrFailedToUpdateDevice, ErrFailedToUpdateDevice
  | ErrTokenNotFound, ErrTokenNotFound
  | ErrInvalidToken, ErrInvalidToken
  | ErrFailedToGenerateToken, ErrFailedToGenerateToken
  | repository_ErrNotificationNotFound, repository_ErrNotificationNotFound
  | repository_ErrDeviceNotFound, repository_ErrDeviceNotFound
  | repository_ErrTokenNotFound, repository_ErrTokenNotFound => true
  | ErrOther m1, ErrOther m2 => String.eqb m1 m2
  | ErrWrap m1 e1, ErrWrap m2 e2 => String.eqb m1 m2 && error_eqb e1 e2
  | _, _ => false
  end.

(** [errors.Is(err, target)]: [err] or an error it wraps is [target]. *)
Fixpoint errors_Is (err target : error) : bool :=
  error_eqb err target
  || match err with
     | ErrWrap _ inner => errors_Is inner target
     | _ => false
     end.

(** A Go pair [(T, error)] of which exactly one side is meaningful. *)
Inductive Result (A : Type) : Type :=
  | Ok (a : A)
  | Err (e : error).
Arguments Ok {A} a.
Arguments Err {A} e.

Definition is_ok {A} (r : Result A) : bool :=
  match r with Ok _ => true | Err _ => false end.

(** [err.Error()] *)
Fixpoint error_Error (e : error) : string :=
  match e with
  | ErrDeliveryNotFound => "delivery record not found"
  | ErrFailedToCreateDelivery => "failed to create delivery record"
  | ErrFailedToUpdateDelivery => "failed to update delivery record"
  | ErrInvalidDeliveryStatus => "invalid delivery status"
  | ErrDeliveryAlreadyCompleted => "delivery already completed"
  | ErrNotificationNotFound => "notification not found"
  | ErrFailedToSaveNotification => "failed to save notification"
  | ErrInvalidNotificationData => "invalid notification data"
  | ErrDeliveryFailed => "failed to deliver notification"
  | ErrUserHasNoDevices => "user has no registered devices"
  | ErrDeviceNotFound => "device not found"
  | ErrFailedToSaveDevice => "failed to save device"
  | ErrFailedToUpdateDevice => "failed to update device"
  | ErrTokenNotFound => "token not found"
  | ErrInvalidToken => "invalid token"
  | ErrFailedToGenerateToken => "failed to generate token"
  | repository_ErrNotificationNotFound => "notification not found"
  | repository_ErrDeviceNotFound => "device not found"
  | repository_ErrTokenNotFound => "token not found"
  | ErrOther msg => msg
  | ErrWrap msg inner => msg +:+ ": " +:+ error_Error inner
  end.

(** ** Library values: UUID text form and JSON documents *)

Definition hex_digit (d : N) : ascii :=
  match d with
  | 0 => "0" | 1 => "1" | 2 => "2" | 3 => "3" | 4 => "4" | 5 => "5" | 6 => "6"
  | 7 => "7" | 8 => "8" | 9 => "9" | 10 => "a" | 11 => "b" | 12 => "c"
  | 13 => "d" | 14 => "e" | _ => "f"
  end%N%char.

Definition hex_value (c : ascii) : option N :=
  let n := N_of_ascii c in
  if (48 <=? n)%N && (n <=? 57)%N then Some (n - 48)%N
  else if (97 <=? n)%N && (n <=? 102)%N then Some (n - 87)%N
  else if (65 <=? n)%N && (n <=? 70)%N then Some (n - 55)%N
  else None.

(** [k] hexadecimal digits of [n], most significant first. *)
Fixpoint to_hex (k : nat) (n : N) : list ascii :=
  match k with
  | O => []
  | S k' => to_hex k' (n / 16)%N ++ [hex_digit (n mod 16)%N]
  end.

Fixpoint of_hex (acc : N) (l : list ascii) : option N :=
  match l with
  | [] => Some acc
  | c :: l' =>
      match hex_value c with
      | Some d => of_hex (acc * 16 + d)%N l'
      | None => None
      end
  end.

Definition dash : ascii := "-"%char.

(** [uuid.UUID.String]: xxxxxxxx-xxxx-xxxx-xxxx-xxxxxxxxxxxx. *)
Definition uuid_String (u : UUID) : string :=
  let h := to_hex 32 u in
  string_of_list_ascii
    (take 8 h ++ dash :: take 4 (drop 8 h) ++ dash :: take 4 (drop 12 h)
     ++ dash :: take 4 (drop 16 h) ++ dash :: drop 20 h).

(** [uuid.Parse] on the canonical 36-character form; the other spellings
    the library accepts (urn:uuid: prefix, braces, 32 bare digits) are
    rejected here. *)
Definition uuid_Parse (s : string) : Result UUID :=
  let l := list_ascii_of_string s in
  if (length l =? 36)%nat
     && bool_decide (l !! 8%nat = Some dash) && bool_decide (l !! 13%nat = Some dash)
     && bool_decide (l !! 18%nat = Some dash) && bool_decide (l !! 23%nat = Some dash)
  then
    match of_hex 0 (take 8 l ++ take 4 (drop 9 l) ++ take 4 (drop 14 l)
                    ++ take 4 (drop 19 l) ++ drop 24 l) with
    | Some u => Ok u
    | None => Err (ErrOther "invalid UUID format")
    end
  else Err (ErrOther "invalid UUID length").

#[warnings="-register-all"]
Inductive JSON : Type :=
  | JNull
  | JBool (b : bool)
  | JNumber (z : Z)
  | JString (s : string)
  | JArray (items : list JSON)
  | JObject (fields : list (string * JSON)).

(** [m[key]] on a decoded [map[string]interface{}]: of two members with
    the same name the decoder keeps the later one. *)
Fixpoint assoc_lookup {A} (key : string) (fields : list (string * A)) : option A :=
  match fields with
  | [] => None
  | (k, v) :: rest =>
      match assoc_lookup key rest with
      | Some v' => Some v'
      | None => if String.eqb k key then Some v else None
      end
  end.

(** ** Library models: encoding/json, encoding/base64, strings

    [jsonlib] is an encoder and a decoder for the JSON documents the service
    exchanges (objects, arrays, strings, integers, booleans, null).  The
    services below take the codec as a parameter; [jsonlib] is the codec of
    the concrete evaluations. *)

Module jsonlib.

Definition quote : ascii := ascii_of_nat 34.
Definition backslash : ascii := ascii_of_nat 92.

Definition hex2 (c : ascii) : string :=
  string_of_list_ascii (to_hex 2 (N_of_ascii c)).

Definition escape_char (c : ascii) : string :=
  if Ascii.eqb c quote then String backslash (String quote EmptyString)
  else if Ascii.eqb c backslash then String backslash (String backslash EmptyString)
  else if (N_of_ascii c <? 32)%N || Ascii.eqb c "<" || Ascii.eqb c ">" || Ascii.eqb c "&"
  then String backslash ("u00" +:+ hex2 c)
  else String c EmptyString.

Fixpoint escape (s : string) : string :=
  match s with
  | EmptyString => EmptyString
  | String c r => escape_char c +:+ escape r
  end.

Definition quoted (s : string) : string :=
  String quote (escape s +:+ String quote EmptyString).

Fixpoint join (sep : string) (l : list string) : string :=
  match l with
  | [] => EmptyString
  | [x] => x
  | x :: l' => x +:+ sep +:+ join sep l'
  end.

Fixpoint encode (v : JSON) : string :=
  match v with
  | JNull => "null"
  | JBool true => "true"
  | JBool false => "false"
  | JNumber z => pretty z
  | JString s => quoted s
  | JArray items => "[" +:+ join "," (map encode items) +:+ "]"
  | JObject fields =>
      "{" +:+ join "," (map (λ kv, quoted kv.1 +:+ ":" +:+ encode kv.2) fields) +:+ "}"
  end.

Definition Marshal (v : JSON) : Result string := Ok (encode v).

Definition is_ws (c : ascii) : bool :=
  let n := N_of_ascii c in (n =? 32)%N || (n =? 9)%N || (n =? 13)%N || (n =? 10)%N.

Fixpoint skip_ws (s : string) : string :=
  match s with
  | String c s' => if is_ws c then skip_ws s' else s
  | EmptyString => s
  end.

(** The characters of a string literal after its opening quote. *)
Fixpoint parse_string (s : string) : option (string * string) :=
  match s with
  | EmptyString => None
  | String c r =>
      if Ascii.eqb c quote then Some (EmptyString, r)
      else if Ascii.eqb c backslash then
        match r with
        | String e r' =>
            if Ascii.eqb e "u" then
              match r' with
              | String h1 (String h2 (String h3 (String h4 r''))) =>
                  match of_hex 0 [h1; h2; h3; h4] with
                  | Some n =>
                      if (n <? 128)%N then
                        match parse_string r'' with
                        | Some (str, rest) => Some (String (ascii_of_N n) str, rest)
                        | None => None
                        end
                      else None
                  | None => None
                  end
              | _ => None
              end
            else
              let decoded :=
                if Ascii.eqb e "n" then Some (ascii_of_nat 10)
                else if Ascii.eqb e "t" then Some (ascii_of_nat 9)
                else if Ascii.eqb e "r" then Some (ascii_of_nat 13)
                else if Ascii.eqb e quote || Ascii.eqb e backslash || Ascii.eqb e "/"
                then Some e
                else None in
              match decoded, parse_string r' with
              | Some d, Some (str, rest) => Some (String d str, rest)
              | _, _ => None
              end
        | EmptyString => None
        end
      else
        match parse_string r with
        | Some (str, rest) => Some (String c str, rest)
        | None => None
        end
  end.

Definition is_digit (c : ascii) : bool :=
  (48 <=? N_of_ascii c)%N && (N_of_ascii c <=? 57)%N.

Fixpoint parse_digits (acc : Z) (s : string) : Z * string :=
  match s with
  | String c r =>
      if is_digit c then parse_digits (acc * 10 + Z.of_N (N_of_ascii c - 48)) r
      else (acc, s)
  | EmptyString => (acc, s)
  end.

Definition starts_with (p s : string) : option string :=
  if String.prefix p s then Some (String.substring (String.length p)
                                     (String.length s - String.length p) s)
  else None.

Fixpoint parse_value (fuel : nat) (s : string) : option (JSON * string) :=
  match fuel with
  | O => None
  | S f =>
      match skip_ws s with
      | EmptyString => None
      | String c r =>
          if Ascii.eqb c "{" then
            match skip_ws r with
            | String c' r' =>
                if Ascii.eqb c' "}" then Some (JObject [], r')
                else parse_members f r []
            | EmptyString => None
            end
          else if Ascii.eqb c "[" then
            match skip_ws r with
            | String c' r' =>
                if Ascii.eqb c' "]" then Some (JArray [], r')
                else parse_elements f r []
            | EmptyString => None
            end
          else if Ascii.eqb c quote then
            match parse_string r with
            | Some (str, rest) => Some (JString str, rest)
            | None => None
            end
          else if Ascii.eqb c "-" then
            match r with
            | String d _ =>
                if is_digit d then
                  let '(n, rest) := parse_digits 0 r in Some (JNumber (- n), rest)
                else None
            | EmptyString => None
            end
          else if is_digit c then
            let '(n, rest) := parse_digits 0 (String c r) in Some (JNumber n, rest)
          else
            match starts_with "true" (String c r), starts_with "false" (String c r),
                  starts_with "null" (String c r) with
            | Some rest, _, _ => Some (JBool true, rest)
            | _, Some rest, _ => Some (JBool false, rest)
            | _, _, Some rest => Some (JNull, rest)
            | _, _, _ => None
            end
      end
  end
with parse_members (fuel : nat) (s : string) (acc : list (string * JSON))
    : option (JSON * string) :=
  match fuel with
  | O => None
  | S f =>
      match skip_ws s with
      | String c r =>
          if Ascii.eqb c quote then
            match parse_string r with
            | Some (key, r1) =>
                match skip_ws r1 with
                | String c1 r2 =>
                    if Ascii.eqb c1 ":" then
                      match parse_value f r2 with
                      | Some (v, r3) =>
                          match skip_ws r3 with
                          | String c3 r4 =>
                              if Ascii.eqb c3 "," then
                                parse_members f r4 (acc ++ [(key, v)])
                              else if Ascii.eqb c3 "}" then
                                Some (JObject (acc ++ [(key, v)]), r4)
                              else None
                          | EmptyString => None
                          end
                      | None => None
                      end
                    else None
                | EmptyString => None
                end
            | None => None
            end
          else None
      | EmptyString => None
      end
  end
with parse_elements (fuel : nat) (s : string) (acc : list JSON)
    : option (JSON * string) :=
  match fuel with
  | O => None
  | S f =>
      match parse_value f s with
      | Some (v, r) =>
          match skip_ws r with
          | String c r' =>
              if Ascii.eqb c "," then parse_elements f r' (acc ++ [v])
              else if Ascii.eqb c "]" then Some (JArray (acc ++ [v]), r')
              else None
          | EmptyString => None
          end
      | None => None
      end
  end.

Definition Unmarshal (data : string) : Result JSON :=
  match parse_value (S (String.length data)) data with
  | Some (v, rest) =>
      if (String.length (skip_ws rest) =? 0)%nat then Ok v
      else Err (ErrOther "invalid character after top-level value")
  | None => Err (ErrOther "unexpected end of JSON input")
  end.

End jsonlib.

(** *** encoding/base64, URL alphabet *)

Module base64.

(** base64 alphabet of RFC 4648 §5 (URL and filename safe). *)
Definition encodeURL : string :=
  "ABCDEFGHIJKLMNOPQRSTUVWXYZabcdefghijklmnopqrstuvwxyz0123456789-_".

(** A group of six bits, most significant first. *)
Definition Sextet : Type := (bool * bool * bool * bool * bool * bool)%type.

Definition sextet_index (s : Sextet) : nat :=
  let '(b5, b4, b3, b2, b1, b0) := s in
  (if b5 then 32 else 0) + (if b4 then 16 else 0) + (if b3 then 8 else 0)
  + (if b2 then 4 else 0) + (if b1 then 2 else 0) + (if b0 then 1 else 0).

Definition sextet_of_index (n : nat) : Sextet :=
  (Nat.testbit n 5, Nat.testbit n 4, Nat.testbit n 3, Nat.testbit n 2,
   Nat.testbit n 1, Nat.testbit n 0).

Definition enc6 (s : Sextet) : ascii :=
  match String.get (sextet_index s) encodeURL with
  | Some c => c
  | None => "A"%char
  end.

Fixpoint index_of (c : ascii) (s : string) : option nat :=
  match s with
  | EmptyString => None
  | String c' s' => if Ascii.eqb c c' then Some O else S <$> index_of c s'
  end.

Definition dec6 (c : ascii) : option Sextet :=
  sextet_of_index <$> index_of c encodeURL.

Definition padChar : ascii := "="%char.

(** [base64.RawURLEncoding.EncodeToString]: no padding. *)
Fixpoint RawURLEncoding_EncodeToString (src : string) : string :=
  match src with
  | EmptyString => EmptyString
  | String (Ascii a0 a1 a2 a3 a4 a5 a6 a7) EmptyString =>
      String (enc6 (a7, a6, a5, a4, a3, a2))
        (String (enc6 (a1, a0, false, false, false, false)) EmptyString)
  | String (Ascii a0 a1 a2 a3 a4 a5 a6 a7)
      (String (Ascii b0 b1 b2 b3 b4 b5 b6 b7) EmptyString) =>
      String (enc6 (a7, a6, a5, a4, a3, a2))
        (String (enc6 (a1, a0, b7, b6, b5, b4))
           (String (enc6 (b3, b2, b1, b0, false, false)) EmptyString))
  | String (Ascii a0 a1 a2 a3 a4 a5 a6 a7)
      (String (Ascii b0 b1 b2 b3 b4 b5 b6 b7)
         (String (Ascii c0 c1 c2 c3 c4 c5 c6 c7) rest)) =>
      String (enc6 (a7, a6, a5, a4, a3, a2))
        (String (enc6 (a1, a0, b7, b6, b5, b4))
           (String (enc6 (b3, b2, b1, b0, c7, c6))
              (String (enc6 (c5, c4, c3, c2, c1, c0))
                 (RawURLEncoding_EncodeToString rest))))
  end.

Definition byte1 (s1 s2 : Sextet) : ascii :=
  let '(a7, a6, a5, a4, a3, a2) := s1 in
  let '(a1, a0, _, _, _, _) := s2 in
  Ascii a0 a1 a2 a3 a4 a5 a6 a7.

Definition byte2 (s2 s3 : Sextet) : ascii :=
  let '(_, _, b7, b6, b5, b4) := s2 in
  let '(b3, b2, b1, b0, _, _) := s3 in
  Ascii b0 b1 b2 b3 b4 b5 b6 b7.

Definition byte3 (s3 s4 : Sextet) : ascii :=
  let '(_, _, _, _, c7, c6) := s3 in
  let '(c5, c4, c3, c2, c1, c0) := s4 in
  Ascii c0 c1 c2 c3 c4 c5 c6 c7.

(** [base64.URLEncoding.DecodeString]: padded input, four characters per
    group, padding only in the last group.  (The library also skips CR and
    LF; they are rejected here.) *)
Fixpoint URLEncoding_DecodeString (s : string) : option string :=
  match s with
  | EmptyString => Some EmptyString
  | String c1 (String c2 (String c3 (String c4 rest))) =>
      match dec6 c1, dec6 c2 with
      | Some s1, Some s2 =>
          if Ascii.eqb c3 padChar then
            if Ascii.eqb c4 padChar && (String.length rest =? 0)%nat then
              Some (String (byte1 s1 s2) EmptyString)
            else None
          else
            match dec6 c3 with
            | Some s3 =>
                if Ascii.eqb c4 padChar then
                  if (String.length rest =? 0)%nat then
                    Some (String (byte1 s1 s2) (String (byte2 s2 s3) EmptyString))
                  else None
                else
                  match dec6 c4, URLEncoding_DecodeString rest with
                  | Some s4, Some tail =>
                      Some (String (byte1 s1 s2)
                              (String (byte2 s2 s3) (String (byte3 s3 s4) tail)))
                  | _, _ => None
                  end
            | None => None
            end
      | _, _ => None
      end
  | _ => None
  end.



End base64.

(** [strings.Repeat] *)
Fixpoint strings_Repeat (s : string) (count : nat) : string :=
  match count with
  | O => EmptyString
  | S n => s +:+ strings_Repeat s n
  end.

(** [strings.Split(s, sep)] for a one-character separator. *)
Fixpoint strings_Split (sep : ascii) (s : string) : list string :=
  match s with
  | EmptyString => [EmptyString]
  | String c s' =>
      if Ascii.eqb c sep then EmptyString :: strings_Split sep s'
      else
        match strings_Split sep s' with
        | h :: t => String c h :: t
        | [] => [String c EmptyString]
        end
  end.

(** ** Package utils *)

Module utils.

Definition DecodeBase64URL (encoded : string) : Result string :=
  (* add the padding the encoder left out *)
  let m := (String.length encoded mod 4)%nat in
  let encoded :=
    if negb (m =? 0)%nat then encoded +:+ strings_Repeat "=" (4 - m)
    else encoded in
  match base64.URLEncoding_DecodeString encoded with
  | Some data => Ok data
  | None => Err (ErrOther "illegal base64 data")
  end.

End utils.

(** ** Package entity *)

Module entity.

(** [type DeliveryStatus string] *)
Definition DeliveryStatus : Type := string.
Definition DeliveryStatusPending : DeliveryStatus := "pending".
Definition DeliveryStatusSent : DeliveryStatus := "sent".
Definition DeliveryStatusDelivered : DeliveryStatus := "delivered".
Definition DeliveryStatusFailed : DeliveryStatus := "failed".
Definition DeliveryStatusExpired : DeliveryStatus := "expired".

(** [type TokenType string] *)
Definition TokenType : Type := string.
Definition TokenTypeWebSocket : TokenType := "websocket".

Module DeliveryTracking.
(** The fields of the struct are also the columns of the table
    [delivery_tracking].  They differ in one type, that of [ErrorMessage],
    which is the parameter [Msg]: a Go [string] in the struct, a TEXT
    column that can hold NULL in the table. *)
Record columns (Msg : Type) : Type := mk {
    ID : UUID;
    NotificationID : UUID;
    DeviceID : UUID;
    Channel : TokenType;
    Status : DeliveryStatus;
    SentAt : option Time;
    DeliveredAt : option Time;
    FailedAt : option Time;
    RetryCount : Z;
    ErrorMessage : Msg;
    CreatedAt : Time;
    UpdatedAt : Time
  }.
Arguments mk {Msg} _ _ _ _ _ _ _ _ _ _ _ _.
Arguments ID {Msg} _.
Arguments NotificationID {Msg} _.
Arguments DeviceID {Msg} _.
Arguments Channel {Msg} _.
Arguments Status {Msg} _.
Arguments SentAt {Msg} _.
Arguments DeliveredAt {Msg} _.
Arguments FailedAt {Msg} _.
Arguments RetryCount {Msg} _.
Arguments ErrorMessage {Msg} _.
Arguments CreatedAt {Msg} _.
Arguments UpdatedAt {Msg} _.

(** [type DeliveryTracking struct] *)
Definition t : Type := columns string.

Definition MarkAsSent (now : Time) (d : t) : t :=
  mk (ID d) (NotificationID d) (DeviceID d) (Channel d) DeliveryStatusSent
     (Some now) (DeliveredAt d) (FailedAt d) (RetryCount d) (ErrorMessage d)
     (CreatedAt d) now.

Definition MarkAsDelivered (now : Time) (d : t) : t :=
  mk (ID d) (NotificationID d) (DeviceID d) (Channel d) DeliveryStatusDelivered
     (SentAt d) (Some now) (FailedAt d) (RetryCount d) (ErrorMessage d)
     (CreatedAt d) now.

Definition MarkAsFailed (now : Time) (errorMsg : string) (d : t) : t :=
  mk (ID d) (NotificationID d) (DeviceID d) (Channel d) DeliveryStatusFailed
     (SentAt d) (DeliveredAt d) (Some now) (wrap64 (RetryCount d + 1)) errorMsg
     (CreatedAt d) now.

Definition MarkAsExpired (now : Time) (d : t) : t :=
  mk (ID d) (NotificationID d) (DeviceID d) (Channel d) DeliveryStatusExpired
     (SentAt d) (DeliveredAt d) (FailedAt d) (RetryCount d) (ErrorMessage d)
     (CreatedAt d) now.

Definition ShouldRetry (maxRetries : Z) (d : t) : bool :=
  String.eqb (Status d) DeliveryStatusFailed && (RetryCount d <? maxRetries).

(** Assignment to the [Status] column only, as the SQL updates do. *)
Definition with_status {Msg} (s : DeliveryStatus) (now : Time) (d : columns Msg)
    : columns Msg :=
  mk (ID d) (NotificationID d) (DeviceID d) (Channel d) s
     (SentAt d) (DeliveredAt d) (FailedAt d) (RetryCount d) (ErrorMessage d)
     (CreatedAt d) now.
End DeliveryTracking.

Definition NewDeliveryTracking (id : UUID) (now : Time)
    (notificationID deviceID : UUID) (channel : TokenType) : DeliveryTracking.t :=
  DeliveryTracking.mk id notificationID deviceID channel DeliveryStatusPending
    None None None 0 "" now now.

Module NotificationToken.
Record t : Type := mk {
    ID : UUID;
    DeviceID : UUID;
    Token : string;
    TokenType_ : TokenType;
    CreatedAt : Time;
    UpdatedAt : Time;
    ExpiresAt : Time;
    IsActive : bool;
    IsRevoked : bool
  }.

Definition IsValid (now : Time) (t0 : t) : bool :=
  IsActive t0 && negb (IsRevoked t0) && (now <? ExpiresAt t0).
End NotificationToken.

Definition NewNotificationToken (id : UUID) (now : Time)
    (deviceID : UUID) (token : string) (tokenType : TokenType) : NotificationToken.t :=
  NotificationToken.mk id deviceID token tokenType now now (now + 30 * 24 * Hour)
    true false.

Module Device.
Record t : Type := mk {
    ID : UUID;
    UserID : option N;
    Model : option string;
    DeviceIdentifier : string;
    Verified : bool;
    LastAccess : Time;
    LastUsed : Time;
    CreateTime : Time;
    UpdateTime : Time;
    DeleteTime : option Time;
    Status : string
  }.

Definition UpdateLastAccess (now : Time) (d : t) : t :=
  mk (ID d) (UserID d) (Model d) (DeviceIdentifier d) (Verified d) now
     (LastUsed d) (CreateTime d) now (DeleteTime d) (Status d).

Definition LinkToUser (now : Time) (userID : N) (d : t) : t :=
  mk (ID d) (Some userID) (Model d) (DeviceIdentifier d) (Verified d)
     (LastAccess d) (LastUsed d) (CreateTime d) now (DeleteTime d) (Status d).

Definition with_model (model : option string) (d : t) : t :=
  mk (ID d) (UserID d) model (DeviceIdentifier d) (Verified d)
     (LastAccess d) (LastUsed d) (CreateTime d) (UpdateTime d) (DeleteTime d)
     (Status d).
End Device.

Definition NewDevice (id : UUID) (now : Time)
    (deviceIdentifier : string) (userID : option N) (model : option string) : Device.t :=
  Device.mk id userID model deviceIdentifier false now now now now None "active".

Module Notification.
Record t : Type := mk {
    ID : UUID;
    UserID : string;
    Title : string;
    Message : string;
    (* json.RawMessage; empty when there is no payload *)
    Data : string;
    NotificationType : string;
    SenderID : string;
    Priority : Z;
    CreatedAt : Time;
    ExpiresAt : option Time
  }.


Definition IsExpired (now : Time) (n : t) : bool :=
  match ExpiresAt n with
  | None => false
  | Some e => e <? now
  end.
End Notification.


End entity.

(** ** The store and the repository monad *)

(** A row of [delivery_tracking].  The column [error_message] is declared
    TEXT, without NOT NULL and without a default: it holds NULL ([None])
    until a statement writes it. *)
Definition DeliveryRow : Type := entity.DeliveryTracking.columns (option string).

Record World : Type := mkWorld {
  deliveries : list DeliveryRow;
  tokens : list entity.NotificationToken.t;
  devices : list entity.Device.t;
  notifications : list entity.Notification.t;
  (** which of the coming SQL statements fail, in order; none after the end *)
  faults : list bool;
  (** source of [uuid.New] *)
  next_uuid : UUID
}.

Definition with_deliveries (ds : list DeliveryRow) (w : World) : World :=
  mkWorld ds (tokens w) (devices w) (notifications w) (faults w) (next_uuid w).
Definition with_tokens (ts : list entity.NotificationToken.t) (w : World) : World :=
  mkWorld (deliveries w) ts (devices w) (notifications w) (faults w) (next_uuid w).
Definition with_devices (ds : list entity.Device.t) (w : World) : World :=
  mkWorld (deliveries w) (tokens w) ds (notifications w) (faults w) (next_uuid w).
Definition with_notifications (ns : list entity.Notification.t) (w : World) : World :=
  mkWorld (deliveries w) (tokens w) (devices w) ns (faults w) (next_uuid w).
Definition with_faults (fs : list bool) (w : World) : World :=
  mkWorld (deliveries w) (tokens w) (devices w) (notifications w) fs (next_uuid w).

Definition Repo (A : Type) : Type := World → A * World.

#[global] Instance Repo_ret : MRet Repo := λ A a w, (a, w).
#[global] Instance Repo_bind : MBind Repo :=
  λ A B f m w, let '(a, w') := m w in f a w'.

(** [uuid.New()] *)
Definition uuid_New : Repo UUID :=
  λ w, (next_uuid w,
        mkWorld (deliveries w) (tokens w) (devices w) (notifications w) (faults w)
                (N.succ (next_uuid w))).

Definition driverError : error := ErrOther "driver: bad connection".

(** One SQL statement: it fails when the fault schedule says so and runs
    against the tables otherwise. *)
Definition statement {A : Type} (onFault : A) (run : Repo A) : Repo A :=
  λ w, match faults w with
       | [] => run w
       | false :: fs => run (with_faults fs w)
       | true :: fs => (onFault, with_faults fs w)
       end.

Definition uuid_eqb (a b : UUID) : bool := N.eqb a b.

(** ** Package postgres: the repositories, one SQL statement per method

    Rows are typed records.  Constraint violations are among the statement
    faults.  Every method reads the clock once ([now]). *)

Module postgres.

Module DT := entity.DeliveryTracking.
Module NT := entity.NotificationToken.
Module Dev := entity.Device.

(** [UPDATE ... WHERE p]: rewrite every matching row; the number of rows
    affected is the number of matches. *)
Definition update_where {A} (p : A → bool) (f : A → A) (rows : list A) : list A :=
  map (λ r, if p r then f r else r) rows.

Definition rows_affected {A} (p : A → bool) (rows : list A) : Z :=
  Z.of_nat (length (List.filter p rows)).

(** [ORDER BY key ASC], stable. *)
Fixpoint insert_by {A} (key : A → Z) (x : A) (l : list A) : list A :=
  match l with
  | [] => [x]
  | y :: l' => if key x <? key y then x :: y :: l' else y :: insert_by key x l'
  end.

Definition order_by {A} (key : A → Z) (l : list A) : list A :=
  foldr (insert_by key) [] l.

Module DeliveryRepository.

(** INSERT of the columns id, notification_id, device_id, channel, status,
    retry_count, created_at, updated_at.  The columns it does not name,
    [error_message] among them, are left NULL. *)
Definition Create (delivery : DT.t) : Repo (option error) :=
  statement (Some driverError)
    (λ w, (None,
           with_deliveries
             (deliveries w ++
              [DT.mk (DT.ID delivery) (DT.NotificationID delivery)
                     (DT.DeviceID delivery) (DT.Channel delivery)
                     (DT.Status delivery) None None None
                     (DT.RetryCount delivery) None
                     (DT.CreatedAt delivery) (DT.UpdatedAt delivery)]) w)).

Definition has_id (id : UUID) (d : DeliveryRow) : bool := uuid_eqb (DT.ID d) id.

(** The error of [database/sql] for a NULL that is scanned into a Go
    [string]; [error_message] is column 9 of every SELECT. *)
Definition scanError : error :=
  ErrOther ("sql: Scan error on column index 9, name "
            +:+ String jsonlib.quote ("error_message" +:+ String jsonlib.quote
            ": converting NULL to string is unsupported")).

(** [Scan(..., &delivery.RetryCount, &delivery.ErrorMessage, ...)]: the three
    times go through [sql.NullTime], the message goes into the [string]
    field of the struct as it is, and a NULL there fails the scan. *)
Definition scan (row : DeliveryRow) : Result DT.t :=
  match DT.ErrorMessage row with
  | Some errorMessage =>
      Ok (DT.mk (DT.ID row) (DT.NotificationID row) (DT.DeviceID row)
                (DT.Channel row) (DT.Status row) (DT.SentAt row)
                (DT.DeliveredAt row) (DT.FailedAt row) (DT.RetryCount row)
                errorMessage (DT.CreatedAt row) (DT.UpdatedAt row))
  | None => Err scanError
  end.

(** [for rows.Next() { ... rows.Scan(...) ... }]: the first row that does
    not scan ends the loop, and the method returns that error. *)
Fixpoint scan_rows (rows : list DeliveryRow) : Result (list DT.t) :=
  match rows with
  | [] => Ok []
  | row :: rest =>
      match scan row with
      | Err err => Err err
      | Ok delivery =>
          match scan_rows rest with
          | Err err => Err err
          | Ok deliveries => Ok (delivery :: deliveries)
          end
      end
  end.

(** [QueryRowContext(...).Scan(...)]: [sql.ErrNoRows] becomes "delivery
    tracking not found", any other error is returned as it is. *)
Definition GetByID (id : UUID) : Repo (Result DT.t) :=
  statement (Err driverError)
    (λ w, (match find (has_id id) (deliveries w) with
           | Some row => scan row
           | None => Err (ErrOther "delivery tracking not found")
           end, w)).

(** No ORDER BY: the rows come in table order. *)
Definition GetByNotificationID (notificationID : UUID) : Repo (Result (list DT.t)) :=
  statement (Err driverError)
    (λ w, (scan_rows (List.filter (λ d, uuid_eqb (DT.NotificationID d) notificationID)
                                  (deliveries w)), w)).

Definition GetByDeviceID (deviceID : UUID) : Repo (Result (list DT.t)) :=
  statement (Err driverError)
    (λ w, (scan_rows (rev (order_by DT.CreatedAt
                             (List.filter (λ d, uuid_eqb (DT.DeviceID d) deviceID)
                                          (deliveries w)))), w)).

Definition MarkAsSent (now : Time) (id : UUID) : Repo (option error) :=
  statement (Some driverError)
    (λ w, (None,
           with_deliveries
             (update_where (has_id id)
                (λ d, DT.mk (DT.ID d) (DT.NotificationID d) (DT.DeviceID d)
                            (DT.Channel d) entity.DeliveryStatusSent (Some now)
                            (DT.DeliveredAt d) (DT.FailedAt d) (DT.RetryCount d)
                            (DT.ErrorMessage d) (DT.CreatedAt d) now)
                (deliveries w)) w)).

Definition MarkAsDelivered (now : Time) (id : UUID) : Repo (option error) :=
  statement (Some driverError)
    (λ w, (None,
           with_deliveries
             (update_where (has_id id)
                (λ d, DT.mk (DT.ID d) (DT.NotificationID d) (DT.DeviceID d)
                            (DT.Channel d) entity.DeliveryStatusDelivered
                            (DT.SentAt d) (Some now) (DT.FailedAt d)
                            (DT.RetryCount d) (DT.ErrorMessage d)
                            (DT.CreatedAt d) now)
                (deliveries w)) w)).

Definition MarkAsFailed (now : Time) (id : UUID) (errorMsg : string)
    : Repo (option error) :=
  statement (Some driverError)
    (λ w, (None,
           with_deliveries
             (update_where (has_id id)
                (λ d, DT.mk (DT.ID d) (DT.NotificationID d) (DT.DeviceID d)
                            (DT.Channel d) entity.DeliveryStatusFailed
                            (DT.SentAt d) (DT.DeliveredAt d) (Some now)
                            (DT.RetryCount d + 1) (Some errorMsg)
                            (DT.CreatedAt d) now)
                (deliveries w)) w)).

Definition UpdateStatus (now : Time) (id : UUID) (status : entity.DeliveryStatus)
    : Repo (option error) :=
  statement (Some driverError)
    (λ w, (None,
           with_deliveries
             (update_where (has_id id) (DT.with_status status now)
                           (deliveries w)) w)).

Definition GetPendingForRetry (maxRetries : Z) : Repo (Result (list DT.t)) :=
  statement (Err driverError)
    (λ w, (scan_rows
             (order_by DT.UpdatedAt
                (List.filter
                   (λ d, (String.eqb (DT.Status d) entity.DeliveryStatusPending
                          || String.eqb (DT.Status d) entity.DeliveryStatusFailed)
                         && (DT.RetryCount d <? maxRetries))
                   (deliveries w))), w)).

End DeliveryRepository.

Module TokenRepository.

Definition Create (token : NT.t) : Repo (option error) :=
  statement (Some driverError)
    (λ w, (None, with_tokens (tokens w ++ [token]) w)).

Definition of_device_and_type (deviceID : UUID) (tokenType : entity.TokenType)
    (t : NT.t) : bool :=
  uuid_eqb (NT.DeviceID t) deviceID && String.eqb (NT.TokenType_ t) tokenType.

(** The WHERE clause of the reading queries. *)
Definition usable (now : Time) (t : NT.t) : bool :=
  NT.IsActive t && negb (NT.IsRevoked t) && (now <? NT.ExpiresAt t).

(** [ORDER BY created_at DESC LIMIT 1]. *)
Definition newest (l : list NT.t) : option NT.t :=
  foldl (λ acc t,
           match acc with
           | None => Some t
           | Some best => if NT.CreatedAt best <? NT.CreatedAt t then Some t else acc
           end)
        None l.

Definition GetByDeviceAndType (now : Time) (deviceID : UUID)
    (tokenType : entity.TokenType) : Repo (Result NT.t) :=
  statement (Err driverError)
    (λ w, (match newest (List.filter
                           (λ t, of_device_and_type deviceID tokenType t
                                 && usable now t) (tokens w)) with
           | Some t => Ok t
           | None => Err repository_ErrTokenNotFound
           end, w)).

Definition GetAllForDevice (now : Time) (deviceID : UUID) : Repo (Result (list NT.t)) :=
  statement (Err driverError)
    (λ w, (Ok (rev (order_by NT.CreatedAt
                      (List.filter
                         (λ t, uuid_eqb (NT.DeviceID t) deviceID && usable now t)
                         (tokens w)))), w)).

Definition Revoke (now : Time) (tokenID : UUID) : Repo (option error) :=
  statement (Some driverError)
    (λ w, (None,
           with_tokens
             (update_where (λ t, uuid_eqb (NT.ID t) tokenID)
                (λ t, NT.mk (NT.ID t) (NT.DeviceID t) (NT.Token t) (NT.TokenType_ t)
                            (NT.CreatedAt t) now (NT.ExpiresAt t) false true)
                (tokens w)) w)).

Definition RevokeAllForDevice (now : Time) (deviceID : UUID) : Repo (option error) :=
  statement (Some driverError)
    (λ w, (None,
           with_tokens
             (update_where (λ t, uuid_eqb (NT.DeviceID t) deviceID)
                (λ t, NT.mk (NT.ID t) (NT.DeviceID t) (NT.Token t) (NT.TokenType_ t)
                            (NT.CreatedAt t) now (NT.ExpiresAt t) false true)
                (tokens w)) w)).

Definition CleanupExpired (now : Time) : Repo (option error) :=
  statement (Some driverError)
    (λ w, (None,
           with_tokens
             (update_where (λ t, NT.ExpiresAt t <? now)
                (λ t, NT.mk (NT.ID t) (NT.DeviceID t) (NT.Token t) (NT.TokenType_ t)
                            (NT.CreatedAt t) now (NT.ExpiresAt t) false
                            (NT.IsRevoked t))
                (tokens w)) w)).

(** UPDATE first; INSERT when no row was updated. *)
Definition Upsert (now : Time) (deviceID : UUID) (tokenValue : string)
    (tokenType : entity.TokenType) : Repo (option error) :=
  let expiresAt := now + 30 * 24 * Hour in
  r ← statement (Err driverError)
        (λ w, (Ok (rows_affected (of_device_and_type deviceID tokenType) (tokens w)),
               with_tokens
                 (update_where (of_device_and_type deviceID tokenType)
                    (λ t, NT.mk (NT.ID t) (NT.DeviceID t) tokenValue (NT.TokenType_ t)
                                (NT.CreatedAt t) now expiresAt true false)
                    (tokens w)) w));
  match r with
  | Err err => mret (Some err)
  | Ok rowsAffected =>
      if rowsAffected =? 0 then
        id ← uuid_New;
        statement (Some driverError)
          (λ w, (None,
                 with_tokens
                   (tokens w ++
                    [NT.mk id deviceID tokenValue tokenType now now expiresAt
                           true false]) w))
      else mret None
  end.

End TokenRepository.

Module DeviceRepository.

(** The columns the SELECTs read: id, user_id, model, device_identifier,
    verified, last_access, created_at, updated_at.  The other fields of
    the struct keep their zero values. *)
Definition scan (row : Dev.t) : Dev.t :=
  Dev.mk (Dev.ID row) (Dev.UserID row) (Dev.Model row) (Dev.DeviceIdentifier row)
         (Dev.Verified row) (Dev.LastAccess row) 0 (Dev.CreateTime row)
         (Dev.UpdateTime row) None "".

Definition has_id (id : UUID) (d : Dev.t) : bool := uuid_eqb (Dev.ID d) id.

(** [user_id] is an INTEGER column, 32 bits with a sign.  [Save] and
    [Update] bind the user id converted to [int64], as a [sql.NullInt64],
    and the server refuses a number that the column cannot hold.  The SELECTs read
    the column back with [uint(userID.Int64)], and that is how a row of the
    store holds it. *)
Definition outOfRange : error := ErrOther "pq: integer out of range".

Definition INTEGER_holds (v : Z) : bool := (- 2 ^ 31 <=? v) && (v <? 2 ^ 31).

Definition bind_user_id (userID : option N) : Result (option N) :=
  match userID with
  | None => Ok None
  | Some u =>
      let v := wrap64 (Z.of_N u) in
      if INTEGER_holds v then Ok (Some (Z.to_N (v mod 2 ^ 64))) else Err outOfRange
  end.

Definition GetByID (id : UUID) : Repo (Result Dev.t) :=
  statement (Err driverError)
    (λ w, (match find (has_id id) (devices w) with
           | Some row => Ok (scan row)
           | None => Err repository_ErrDeviceNotFound
           end, w)).

Definition GetByDeviceIdentifier (identifier : string) : Repo (Result Dev.t) :=
  statement (Err driverError)
    (λ w, (match find (λ d, String.eqb (Dev.DeviceIdentifier d) identifier)
                      (devices w) with
           | Some row => Ok (scan row)
           | None => Err repository_ErrDeviceNotFound
           end, w)).


Definition Save (device : Dev.t) : Repo (option error) :=
  statement (Some driverError)
    (λ w, match bind_user_id (Dev.UserID device) with
          | Err err => (Some err, w)
          | Ok userID =>
              (None,
               with_devices
                 (devices w ++
                  [Dev.mk (Dev.ID device) userID (Dev.Model device)
                          (Dev.DeviceIdentifier device) (Dev.Verified device)
                          (Dev.LastAccess device) (Dev.LastAccess device)
                          (Dev.CreateTime device) (Dev.UpdateTime device) None
                          "active"])
                 w)
          end).

Definition Update (now : Time) (device : Dev.t) : Repo (option error) :=
  statement (Some driverError)
    (λ w, match bind_user_id (Dev.UserID device) with
          | Err err => (Some err, w)
          | Ok userID =>
              (None,
               with_devices
                 (update_where (has_id (Dev.ID device))
                    (λ row, Dev.mk (Dev.ID row) userID (Dev.Model device)
                                   (Dev.DeviceIdentifier device) (Dev.Verified device)
                                   (Dev.LastAccess device) (Dev.LastUsed row)
                                   (Dev.CreateTime row) now (Dev.DeleteTime row)
                                   (Dev.Status row))
                    (devices w)) w)
          end).

(** [ExecContext(ctx, query, deviceID, userID, time.Now())] with [userID] a
    [uint]: [database/sql] refuses a number with the high bit set, and the
    server one that the column cannot hold. *)
Definition LinkToUser (now : Time) (deviceID : UUID) (userID : N)
    : Repo (option error) :=
  statement (Some driverError)
    (λ w, if (userID <? 2 ^ 31)%N then
            (None,
             with_devices
               (update_where (has_id deviceID)
                  (λ row, Dev.mk (Dev.ID row) (Some userID) (Dev.Model row)
                                 (Dev.DeviceIdentifier row) (Dev.Verified row)
                                 (Dev.LastAccess row) (Dev.LastUsed row)
                                 (Dev.CreateTime row) now (Dev.DeleteTime row)
                                 (Dev.Status row))
                  (devices w)) w)
          else (Some outOfRange, w)).

End DeviceRepository.

Module NotificationRepository.

Definition Save (notification : entity.Notification.t) : Repo (option error) :=
  statement (Some driverError)
    (λ w, (None, with_notifications (notifications w ++ [notification]) w)).

Definition GetByID (id : UUID) : Repo (Result entity.Notification.t) :=
  statement (Err driverError)
    (λ w, (match find (λ n, uuid_eqb (entity.Notification.ID n) id)
                      (notifications w) with
           | Some n => Ok n
           | None => Err repository_ErrNotificationNotFound
           end, w)).

End NotificationRepository.

End postgres.

(** ** Package usecase: the delivery service *)

Module usecase.

Module DT := entity.DeliveryTracking.
Module DeliveryRepo := postgres.DeliveryRepository.

Module DeliveryService.

Definition isValidStatusTransition (from to : entity.DeliveryStatus) : bool :=
  if String.eqb from entity.DeliveryStatusPending then
    (* from "pending" any state can be reached *)
    true
  else if String.eqb from entity.DeliveryStatusSent then
    String.eqb to entity.DeliveryStatusDelivered
    || String.eqb to entity.DeliveryStatusFailed
  else if String.eqb from entity.DeliveryStatusDelivered then
    false
  else if String.eqb from entity.DeliveryStatusFailed then
    String.eqb to entity.DeliveryStatusPending
  else if String.eqb from entity.DeliveryStatusExpired then
    false
  else
    false.

Definition MarkAsSent (now : Time) (deliveryID : UUID) : Repo (option error) :=
  r ← DeliveryRepo.GetByID deliveryID;
  match r with
  | Err _ => mret (Some ErrDeliveryNotFound)
  | Ok delivery =>
      if String.eqb (DT.Status delivery) entity.DeliveryStatusDelivered then
        mret (Some ErrDeliveryAlreadyCompleted)
      else
        e ← DeliveryRepo.MarkAsSent now deliveryID;
        match e with
        | Some _ => mret (Some ErrFailedToUpdateDelivery)
        | None => mret None
        end
  end.

Definition MarkAsDelivered (now : Time) (deliveryID : UUID) : Repo (option error) :=
  r ← DeliveryRepo.GetByID deliveryID;
  match r with
  | Err _ => mret (Some ErrDeliveryNotFound)
  | Ok delivery =>
      if negb (String.eqb (DT.Status delivery) entity.DeliveryStatusSent) then
        mret (Some (ErrWrap "delivery must be in sent state to mark as delivered"
                            ErrInvalidDeliveryStatus))
      else
        e ← DeliveryRepo.MarkAsDelivered now deliveryID;
        match e with
        | Some _ => mret (Some ErrFailedToUpdateDelivery)
        | None => mret None
        end
  end.

Definition MarkAsFailed (now : Time) (deliveryID : UUID) (errorMsg : string)
    : Repo (option error) :=
  r ← DeliveryRepo.GetByID deliveryID;
  match r with
  | Err _ => mret (Some ErrDeliveryNotFound)
  | Ok delivery =>
      if String.eqb (DT.Status delivery) entity.DeliveryStatusDelivered then
        mret (Some ErrDeliveryAlreadyCompleted)
      else
        e ← DeliveryRepo.MarkAsFailed now deliveryID errorMsg;
        match e with
        | Some _ => mret (Some ErrFailedToUpdateDelivery)
        | None => mret None
        end
  end.

Definition ConfirmDelivery (now : Time) (notificationID deviceID : UUID)
    : Repo (option error) :=
  r ← DeliveryRepo.GetByNotificationID notificationID;
  match r with
  | Err err => mret (Some err)
  | Ok deliveries =>
      (* the loop stops at the first row of the device *)
      match find (λ d, uuid_eqb (DT.DeviceID d) deviceID) deliveries with
      | Some delivery =>
          e ← DeliveryRepo.MarkAsDelivered now (DT.ID delivery);
          match e with
          | Some _ => mret (Some ErrFailedToUpdateDelivery)
          | None => mret None
          end
      | None =>
          id ← uuid_New;
          let delivery :=
            entity.NewDeliveryTracking id now notificationID deviceID
              entity.TokenTypeWebSocket in
          e ← DeliveryRepo.Create delivery;
          match e with
          | Some _ => mret (Some ErrFailedToCreateDelivery)
          | None =>
              e' ← DeliveryRepo.MarkAsDelivered now (DT.ID delivery);
              match e' with
              | Some _ => mret (Some ErrFailedToUpdateDelivery)
              | None => mret None
              end
          end
      end
  end.

Definition UpdateStatus (now : Time) (deliveryID : UUID)
    (status : entity.DeliveryStatus) : Repo (option error) :=
  r ← DeliveryRepo.GetByID deliveryID;
  match r with
  | Err _ => mret (Some ErrDeliveryNotFound)
  | Ok delivery =>
      if negb (isValidStatusTransition (DT.Status delivery) status) then
        mret (Some ErrInvalidDeliveryStatus)
      else
        e ← DeliveryRepo.UpdateStatus now deliveryID status;
        match e with
        | Some _ => mret (Some ErrFailedToUpdateDelivery)
        | None => mret None
        end
  end.

End DeliveryService.

(** *** Device service *)

Module Dev := entity.Device.
Module DeviceRepo := postgres.DeviceRepository.

Module DeviceService.

Definition RegisterDeviceWithoutUser (now : Time) (deviceIdentifier : string)
    (model : option string) : Repo (Result Dev.t) :=
  r ← DeviceRepo.GetByDeviceIdentifier deviceIdentifier;
  match r with
  | Err err =>
      if negb (errors_Is err ErrDeviceNotFound) then mret (Err err)
      else
        id ← uuid_New;
        let newDevice := entity.NewDevice id now deviceIdentifier None model in
        e ← DeviceRepo.Save newDevice;
        match e with
        | Some _ => mret (Err ErrFailedToSaveDevice)
        | None => mret (Ok newDevice)
        end
  | Ok existingDevice =>
      let d1 := Dev.UpdateLastAccess now existingDevice in
      let d2 := match model with
                | Some _ => Dev.with_model model d1
                | None => d1
                end in
      e ← DeviceRepo.Update now d2;
      match e with
      | Some _ => mret (Err ErrFailedToUpdateDevice)
      | None => mret (Ok d2)
      end
  end.

Definition RegisterDeviceWithUser (now : Time) (deviceIdentifier : string)
    (userID : N) (model : option string) : Repo (Result Dev.t) :=
  r ← DeviceRepo.GetByDeviceIdentifier deviceIdentifier;
  match r with
  | Err err =>
      if negb (errors_Is err ErrDeviceNotFound) then mret (Err err)
      else
        id ← uuid_New;
        let newDevice := entity.NewDevice id now deviceIdentifier (Some userID) model in
        e ← DeviceRepo.Save newDevice;
        match e with
        | Some _ => mret (Err ErrFailedToSaveDevice)
        | None => mret (Ok newDevice)
        end
  | Ok existingDevice =>
      let d1 := Dev.LinkToUser now userID (Dev.UpdateLastAccess now existingDevice) in
      let d2 := match model with
                | Some _ => Dev.with_model model d1
                | None => d1
                end in
      e ← DeviceRepo.Update now d2;
      match e with
      | Some _ => mret (Err ErrFailedToUpdateDevice)
      | None => mret (Ok d2)
      end
  end.

Definition GetDevice (deviceID : UUID) : Repo (Result Dev.t) :=
  DeviceRepo.GetByID deviceID.

Definition LinkDeviceToUser (now : Time) (deviceID : UUID) (userID : N)
    : Repo (option error) :=
  r ← DeviceRepo.GetByID deviceID;
  match r with
  | Err _ => mret (Some ErrDeviceNotFound)
  | Ok device =>
      e ← DeviceRepo.Update now (Dev.LinkToUser now userID device);
      match e with
      | Some _ => mret (Some ErrFailedToUpdateDevice)
      | None => mret None
      end
  end.

End DeviceService.

(** *** Notification service *)

Module NotificationRepo := postgres.NotificationRepository.
Module TokenRepo := postgres.TokenRepository.

(** The interface [WebSocketManager], as far as the service calls it. *)
Record WebSocketManager : Type := mkWebSocketManager {
    SendMessage : UUID → string → option error;
    IsDeviceConnected : UUID → bool
  }.

(** [for _, x := range l { st = body(st, x) }] *)
Fixpoint forEach {A S : Type} (body : S → A → Repo S) (st : S) (l : list A) : Repo S :=
  match l with
  | [] => mret st
  | x :: l' => st' ← body st x; forEach body st' l'
  end.





Module NotificationService.
Section WithCollaborators.

Variable wsManager : WebSocketManager.
(** [encoding/json] *)
Variable json_Marshal : JSON → Result string.
Variable json_Unmarshal : string → Result JSON.

Definition GetDataMap (n : entity.Notification.t) : Result (list (string * JSON)) :=
  if (String.length (entity.Notification.Data n) =? 0)%nat then Ok []
  else
    match json_Unmarshal (entity.Notification.Data n) with
    | Ok (JObject m) => Ok m
    | Ok JNull => Ok []
    | Ok _ => Err (ErrOther "json: cannot unmarshal into Go value of type map")
    | Err e => Err e
    end.

Definition prepareNotificationPayload (notification : entity.Notification.t)
    : Result string :=
  match GetDataMap notification with
  | Err err => Err err
  | Ok dataMap =>
      json_Marshal
        (JObject
           [("data", JObject dataMap);
            ("message", JString (entity.Notification.Message notification));
            ("notification_id",
             JString (uuid_String (entity.Notification.ID notification)));
            ("timestamp", JNumber (entity.Notification.CreatedAt notification / Second));
            ("title", JString (entity.Notification.Title notification));
            ("type", JString "notification")])
  end.







End WithCollaborators.
End NotificationService.

(** *** Token service: channel tokens *)

Module NT := entity.NotificationToken.

Module TokenService.

Definition SaveToken (now : Time) (deviceID : UUID) (tokenValue : string)
    (tokenType : entity.TokenType) : Repo (option error) :=
  id ← uuid_New;
  TokenRepo.Create (entity.NewNotificationToken id now deviceID tokenValue tokenType).

Definition GetToken (now : Time) (deviceID : UUID) (tokenType : entity.TokenType)
    : Repo (Result NT.t) :=
  TokenRepo.GetByDeviceAndType now deviceID tokenType.

(** *** Token service: session credentials *)

Record Claims : Type := mkClaims {
  DeviceID : string;
  DeviceIdentifier : string;
  UserID : string;
  IsTemporary : bool;
  (* jwt.RegisteredClaims: only these two are set *)
  ExpiresAt : option Time;
  IssuedAt : option Time
}.

Record t : Type := mk {
  jwtSecret : string;
  tokenExpiry : Duration;
  tempExpiry : Duration
}.

(** A field tagged [omitempty] is left out when it holds the zero value. *)
Definition omitempty_string (name value : string) : list (string * JSON) :=
  if (String.length value =? 0)%nat then [] else [(name, JString value)].

Definition omitempty_bool (name : string) (value : bool) : list (string * JSON) :=
  if value then [(name, JBool true)] else [].

(** [jwt.NumericDate]: seconds since the epoch. *)
Definition omitempty_date (name : string) (value : option Time) : list (string * JSON) :=
  match value with
  | Some tm => [(name, JNumber (tm / Second))]
  | None => []
  end.

(** The JSON object of a [Claims] value, by its struct tags. *)
Definition Claims_json (c : Claims) : JSON :=
  JObject (omitempty_string "device_id" (DeviceID c)
           ++ omitempty_string "device_identifier" (DeviceIdentifier c)
           ++ omitempty_string "user_id" (UserID c)
           ++ omitempty_bool "temp" (IsTemporary c)
           ++ omitempty_date "exp" (ExpiresAt c)
           ++ omitempty_date "iat" (IssuedAt c))%list.

(** The claims of the two credential shapes. *)
Definition temporaryClaims (s : t) (now : Time) (deviceIdentifier : string) : Claims :=
  mkClaims "" deviceIdentifier "" true (Some (now + tempExpiry s)) (Some now).

Definition permanentClaims (s : t) (now : Time) (userID : string) (deviceID : UUID)
    (device : Dev.t) : Claims :=
  mkClaims (uuid_String deviceID) (Dev.DeviceIdentifier device) userID false
           (Some (now + tokenExpiry s)) (Some now).

Section Credentials.

(** [encoding/json] and HMAC-SHA-256 ([key], then message). *)
Variable json_Marshal : JSON → Result string.
Variable json_Unmarshal : string → Result JSON.
Variable hmac_sha256 : string → string → string.

(** golang-jwt, [Token.SignedString] with [SigningMethodHS256]: the compact
    serialisation header.claims.signature, each segment base64url without
    padding. *)
Definition jwt_header : JSON := JObject [("alg", JString "HS256"); ("typ", JString "JWT")].

Definition jwt_EncodeSegment (seg : string) : string :=
  base64.RawURLEncoding_EncodeToString seg.

Definition jwt_SignedString (key : string) (claims : JSON) : Result string :=
  match json_Marshal jwt_header with
  | Err e => Err e
  | Ok header =>
      match json_Marshal claims with
      | Err e => Err e
      | Ok body =>
          let sstr := jwt_EncodeSegment header +:+ "." +:+ jwt_EncodeSegment body in
          Ok (sstr +:+ "." +:+ jwt_EncodeSegment (hmac_sha256 key sstr))
      end
  end.

Definition GenerateTemporaryToken (s : t) (now : Time) (deviceIdentifier : string)
    : Result string :=
  let claims := temporaryClaims s now deviceIdentifier in
  match jwt_SignedString (jwtSecret s) (Claims_json claims) with
  | Err _ => Err ErrFailedToGenerateToken
  | Ok tokenString => Ok tokenString
  end.

Definition GeneratePermanentToken (s : t) (now : Time) (userID : string)
    (deviceID : UUID) : Repo (Result string) :=
  r ← DeviceRepo.GetByID deviceID;
  match r with
  | Err _ => mret (Err ErrDeviceNotFound)
  | Ok device =>
      let claims := permanentClaims s now userID deviceID device in
      match jwt_SignedString (jwtSecret s) (Claims_json claims) with
      | Err _ => mret (Err ErrFailedToGenerateToken)
      | Ok tokenString => mret (Ok tokenString)
      end
  end.

(** [json.Unmarshal(data, &claims)] with [claims] a [map[string]interface{}]. *)
Definition unmarshal_map (data : string) : Result (list (string * JSON)) :=
  match json_Unmarshal data with
  | Err e => Err e
  | Ok (JObject fields) => Ok fields
  | Ok JNull => Ok []
  | Ok _ => Err (ErrOther "json: cannot unmarshal into Go value of type map")
  end.

(** [claims[name].(string)]: the value and whether it is a string. *)
Definition string_claim (name : string) (claims : list (string * JSON)) : option string :=
  match assoc_lookup name claims with
  | Some (JString v) => Some v
  | _ => None
  end.

Definition nonempty (v : option string) : option string :=
  match v with
  | Some s => if (String.length s =? 0)%nat then None else Some s
  | None => None
  end.

Definition ExtractDeviceIdentifierFromToken (tokenString : string)
    : Repo (Result string) :=
  let parts := strings_Split "." tokenString in
  if negb (length parts =? 3)%nat then mret (Err ErrInvalidToken)
  else
    match utils.DecodeBase64URL (nth 1 parts EmptyString) with
    | Err err => mret (Err err)
    | Ok claimsJSON =>
        match unmarshal_map claimsJSON with
        | Err err => mret (Err err)
        | Ok claims =>
            match nonempty (string_claim "device_identifier" claims) with
            | Some deviceIdentifier => mret (Ok deviceIdentifier)
            | None =>
                match nonempty (string_claim "device_id" claims) with
                | Some deviceID =>
                    match uuid_Parse deviceID with
                    | Err err => mret (Err err)
                    | Ok deviceUUID =>
                        r ← DeviceRepo.GetByID deviceUUID;
                        match r with
                        | Err err => mret (Err err)
                        | Ok device => mret (Ok (Dev.DeviceIdentifier device))
                        end
                    end
                | None => mret (Err (ErrOther "no device identifier found in token"))
                end
            end
        end
    end.

End Credentials.

End TokenService.

End usecase.

(** ** Package queue: retry manager, delivery task and dead-letter queue *)

Module queue.

Module DT := entity.DeliveryTracking.
Module DeliveryRepo := postgres.DeliveryRepository.

(** [float64] values are modelled by the rationals they denote;
    [Multiplier] and [Jitter] are [float64] fields. *)
Record RetryStrategy : Type := mkRetryStrategy {
    MaxRetries : Z;
    BaseInterval : Duration;
    Multiplier : Q;
    MaxInterval : Duration;
    Jitter : Q
  }.

Definition DefaultRetryStrategy : RetryStrategy :=
  mkRetryStrategy 5 (500 * Millisecond) (2 # 1) (1 * Minute) (2 # 10).

(** [math.Pow(x, float64(n))] for an [int] n. *)
Definition math_Pow (x : Q) (n : Z) : Q := Qpower x n.

(** Conversion of a [float64] to [int64]/[time.Duration]: the fraction is
    discarded (truncation towards zero).  Go leaves the result open when
    the value is out of range; the wrap-around here is only a stand-in. *)
Definition Qtrunc (q : Q) : Z := Z.quot (Qnum q) (Zpos (Qden q)).
Definition float64_to_int64 (q : Q) : Z := wrap64 (Qtrunc q).

(** [float64(d)] for an integer [d]. *)
Definition float64_of_int64 (z : Z) : Q := inject_Z z.

(** [nowNano] is [time.Now().UnixNano()]. *)
Definition calculateNextRetryDelay (strategy : RetryStrategy) (nowNano : Z)
    (retryCount : Z) : Duration :=
  (* exponential backoff *)
  let delay :=
    wrap64 (BaseInterval strategy
            * float64_to_int64 (math_Pow (Multiplier strategy) retryCount)) in
  (* upper limit *)
  let delay := if delay >? MaxInterval strategy then MaxInterval strategy else delay in
  (* jitter *)
  if negb (Qle_bool (Jitter strategy) 0) then
    let jitter := (float64_of_int64 delay * Jitter strategy)%Q in
    float64_to_int64
      (float64_of_int64 delay - jitter / (2 # 1)
       + jitter * float64_of_int64 (Z.rem nowNano 1000) / (1000 # 1))%Q
  else delay.

(** The interface [RetryableTask]. *)
Class RetryableTask (T : Type) : Type := {
    Execute : Time → T → Repo (option error);
    GetID : T → string;
    GetRetryCount : T → Z;
    IncrementRetryCount : T → T;
    OnSuccess : Time → T → Repo unit;
    OnFailure : Time → T → error → Repo unit
  }.

(** ** Dead-letter queue *)

Record DeadLetterQueue (T : Type) : Type := mkDLQ {
    dlq_tasks : gmap string T;
    maxCapacity : Z;
    retention : Duration;
    entryTimes : gmap string Time
  }.
Arguments mkDLQ {T}.
Arguments dlq_tasks {T}.
Arguments maxCapacity {T}.
Arguments retention {T}.
Arguments entryTimes {T}.

Definition NewDeadLetterQueue {T} (maxCapacity : Z) (retention : Duration)
    : DeadLetterQueue T :=
  mkDLQ ∅ maxCapacity retention ∅.

(** The scan for the oldest entry; Go visits the map in an unspecified
    order, the model in the order of [map_to_list]. *)
Definition oldest_entry (times : gmap string Time) : option (string * Time) :=
  foldl (λ acc kv,
           match acc with
           | None => Some kv
           | Some (oldestID, oldestTime) =>
               if kv.2 <? oldestTime then Some kv else acc
           end)
        None (map_to_list times).

Definition DLQ_AddTask {T} `{RetryableTask T} (now : Time) (task : T)
    (q : DeadLetterQueue T) : DeadLetterQueue T :=
  let taskID := GetID task in
  let q1 :=
    if (maxCapacity q >? 0) && (Z.of_nat (size (dlq_tasks q)) >=? maxCapacity q) then
      match oldest_entry (entryTimes q) with
      | Some (oldestID, _) =>
          mkDLQ (delete oldestID (dlq_tasks q)) (maxCapacity q) (retention q)
                (delete oldestID (entryTimes q))
      | None => q
      end
    else q in
  mkDLQ (<[taskID := task]> (dlq_tasks q1)) (maxCapacity q1) (retention q1)
        (<[taskID := now]> (entryTimes q1)).

Definition DLQ_GetTask {T} (taskID : string) (q : DeadLetterQueue T) : option T :=
  dlq_tasks q !! taskID.

Definition DLQ_RemoveTask {T} (taskID : string) (q : DeadLetterQueue T)
    : DeadLetterQueue T :=
  mkDLQ (delete taskID (dlq_tasks q)) (maxCapacity q) (retention q)
        (delete taskID (entryTimes q)).

(** ** Retry manager *)

Record RetryManager (T : Type) : Type := mkRetryManager {
    strategy : RetryStrategy;
    tasks : gmap string T;
    dlq : DeadLetterQueue T
  }.
Arguments mkRetryManager {T}.
Arguments strategy {T}.
Arguments tasks {T}.
Arguments dlq {T}.

Definition NewRetryManager {T} (strategy : option RetryStrategy) : RetryManager T :=
  mkRetryManager
    (match strategy with Some s => s | None => DefaultRetryStrategy end)
    ∅ (NewDeadLetterQueue 0 0).

(** What one call of [executeWithRetry] leaves behind: the task is done,
    it went to the dead-letter queue, or a timer is armed that calls
    [executeWithRetry] again on the same task object after [delay]. *)
Inductive Outcome (T : Type) : Type :=
  | Succeeded
  | DeadLettered
  | Rescheduled (delay : Duration) (task : T).
Arguments Succeeded {T}.
Arguments DeadLettered {T}.
Arguments Rescheduled {T}.

Section Manager.
Context {T : Type} `{RetryableTask T}.

Definition moveToDeadLetterQueue (now : Time) (task : T) (m : RetryManager T)
    : Repo (RetryManager T) :=
  let m' := mkRetryManager (strategy m) (delete (GetID task) (tasks m))
                           (DLQ_AddTask now task (dlq m)) in
  _ ← OnFailure now task (ErrOther "maximum retries exceeded");
  mret m'.

(** The map holds a pointer to the task: a change of the task object is
    seen through the map as long as the entry is there. *)
Definition sync_task (task : T) (m : RetryManager T) : RetryManager T :=
  match tasks m !! GetID task with
  | Some _ => mkRetryManager (strategy m) (<[GetID task := task]> (tasks m)) (dlq m)
  | None => m
  end.

Definition executeWithRetry (now : Time) (task : T) (m : RetryManager T)
    : Repo (RetryManager T * Outcome T) :=
  let taskID := GetID task in
  let retryCount := GetRetryCount task in
  if retryCount >=? MaxRetries (strategy m) then
    m' ← moveToDeadLetterQueue now task m;
    mret (m', DeadLettered)
  else
    err ← Execute now task;
    match err with
    | None =>
        _ ← OnSuccess now task;
        mret (mkRetryManager (strategy m) (delete taskID (tasks m)) (dlq m),
              Succeeded)
    | Some _ =>
        let task' := IncrementRetryCount task in
        let nextRetry :=
          calculateNextRetryDelay (strategy m) now (GetRetryCount task') in
        mret (sync_task task' m, Rescheduled nextRetry task')
    end.

(** The body of the timer armed by [executeWithRetry]. *)
Definition timerFired (now : Time) (task : T) (m : RetryManager T)
    : Repo (RetryManager T * option (Outcome T)) :=
  match tasks m !! GetID task with
  | Some _ =>
      r ← executeWithRetry now task m;
      mret (r.1, Some r.2)
  | None => mret (m, None)
  end.

Definition AddTask (now : Time) (task : T) (m : RetryManager T)
    : Repo (RetryManager T * Outcome T) :=
  executeWithRetry now task
    (mkRetryManager (strategy m) (<[GetID task := task]> (tasks m)) (dlq m)).

(** [AddTask] followed by the timers it arms, at most [n] of them; the
    clock advances by the delay of each timer. *)
Fixpoint timers (n : nat) (now : Time) (r : RetryManager T * Outcome T)
    : Repo (RetryManager T * Outcome T) :=
  match n with
  | O => mret r
  | S n' =>
      match r.2 with
      | Rescheduled delay task =>
          r' ← timerFired (now + delay) task r.1;
          match r'.2 with
          | Some o => timers n' (now + delay) (r'.1, o)
          | None => mret (r'.1, r.2)
          end
      | _ => mret r
      end
  end.

End Manager.

(** ** The delivery task *)

Record DeliveryTask : Type := mkDeliveryTask {
    delivery : DT.t;
    notification : entity.Notification.t;
    attempts : Z
  }.

#[global] Instance DeliveryTask_RetryableTask : RetryableTask DeliveryTask := {
    Execute now t :=
      (* the send itself is simulated: only the row is updated *)
      DeliveryRepo.UpdateStatus now (DT.ID (delivery t)) entity.DeliveryStatusPending;
    GetID t := "delivery_" +:+ uuid_String (DT.ID (delivery t));
    GetRetryCount t := DT.RetryCount (delivery t);
    IncrementRetryCount t :=
      mkDeliveryTask (delivery t) (notification t) (wrap64 (attempts t + 1));
    OnSuccess now t :=
      _ ← DeliveryRepo.MarkAsSent now (DT.ID (delivery t)); mret tt;
    OnFailure now t err :=
      _ ← DeliveryRepo.MarkAsFailed now (DT.ID (delivery t)) (error_Error err); mret tt
  }.

End queue.

(** ** Vocabulary of the statements *)

Module DT := entity.DeliveryTracking.
Module Dev := entity.Device.
Module NT := entity.NotificationToken.
Module DeliveryRepo := postgres.DeliveryRepository.
Module DeviceRepo := postgres.DeviceRepository.
Module DS := usecase.DeliveryService.
Module NS := usecase.NotificationService.
Module TS := usecase.TokenService.
Module DevS := usecase.DeviceService.



(** The error message of a row has been written: [Scan] can read the row. *)
Definition readable (d : DeliveryRow) : Prop := DT.ErrorMessage d ≠ None.











(** The owner of the stored device row with the given id. *)
Definition owner (deviceID : UUID) (w : World) : option (option N) :=
  Dev.UserID <$> find (DeviceRepo.has_id deviceID) (devices w).

(** The user id of a device row is a value of the INTEGER column: a
    statement that binds it writes it back as it is. *)
Definition stored_user_id (row : Dev.t) : Prop :=
  DeviceRepo.bind_user_id (Dev.UserID row) = Ok (Dev.UserID row).

(** The values of the valid channel tokens of a device and type. *)
Definition valid_tokens (now : Time) (deviceID : UUID) (tokenType : entity.TokenType)
    (w : World) : list string :=
  map NT.Token
      (List.filter (λ t, postgres.TokenRepository.of_device_and_type deviceID tokenType t
                         && NT.IsValid now t)
                   (tokens w)).

(** The number of stored token rows of a device and type. *)
Definition token_rows (deviceID : UUID) (tokenType : entity.TokenType) (w : World) : nat :=
  length (List.filter (postgres.TokenRepository.of_device_and_type deviceID tokenType)
                      (tokens w)).

(** The delay of the specification before jitter: min(base × mult^n, cap). *)
Definition spec_backoff (s : queue.RetryStrategy) (n : Z) : Q :=
  Qmin (inject_Z (queue.BaseInterval s) * Qpower (queue.Multiplier s) n)
       (inject_Z (queue.MaxInterval s)).

Definition without_jitter (s : queue.RetryStrategy) : queue.RetryStrategy :=
  queue.mkRetryStrategy (queue.MaxRetries s) (queue.BaseInterval s) (queue.Multiplier s)
    (queue.MaxInterval s) 0.

(** [c] does not occur in [s]. *)
Fixpoint no_char (c : ascii) (s : string) : bool :=
  match s with
  | EmptyString => true
  | String c' s' => negb (Ascii.eqb c' c) && no_char c s'
  end.

(** The codec gives back the document it encoded. *)
Definition json_roundtrips (marshal : JSON → Result string)
    (unmarshal : string → Result JSON) (v : JSON) : Prop :=
  ∃ body, marshal v = Ok body ∧ unmarshal body = Ok v.

Definition Claims_fields (c : TS.Claims) : list (string * JSON) :=
  match TS.Claims_json c with
  | JObject fields => fields
  | _ => []
  end.

(** The compact serialisation of a credential. *)
Definition compact (header body signature : string) : string :=
  TS.jwt_EncodeSegment header +:+ "." +:+ TS.jwt_EncodeSegment body +:+ "."
  +:+ TS.jwt_EncodeSegment signature.

(** ** Example stores and collaborators *)

(** The row of a delivery whose error message has been written, and the
    row of a delivery that never failed: its error message is NULL, as
    [Create] leaves it. *)
Definition written (d : DT.t) : DeliveryRow :=
  DT.mk (DT.ID d) (DT.NotificationID d) (DT.DeviceID d) (DT.Channel d) (DT.Status d)
        (DT.SentAt d) (DT.DeliveredAt d) (DT.FailedAt d) (DT.RetryCount d)
        (Some (DT.ErrorMessage d)) (DT.CreatedAt d) (DT.UpdatedAt d).

Definition never_failed (d : DT.t) : DeliveryRow :=
  DT.mk (DT.ID d) (DT.NotificationID d) (DT.DeviceID d) (DT.Channel d) (DT.Status d)
        (DT.SentAt d) (DT.DeliveredAt d) (DT.FailedAt d) (DT.RetryCount d)
        None (DT.CreatedAt d) (DT.UpdatedAt d).

Definition store_of_rows (rows : list DeliveryRow) : World :=
  mkWorld rows [] [] [] [] 100%N.

(** A table of deliveries whose error messages have all been written. *)
Definition store_of (rows : list DT.t) : World := store_of_rows (map written rows).

Definition row (id n d : UUID) (st : string) : DT.t :=
  DT.mk id n d entity.TokenTypeWebSocket st None None None 0 "" 0 0.
Arguments row (id n d)%_N st%_string.

(** A delivery that failed once, at time 3, and has status [st] since
    time 5. *)
Definition failed_once (id n d : UUID) (st : string) : DT.t :=
  DT.mk id n d entity.TokenTypeWebSocket st None None (Some 3) 1 "Device not connected"
        0 5.
Arguments failed_once (id n d)%_N st%_string.

(** A retry strategy with the default intervals, [maxRetries] retries and
    no jitter. *)
Definition strategy_of (maxRetries : Z) : queue.RetryStrategy :=
  queue.mkRetryStrategy maxRetries (500 * Millisecond) 2 (1 * Minute) 0.

Definition statuses (w : World) : list (UUID * string) :=
  map (λ d, (DT.ID d, DT.Status d)) (deliveries w).

Definition device_row (id : UUID) (ident : string) (user : option N) : Dev.t :=
  Dev.mk id user None ident false 0 0 0 0 None "active".
Arguments device_row id%_N ident%_string user.

Definition store_of_devices (rows : list Dev.t) : World :=
  mkWorld [] [] rows [] [] 100%N.

Definition empty_store : World := mkWorld [] [] [] [] [] 100%N.

(** The statements to come all fail, [k] of them. *)
Definition failing (k : nat) (w : World) : World := with_faults (replicate k true) w.

Definition task_of (d : DT.t) : queue.DeliveryTask :=
  queue.mkDeliveryTask d
    (entity.Notification.mk (DT.NotificationID d) "42" "Hi" "there" "" "normal" "" 0 0
                            None)
    0.

(** A hub on which every device is live and accepts the frame, and one on
    which no device is live. *)
Definition hub_all_live : usecase.WebSocketManager :=
  usecase.mkWebSocketManager (λ _ _, None) (λ _, true).

Definition hub_nobody : usecase.WebSocketManager :=
  usecase.mkWebSocketManager
    (λ _ _, Some (ErrOther "failed to send message to device")) (λ _, false).


(** A keyed digest for the evaluations; recovery never looks at it. *)
Definition concat_digest (key msg : string) : string := key +:+ msg.

(** * More of the code: the packages around the delivery engine *)

From stdpp Require Import sorting.

Local Open Scope Z_scope.

(** ** Calls that can panic *)

(** How a call ends: it returns, or the run time stops it with a panic. *)
Inductive Call (A : Type) : Type :=
  | Returns (a : A)
  | Panics (why : string).
Arguments Returns {A} a.
Arguments Panics {A} why.

(** ** Package distribution: consistent hashing *)

Module distribution.

(** [strconv.Itoa] *)
Definition strconv_Itoa (i : Z) : string := pretty i.

(** Hash values are [uint32]; only their order is used. *)
Record ConsistentHash : Type := mkConsistentHash {
    replicas : Z;
    ring : list N;
    hashMap : gmap N string;
    hashFunc : string → N
  }.

(** [crc32_ChecksumIEEE] is the library's default hash. *)
Definition NewConsistentHash (crc32_ChecksumIEEE : string → N) (replicas : Z)
    (hashFunc : option (string → N)) : ConsistentHash :=
  mkConsistentHash replicas [] ∅
    (match hashFunc with
     | None => crc32_ChecksumIEEE
     | Some f => f
     end).

(** [sort.Slice(ring, func(i, j) { return ring[i] < ring[j] })]: the
    library sorts in place; on numbers every sort gives the same slice, an
    insertion sort here. *)
Fixpoint insert_sorted (x : N) (l : list N) : list N :=
  match l with
  | [] => [x]
  | y :: l' => if (x <=? y)%N then x :: l else y :: insert_sorted x l'
  end.

Definition sort_Slice (l : list N) : list N := foldr insert_sorted [] l.

Definition Add (node : string) (ch : ConsistentHash) : ConsistentHash :=
  let ch1 :=
    foldl (λ c i,
             let key := node +:+ strconv_Itoa i in
             let hash := hashFunc c key in
             mkConsistentHash (replicas c) (ring c ++ [hash])
                              (<[hash := node]> (hashMap c)) (hashFunc c))
          ch (seqZ 0 (replicas ch)) in
  mkConsistentHash (replicas ch1) (sort_Slice (ring ch1)) (hashMap ch1) (hashFunc ch1).

Definition Remove (node : string) (ch : ConsistentHash) : ConsistentHash :=
  let hashMap1 :=
    foldl (λ m i, delete (hashFunc ch (node +:+ strconv_Itoa i)) m)
          (hashMap ch) (seqZ 0 (replicas ch)) in
  let newRing :=
    List.filter (λ hash, bool_decide (is_Some (hashMap1 !! hash))) (ring ch) in
  mkConsistentHash (replicas ch) newRing hashMap1 (hashFunc ch).

(** [sort.Search(n, f)], the library's binary search:
    [i, j := 0, n; for i < j { h := (i+j)/2; if !f(h) { i = h+1 } else { j = h } }].
    The range halves at every turn, so [n] turns are enough. *)
Fixpoint sort_Search_loop (turns : nat) (f : nat → bool) (i j : nat) : nat :=
  match turns with
  | O => i
  | S turns' =>
      if (i <? j)%nat then
        let h := ((i + j) / 2)%nat in
        if negb (f h) then sort_Search_loop turns' f (h + 1) j
        else sort_Search_loop turns' f i h
      else i
  end.

Definition sort_Search (n : nat) (f : nat → bool) : nat := sort_Search_loop n f 0 n.

Definition search (hash : N) (ch : ConsistentHash) : nat :=
  let ringLen := length (ring ch) in
  let idx := sort_Search ringLen (λ i, (hash <=? nth i (ring ch) 0)%N) in
  if (idx =? ringLen)%nat then 0%nat else idx.

(** A key missing from the map reads as the empty string. *)
Definition Get (key : string) (ch : ConsistentHash) : string :=
  if (length (ring ch) =? 0)%nat then ""
  else
    let hash := hashFunc ch key in
    let idx := search hash ch in
    default "" (hashMap ch !! nth idx (ring ch) 0%N).

(** The nodes as a set; the order of the slice the code returns is that
    of two map iterations and is not specified. *)
Definition GetNodes (ch : ConsistentHash) : gset string :=
  list_to_set (map snd (map_to_list (hashMap ch))).

(** The loop of [GetMultiple]; [None] when it is still running after
    [turns] turns. *)
Fixpoint GetMultiple_loop (turns : nat) (ch : ConsistentHash) (count : Z) (idx : nat)
    (result : list string) (seen : gset string) : option (list string) :=
  if Z.of_nat (length result) <? count then
    match turns with
    | O => None
    | S turns' =>
        let node := default "" (hashMap ch !! nth idx (ring ch) 0%N) in
        let idx' := ((idx + 1) mod length (ring ch))%nat in
        if bool_decide (node ∈ seen) then
          GetMultiple_loop turns' ch count idx' result seen
        else
          GetMultiple_loop turns' ch count idx' (result ++ [node]) ({[node]} ∪ seen)
    end
  else Some result.

(** [make([]string, 0, count)] panics on a negative capacity. *)
Definition GetMultiple (turns : nat) (key : string) (count : Z) (ch : ConsistentHash)
    : option (Call (list string)) :=
  if (length (ring ch) =? 0)%nat then Some (Returns [])
  else
    let uniqueNodes := Z.of_nat (size (GetNodes ch)) in
    let count := if count >? uniqueNodes then uniqueNodes else count in
    let hash := hashFunc ch key in
    let idx := search hash ch in
    if count <? 0 then Some (Panics "makeslice: cap out of range")
    else Returns <$> GetMultiple_loop turns ch count idx [] ∅.

End distribution.

(** The hashes that [New], [Add] and [Remove] build. *)
Inductive built (crc32_ChecksumIEEE : string → N) : distribution.ConsistentHash → Prop :=
  | built_New replicas hashFunc :
      built crc32_ChecksumIEEE
        (distribution.NewConsistentHash crc32_ChecksumIEEE replicas hashFunc)
  | built_Add node ch :
      built crc32_ChecksumIEEE ch → built crc32_ChecksumIEEE (distribution.Add node ch)
  | built_Remove node ch :
      built crc32_ChecksumIEEE ch → built crc32_ChecksumIEEE (distribution.Remove node ch).

(** The ring is sorted, the ring and the map hold the same hashes, and
    every hash of the map is the hash of a replica of its node. *)
Definition ring_consistent (ch : distribution.ConsistentHash) : Prop :=
  Sorted N.le (distribution.ring ch)
  ∧ (∀ h, h ∈ distribution.ring ch ↔ is_Some (distribution.hashMap ch !! h))
  ∧ (∀ h node, distribution.hashMap ch !! h = Some node →
        ∃ i, 0 ≤ i < distribution.replicas ch
             ∧ h = distribution.hashFunc ch (node +:+ distribution.strconv_Itoa i)).

(** A toy hash for the examples: the length of the text. *)
Definition length_hash (s : string) : N := N.of_nat (String.length s).

(** The node that owns the ring point at [idx], and the owners met in the
    next [turns] steps along the ring. *)
Definition owner_at (ch : distribution.ConsistentHash) (idx : nat) : string :=
  default "" (distribution.hashMap ch !! nth idx (distribution.ring ch) 0%N).

Fixpoint upcoming (ch : distribution.ConsistentHash) (turns idx : nat) : gset string :=
  match turns with
  | O => ∅
  | S turns' =>
      {[owner_at ch idx]}
      ∪ upcoming ch turns' ((idx + 1) mod length (distribution.ring ch))%nat
  end.

(** ** Package cache: in-memory cache with expiry *)

Module cache.

Section Values.
Context {V : Type}.

Record ItemCache : Type := mkItemCache {
    Value : V;
    Expiration : Z
  }.

Record Cache : Type := mkCache {
    items : gmap string ItemCache;
    defaultExpiration : Duration;
    cleanupInterval : Duration
  }.

Definition NewCache (defaultExpiration cleanupInterval : Duration) : Cache :=
  mkCache ∅ defaultExpiration cleanupInterval.

(** [time.Now().Add(expiration).UnixNano()]: the result is an [int64]. *)
Definition SetWithExpiration (now : Time) (key : string) (value : V)
    (expiration : Duration) (c : Cache) : Cache :=
  let expiration := if expiration =? 0 then defaultExpiration c else expiration in
  let expirationTime := if expiration >? 0 then wrap64 (now + expiration) else 0 in
  mkCache (<[key := mkItemCache value expirationTime]> (items c))
          (defaultExpiration c) (cleanupInterval c).

Definition Set_ (now : Time) (key : string) (value : V) (c : Cache) : Cache :=
  SetWithExpiration now key value (defaultExpiration c) c.

Definition Get (now : Time) (key : string) (c : Cache) : option V :=
  match items c !! key with
  | None => None
  | Some item =>
      if (Expiration item >? 0) && (now >? Expiration item) then None
      else Some (Value item)
  end.

Definition Delete (key : string) (c : Cache) : Cache :=
  mkCache (delete key (items c)) (defaultExpiration c) (cleanupInterval c).

Definition Flush (c : Cache) : Cache :=
  mkCache ∅ (defaultExpiration c) (cleanupInterval c).

(** Deleting from a map while ranging over it is allowed; every entry is
    visited once. *)
Definition deleteExpired (now : Time) (c : Cache) : Cache :=
  mkCache
    (map_fold (λ key item m,
                 if (Expiration item >? 0) && (now >? Expiration item)
                 then delete key m else m)
              (items c) (items c))
    (defaultExpiration c) (cleanupInterval c).

End Values.
Arguments ItemCache V : clear implicits.
Arguments Cache V : clear implicits.

End cache.

(** ** Package events: the in-memory event store *)

Module events.

Definition EventType : Type := string.

Record Event : Type := mkEvent {
    ID : string;
    Type_ : EventType;
    Timestamp : Time;
    Data : option (list (string * JSON))
  }.

Record InMemoryEventStorage : Type := mkInMemoryEventStorage {
    events : list Event;
    maxLen : Z
  }.

(** [make([]Event, 0, maxLen)] panics on a negative capacity. *)
Definition NewInMemoryEventStorage (maxLen : Z) : Call InMemoryEventStorage :=
  if maxLen <? 0 then Panics "makeslice: cap out of range"
  else Returns (mkInMemoryEventStorage [] maxLen).

(** [s.events[1:]] panics on an empty slice. *)
Definition Store (event : Event) (s : InMemoryEventStorage) : Call InMemoryEventStorage :=
  if Z.of_nat (length (events s)) >=? maxLen s then
    match events s with
    | [] => Panics "slice bounds out of range [1:0]"
    | _ :: rest => Returns (mkInMemoryEventStorage (rest ++ [event]) (maxLen s))
    end
  else Returns (mkInMemoryEventStorage (events s ++ [event]) (maxLen s)).

(** The loop of the two queries, from the newest event to the oldest;
    [keep] is the test on the event. *)
Fixpoint scan (keep : Event → bool) (limit offset : Z) (newestFirst : list Event)
    (result : list Event) (count : Z) : list Event :=
  match newestFirst with
  | [] => result
  | event :: older =>
      if keep event then
        let result' := if count >=? offset then result ++ [event] else result in
        let count' := count + 1 in
        if Z.of_nat (length result') >=? limit then result'
        else scan keep limit offset older result' count'
      else scan keep limit offset older result count
  end.

Definition GetByType (eventType : EventType) (limit offset : Z)
    (s : InMemoryEventStorage) : list Event :=
  scan (λ event, String.eqb (Type_ event) eventType) limit offset (rev (events s)) [] 0.

Definition GetByTimeRange (start end_ : Time) (limit offset : Z)
    (s : InMemoryEventStorage) : list Event :=
  scan (λ event, (start <=? Timestamp event) && (Timestamp event <=? end_))
       limit offset (rev (events s)) [] 0.

End events.

(** ** Package queue: the dead-letter queue, its loops written out

    Go hands out the entries of a map in an order it does not specify.  The
    operations that range over a map take that order as the argument
    [visit]; the statements about them hold for every order. *)

Module dlq.

(** The zero [time.Time] (year 1), in nanoseconds since 1970. *)
Definition zeroTime : Time := -62135596800 * Second.

(** The loop of [AddTask] that looks for the oldest entry. *)
Definition scan_oldest (now : Time) (visit : list (string * Time)) : string * Time :=
  foldl (λ oldest entry,
           if String.eqb oldest.1 "" || (entry.2 <? oldest.2) then entry else oldest)
        ("", if (length visit =? 0)%nat then now else zeroTime) visit.

Definition AddTask {T} `{queue.RetryableTask T} (now : Time)
    (visit : list (string * Time)) (task : T) (q : queue.DeadLetterQueue T)
    : queue.DeadLetterQueue T :=
  let taskID := queue.GetID task in
  let q1 :=
    if (queue.maxCapacity q >? 0)
       && (Z.of_nat (size (queue.dlq_tasks q)) >=? queue.maxCapacity q) then
      let oldestID := (scan_oldest now visit).1 in
      if negb (String.eqb oldestID "") then
        queue.mkDLQ (delete oldestID (queue.dlq_tasks q)) (queue.maxCapacity q)
                    (queue.retention q) (delete oldestID (queue.entryTimes q))
      else q
    else q in
  queue.mkDLQ (<[taskID := task]> (queue.dlq_tasks q1)) (queue.maxCapacity q1)
              (queue.retention q1) (<[taskID := now]> (queue.entryTimes q1)).

Definition RetryTask {T} `{queue.RetryableTask T} (now : Time) (taskID : string)
    (q : queue.DeadLetterQueue T) : Repo (queue.DeadLetterQueue T * option error) :=
  match queue.dlq_tasks q !! taskID with
  | None =>
      mret (q, Some (ErrOther ("task " +:+ taskID +:+ " not found in Dead Letter Queue")))
  | Some task =>
      err ← queue.Execute now task;
      match err with
      | Some e => mret (q, Some (ErrWrap ("failed to execute task " +:+ taskID) e))
      | None =>
          _ ← queue.OnSuccess now task;
          mret (queue.DLQ_RemoveTask taskID q, None)
      end
  end.

(** The body of the loop of [RetryAllTasks]; the state is the queue with
    [successCount] and [failCount], which stay below the number of tasks. *)
Definition retry_each {T} `{queue.RetryableTask T} (now : Time)
    (st : queue.DeadLetterQueue T * (Z * Z)) (task : T)
    : Repo (queue.DeadLetterQueue T * (Z * Z)) :=
  let taskID := queue.GetID task in
  r ← RetryTask now taskID st.1;
  match r.2 with
  | Some _ => mret (r.1, (st.2.1, st.2.2 + 1))
  | None => mret (r.1, (st.2.1 + 1, st.2.2))
  end.

(** [visit] is the slice [GetTasks] returns. *)
Definition RetryAllTasks {T} `{queue.RetryableTask T} (now : Time) (visit : list T)
    (q : queue.DeadLetterQueue T)
    : Repo (queue.DeadLetterQueue T * (Z * Z * option error)) :=
  if (length visit =? 0)%nat then mret (q, (0, 0, None))
  else
    st ← usecase.forEach (retry_each now) (q, (0, 0)) visit;
    if st.2.2 >? 0 then
      mret (st.1, (st.2.1, st.2.2, Some (ErrOther "some tasks failed to retry")))
    else mret (st.1, (st.2.1, st.2.2, None)).

(** [t.Sub(u)]: the difference, kept within the range of a [Duration]. *)
Definition time_Sub (t u : Time) : Duration :=
  Z.max (- 2 ^ 63) (Z.min (2 ^ 63 - 1) (t - u)).

Definition cleanupExpiredTasks {T} (now : Time) (visit : list (string * Time))
    (q : queue.DeadLetterQueue T) : queue.DeadLetterQueue T :=
  let expiredTasks :=
    map fst (List.filter (λ entry, time_Sub now entry.2 >? queue.retention q) visit) in
  foldl (λ q taskID,
           queue.mkDLQ (delete taskID (queue.dlq_tasks q)) (queue.maxCapacity q)
                       (queue.retention q) (delete taskID (queue.entryTimes q)))
        q expiredTasks.

End dlq.

(** The queue's two maps have the same keys, a task is stored under its
    own id, and no id is empty. *)
Definition dlq_consistent {T} `{queue.RetryableTask T} (q : queue.DeadLetterQueue T)
    : Prop :=
  (∀ taskID, is_Some (queue.dlq_tasks q !! taskID)
             ↔ is_Some (queue.entryTimes q !! taskID))
  ∧ (∀ taskID task, queue.dlq_tasks q !! taskID = Some task → queue.GetID task = taskID)
  ∧ queue.dlq_tasks q !! "" = None.

(** A task for the examples: it has a name, and fails or not as it is told;
    it does not touch the store. *)
Record ScriptedTask : Type := mkScriptedTask {
    name : string;
    fails : bool
  }.

#[global] Instance ScriptedTask_RetryableTask : queue.RetryableTask ScriptedTask := {
    Execute now t := mret (if fails t then Some (ErrOther "scripted failure") else None);
    GetID t := name t;
    GetRetryCount t := 0;
    IncrementRetryCount t := t;
    OnSuccess now t := mret tt;
    OnFailure now t err := mret tt
  }.

(** ** Package utils: the encoder next to [DecodeBase64URL] *)

(** [base64.URLEncoding.EncodeToString]: the last group is filled with the
    padding character. *)
Fixpoint URLEncoding_EncodeToString (src : string) : string :=
  match src with
  | EmptyString => EmptyString
  | String (Ascii a0 a1 a2 a3 a4 a5 a6 a7) EmptyString =>
      String (base64.enc6 (a7, a6, a5, a4, a3, a2))
        (String (base64.enc6 (a1, a0, false, false, false, false))
           (String base64.padChar (String base64.padChar EmptyString)))
  | String (Ascii a0 a1 a2 a3 a4 a5 a6 a7)
      (String (Ascii b0 b1 b2 b3 b4 b5 b6 b7) EmptyString) =>
      String (base64.enc6 (a7, a6, a5, a4, a3, a2))
        (String (base64.enc6 (a1, a0, b7, b6, b5, b4))
           (String (base64.enc6 (b3, b2, b1, b0, false, false))
              (String base64.padChar EmptyString)))
  | String (Ascii a0 a1 a2 a3 a4 a5 a6 a7)
      (String (Ascii b0 b1 b2 b3 b4 b5 b6 b7)
         (String (Ascii c0 c1 c2 c3 c4 c5 c6 c7) rest)) =>
      String (base64.enc6 (a7, a6, a5, a4, a3, a2))
        (String (base64.enc6 (a1, a0, b7, b6, b5, b4))
           (String (base64.enc6 (b3, b2, b1, b0, c7, c6))
              (String (base64.enc6 (c5, c4, c3, c2, c1, c0))
                 (URLEncoding_EncodeToString rest))))
  end.

Definition EncodeBase64URL (data : string) : string :=
  URLEncoding_EncodeToString data.

(** ** Package usecase: the rest of the delivery service *)

Definition DeliveryService_CreateDeliveryRecord (now : Time)
    (notificationID deviceID : UUID) (channel : entity.TokenType)
    : Repo (Result DT.t) :=
  (* the notification must exist *)
  r ← postgres.NotificationRepository.GetByID notificationID;
  match r with
  | Err err => mret (Err (ErrWrap "error getting notification" err))
  | Ok notification =>
      (* the device must exist *)
      r ← DeviceRepo.GetByID deviceID;
      match r with
      | Err err => mret (Err (ErrWrap "error getting device" err))
      | Ok device =>
          id ← uuid_New;
          let delivery :=
            entity.NewDeliveryTracking id now (entity.Notification.ID notification)
              (Dev.ID device) channel in
          e ← DeliveryRepo.Create delivery;
          match e with
          | Some _ => mret (Err ErrFailedToCreateDelivery)
          | None => mret (Ok delivery)
          end
      end
  end.

(** ** Package usecase: the rest of the notification service *)

Section Resend.

Variable wsManager : usecase.WebSocketManager.
Variable json_Marshal : JSON → Result string.
Variable json_Unmarshal : string → Result JSON.

(** The body of the loop of [ResendFailedNotifications]; the results of the
    repository calls are dropped, as in the source. *)
Definition resend_delivery (now : Time) (delivery : DT.t) : Repo unit :=
  r ← postgres.NotificationRepository.GetByID (DT.NotificationID delivery);
  match r with
  | Err _ => mret tt
  | Ok notification =>
      if entity.Notification.IsExpired now notification then
        _ ← DeliveryRepo.UpdateStatus now (DT.ID delivery) entity.DeliveryStatusExpired;
        mret tt
      else
        match NS.prepareNotificationPayload json_Marshal json_Unmarshal notification with
        | Err _ =>
            _ ← DeliveryRepo.MarkAsFailed now (DT.ID delivery) "Failed to prepare payload";
            mret tt
        | Ok payload =>
            if String.eqb (DT.Channel delivery) entity.TokenTypeWebSocket then
              if usecase.IsDeviceConnected wsManager (DT.DeviceID delivery) then
                match usecase.SendMessage wsManager (DT.DeviceID delivery) payload with
                | Some err =>
                    _ ← DeliveryRepo.MarkAsFailed now (DT.ID delivery) (error_Error err);
                    mret tt
                | None =>
                    _ ← DeliveryRepo.MarkAsSent now (DT.ID delivery);
                    mret tt
                end
              else
                _ ← DeliveryRepo.MarkAsFailed now (DT.ID delivery) "Device not connected";
                mret tt
            else
              (* FCM, APNS and the like: to be implemented *)
              _ ← DeliveryRepo.MarkAsFailed now (DT.ID delivery) "Unsupported channel";
              mret tt
        end
  end.

Definition NotificationService_ResendFailedNotifications (now : Time) (maxRetries : Z)
    : Repo (option error) :=
  r ← DeliveryRepo.GetPendingForRetry maxRetries;
  match r with
  | Err err => mret (Some err)
  | Ok deliveries =>
      _ ← usecase.forEach (λ _ delivery, resend_delivery now delivery) tt deliveries;
      mret None
  end.

End Resend.

(** The acknowledgement of the notification service: it looks for the row
    and never makes one. *)
Definition NotificationService_ConfirmDelivery (now : Time)
    (notificationID deviceID : UUID) : Repo (option error) :=
  r ← DeliveryRepo.GetByNotificationID notificationID;
  match r with
  | Err err => mret (Some err)
  | Ok deliveries =>
      match find (λ d, uuid_eqb (DT.DeviceID d) deviceID) deliveries with
      | Some delivery => DeliveryRepo.MarkAsDelivered now (DT.ID delivery)
      | None => mret (Some (ErrOther "delivery record not found"))
      end
  end.

(** ** Package postgres and usecase: inactive devices *)

(** [WHERE last_access < $1], no ORDER BY. *)
Definition DeviceRepository_GetInactiveDevices (threshold : Time)
    : Repo (Result (list Dev.t)) :=
  statement (Err driverError)
    (λ w, (Ok (map DeviceRepo.scan
                 (List.filter (λ d, Dev.LastAccess d <? threshold) (devices w))), w)).

(** [UPDATE devices SET updated_at = $2, delete_time = $2 WHERE id = $1].
    The table that has the columns [created_at] and [updated_at], which
    every other statement of the repository names, has no column
    [delete_time]: the server refuses the statement, on every call. *)
Definition undefinedColumn : error :=
  ErrOther ("pq: column " +:+ jsonlib.quoted "delete_time" +:+ " of relation "
            +:+ jsonlib.quoted "devices" +:+ " does not exist").

Definition DeviceRepository_Delete (now : Time) (deviceID : UUID) : Repo (option error) :=
  statement (Some driverError) (λ w, (Some undefinedColumn, w)).

(** The body of the loop of [CleanupInactiveDevices]; an error of either
    statement is skipped over ([continue]). *)
Definition cleanup_device (now : Time) (device : Dev.t) : Repo unit :=
  (* the tokens are revoked before the device goes *)
  e ← postgres.TokenRepository.RevokeAllForDevice now (Dev.ID device);
  match e with
  | Some _ => mret tt
  | None =>
      _ ← DeviceRepository_Delete now (Dev.ID device);
      mret tt
  end.

Definition DeviceService_CleanupInactiveDevices (now : Time)
    (inactivityThreshold : Duration) : Repo (option error) :=
  let threshold := now + wrap64 (- inactivityThreshold) in
  r ← DeviceRepository_GetInactiveDevices threshold;
  match r with
  | Err err => mret (Some err)
  | Ok devices =>
      _ ← usecase.forEach (λ _ device, cleanup_device now device) tt devices;
      mret None
  end.

(** ** Package websocket: the registry of the hub

    A client is known by its address; [deviceID] and [userID] are set when
    it is made and never change.  The [send] channel of a client is open
    until it is closed; closing it again is a run-time panic. *)

Module websocket.

Record Client : Type := mkClient {
    addr : N;
    deviceID : UUID;
    userID : string
  }.

#[global] Instance Client_eq_dec : EqDecision Client.
Proof. solve_decision. Defined.

#[global] Instance Client_countable : Countable Client.
Proof.
  refine (inj_countable' (λ c, (addr c, deviceID c, userID c))
                         (λ t, mkClient t.1.1 t.1.2 t.2) _).
  by intros [].
Defined.

Record Hub : Type := mkHub {
    clients : gset Client;
    deviceClients : gmap UUID (gset Client);
    userClients : gmap string (gset Client);
    (** the clients whose [send] channel has been closed *)
    closed : gset Client
  }.

Definition NewHub : Hub := mkHub ∅ ∅ ∅ ∅.

Definition registerClient (client : Client) (h : Hub) : Hub :=
  mkHub ({[client]} ∪ clients h)
        (<[deviceID client :=
             {[client]} ∪ default ∅ (deviceClients h !! deviceID client)]>
           (deviceClients h))
        (if negb (String.eqb (userID client) "") then
           <[userID client :=
               {[client]} ∪ default ∅ (userClients h !! userID client)]>
             (userClients h)
         else userClients h)
        (closed h).

(** [delete(clients, client)] on the inner map, and the entry of the outer
    map goes with its last client. *)
Definition forget {K} `{Countable K} (key : K) (client : Client)
    (m : gmap K (gset Client)) : gmap K (gset Client) :=
  match m !! key with
  | Some cs =>
      let cs' := cs ∖ {[client]} in
      if (size cs' =? 0)%nat then delete key m else <[key := cs']> m
  | None => m
  end.

(** [close(client.send)] *)
Definition close_send (client : Client) (h : Hub) : Call Hub :=
  if bool_decide (client ∈ closed h) then Panics "close of closed channel"
  else Returns (mkHub (clients h) (deviceClients h) (userClients h)
                      ({[client]} ∪ closed h)).

Definition unregisterClient (client : Client) (h : Hub) : Call Hub :=
  let h1 :=
    mkHub (clients h ∖ {[client]})
          (forget (deviceID client) client (deviceClients h))
          (if negb (String.eqb (userID client) "") then
             forget (userID client) client (userClients h)
           else userClients h)
          (closed h) in
  close_send client h1.

Definition IsDeviceConnected (id : UUID) (h : Hub) : bool :=
  match deviceClients h !! id with
  | Some cs => (0 <? size cs)%nat
  | None => false
  end.

Definition IsUserConnected (id : string) (h : Hub) : bool :=
  match userClients h !! id with
  | Some cs => (0 <? size cs)%nat
  | None => false
  end.

Definition GetClientCount (h : Hub) : Z := Z.of_nat (size (clients h)).

(** The [shutdown] case of [Run]: the loop over the clients, in the order
    [visit] in which the run time hands them out; a client that an earlier
    turn has taken out of the map is not visited. *)
Fixpoint shutdown_loop (visit : list Client) (h : Hub) : Call Hub :=
  match visit with
  | [] => Returns h
  | client :: rest =>
      if bool_decide (client ∈ clients h) then
        match unregisterClient client h with
        | Panics why => Panics why
        | Returns h1 =>
            match close_send client h1 with
            | Panics why => Panics why
            | Returns h2 => shutdown_loop rest h2
            end
        end
      else shutdown_loop rest h
  end.

End websocket.

(** The hubs that can arise: clients whose channel is open are registered,
    and registered clients are taken out again. *)
Inductive hub_reachable : websocket.Hub → Prop :=
  | reach_New : hub_reachable websocket.NewHub
  | reach_register client h :
      hub_reachable h →
      client ∉ websocket.closed h →
      hub_reachable (websocket.registerClient client h)
  | reach_unregister client h h' :
      hub_reachable h →
      websocket.unregisterClient client h = Returns h' →
      hub_reachable h'.

(** What the three maps of a hub say about each other. *)
Definition hub_consistent (h : websocket.Hub) : Prop :=
  (∀ id cs, websocket.deviceClients h !! id = Some cs →
     cs ≠ ∅ ∧ ∀ c, c ∈ cs ↔ c ∈ websocket.clients h ∧ websocket.deviceID c = id)
  ∧ (∀ c, c ∈ websocket.clients h →
       is_Some (websocket.deviceClients h !! websocket.deviceID c))
  ∧ (∀ c, c ∈ websocket.clients h → c ∉ websocket.closed h).

(** ** Vocabulary of the statements about the loops over the store *)

(** The WHERE clause of [GetPendingForRetry]. *)
Definition due_for_retry (maxRetries : Z) (d : DeliveryRow) : bool :=
  (String.eqb (DT.Status d) entity.DeliveryStatusPending
   || String.eqb (DT.Status d) entity.DeliveryStatusFailed)
  && (DT.RetryCount d <? maxRetries).

(** The rows that the repository's [MarkAsFailed], [MarkAsSent] and
    [MarkAsDelivered] leave in place of [d]. *)
Definition failed_row (now : Time) (msg : string) (d : DeliveryRow) : DeliveryRow :=
  DT.mk (DT.ID d) (DT.NotificationID d) (DT.DeviceID d) (DT.Channel d)
        entity.DeliveryStatusFailed (DT.SentAt d) (DT.DeliveredAt d) (Some now)
        (DT.RetryCount d + 1) (Some msg) (DT.CreatedAt d) now.

(** The delivery that the scan of a row gives when the row can be read. *)
Definition scanned (d : DeliveryRow) : DT.t :=
  DT.mk (DT.ID d) (DT.NotificationID d) (DT.DeviceID d) (DT.Channel d) (DT.Status d)
        (DT.SentAt d) (DT.DeliveredAt d) (DT.FailedAt d) (DT.RetryCount d)
        (default "" (DT.ErrorMessage d)) (DT.CreatedAt d) (DT.UpdatedAt d).

Definition sent_row (now : Time) (d : DeliveryRow) : DeliveryRow :=
  DT.mk (DT.ID d) (DT.NotificationID d) (DT.DeviceID d) (DT.Channel d)
        entity.DeliveryStatusSent (Some now) (DT.DeliveredAt d) (DT.FailedAt d)
        (DT.RetryCount d) (DT.ErrorMessage d) (DT.CreatedAt d) now.

Definition delivered_row (now : Time) (d : DeliveryRow) : DeliveryRow :=
  DT.mk (DT.ID d) (DT.NotificationID d) (DT.DeviceID d) (DT.Channel d)
        entity.DeliveryStatusDelivered (DT.SentAt d) (Some now) (DT.FailedAt d)
        (DT.RetryCount d) (DT.ErrorMessage d) (DT.CreatedAt d) now.

(** Some stored device with this id was last seen before [threshold]. *)
Definition inactive_device (threshold : Time) (w : World) (id : UUID) : bool :=
  existsb (λ d, uuid_eqb (Dev.ID d) id && (Dev.LastAccess d <? threshold)) (devices w).


(** * Theorems *)

(** ** Lists, strings and the repository monad *)

Lemma find_update_where {A} (p : A → bool) (f : A → A) (l : list A) :
  (∀ x, p (f x) = p x) →
  find p (postgres.update_where p f l) = f <$> find p l.
Proof.
  intros Hp. induction l as [|x l IH]; simpl; [done|].
  destruct (p x) eqn:E.
  - by rewrite Hp, E.
  - by rewrite E.
Qed.


Lemma filter_update_where_length {A} (p q : A → bool) (f : A → A) (l : list A) :
  (∀ x, p (f x) = p x) →
  length (List.filter p (postgres.update_where q f l)) = length (List.filter p l).
Proof.
  intros Hp. induction l as [|x l IH]; simpl; [done|].
  destruct (q x); rewrite ?Hp; destruct (p x); simpl; by rewrite IH.
Qed.

Lemma statement_healthy {A} (onFault : A) run w :
  faults w = [] → statement onFault run w = run w.
Proof. unfold statement. by intros ->. Qed.

Lemma append_String c s t : String c s +:+ t = String c (s +:+ t).
Proof. reflexivity. Qed.

Lemma append_Empty t : "" +:+ t = t.
Proof. reflexivity. Qed.

Lemma append_assoc (a b c : string) : (a +:+ b) +:+ c = a +:+ (b +:+ c).
Proof. induction a as [|x a IH]; [done|]. by rewrite !append_String, IH. Qed.

Lemma length_zero_iff s : (String.length s =? 0)%nat = true ↔ s = "".
Proof. destruct s; simpl; split; done. Qed.









(** ** Status transitions (C1) *)


Lemma scan_written (d : DeliveryRow) msg :
  DT.ErrorMessage d = Some msg →
  DeliveryRepo.scan d
  = Ok (DT.mk (DT.ID d) (DT.NotificationID d) (DT.DeviceID d) (DT.Channel d)
              (DT.Status d) (DT.SentAt d) (DT.DeliveredAt d) (DT.FailedAt d)
              (DT.RetryCount d) msg (DT.CreatedAt d) (DT.UpdatedAt d)).
Proof. unfold DeliveryRepo.scan. by intros ->. Qed.

Lemma scan_never_failed (d : DeliveryRow) :
  DT.ErrorMessage d = None → DeliveryRepo.scan d = Err DeliveryRepo.scanError.
Proof. unfold DeliveryRepo.scan. by intros ->. Qed.

(** A scan keeps every column but the error message. *)
Lemma scan_columns (d : DeliveryRow) e :
  DeliveryRepo.scan d = Ok e →
  DT.ID e = DT.ID d ∧ DT.NotificationID e = DT.NotificationID d
  ∧ DT.DeviceID e = DT.DeviceID d ∧ DT.Channel e = DT.Channel d
  ∧ DT.Status e = DT.Status d ∧ DT.RetryCount e = DT.RetryCount d
  ∧ DT.ErrorMessage d = Some (DT.ErrorMessage e).
Proof.
  unfold DeliveryRepo.scan. destruct (DT.ErrorMessage d); [|done].
  by intros [= <-].
Qed.

Lemma readable_scan (d : DeliveryRow) : readable d ↔ is_ok (DeliveryRepo.scan d) = true.
Proof.
  unfold readable, DeliveryRepo.scan. destruct (DT.ErrorMessage d); simpl; split; done.
Qed.

(** What the service makes of the read that opens each of its methods. *)
Lemma GetByID_run w id delivery :
  faults w = [] →
  find (DeliveryRepo.has_id id) (deliveries w) = Some delivery →
  DeliveryRepo.GetByID id w = (DeliveryRepo.scan delivery, w).
Proof.
  intros Hf Hfind. unfold DeliveryRepo.GetByID.
  rewrite statement_healthy by done. by rewrite Hfind.
Qed.

Lemma UpdateStatus_run w now id status delivery :
  faults w = [] →
  find (DeliveryRepo.has_id id) (deliveries w) = Some delivery →
  DS.UpdateStatus now id status w =
    match DT.ErrorMessage delivery with
    | None => (Some ErrDeliveryNotFound, w)
    | Some _ =>
        if DS.isValidStatusTransition (DT.Status delivery) status
        then (None, with_deliveries
                      (postgres.update_where (DeliveryRepo.has_id id)
                         (DT.with_status status now) (deliveries w)) w)
        else (Some ErrInvalidDeliveryStatus, w)
    end.
Proof.
  intros Hf Hfind.
  unfold DS.UpdateStatus, mbind, Repo_bind.
  rewrite (GetByID_run w id delivery Hf Hfind).
  unfold DeliveryRepo.scan.
  destruct (DT.ErrorMessage delivery) as [msg|]; [|done]. cbn [DT.Status].
  destruct (DS.isValidStatusTransition _ _); simpl; [|done].
  unfold DeliveryRepo.UpdateStatus, statement. by rewrite Hf.
Qed.




(** ** Submission outcome (C2) *)

(** The repository steps of the loop body against the invariant. *)



Section Loop.
Variable wsManager : usecase.WebSocketManager.
Variable json_Marshal : JSON → Result string.
Variable json_Unmarshal : string → Result JSON.








End Loop.



Section NoAttempt.
Variable wsManager : usecase.WebSocketManager.
Variable json_Marshal : JSON → Result string.
Variable json_Unmarshal : string → Result JSON.



End NoAttempt.

(** *** The submission on a store that answers *)





Section Answered.
Variable wsManager : usecase.WebSocketManager.
Variable json_Marshal : JSON → Result string.
Variable json_Unmarshal : string → Result JSON.









End Answered.





(** ** Acknowledgement (C3) *)

Lemma GetByNotificationID_run w notificationID :
  faults w = [] →
  DeliveryRepo.GetByNotificationID notificationID w
  = (DeliveryRepo.scan_rows
       (List.filter (λ d, uuid_eqb (DT.NotificationID d) notificationID) (deliveries w)),
     w).
Proof.
  intros Hf. unfold DeliveryRepo.GetByNotificationID. by rewrite statement_healthy.
Qed.

Lemma ConfirmDelivery_existing w now notificationID deviceID found delivery :
  faults w = [] →
  DeliveryRepo.scan_rows
    (List.filter (λ d, uuid_eqb (DT.NotificationID d) notificationID) (deliveries w))
    = Ok found →
  find (λ d, uuid_eqb (DT.DeviceID d) deviceID) found = Some delivery →
  DS.ConfirmDelivery now notificationID deviceID w
  = (None,
     with_deliveries
       (postgres.update_where (DeliveryRepo.has_id (DT.ID delivery))
          (λ d, DT.mk (DT.ID d) (DT.NotificationID d) (DT.DeviceID d) (DT.Channel d)
                      entity.DeliveryStatusDelivered (DT.SentAt d) (Some now)
                      (DT.FailedAt d) (DT.RetryCount d) (DT.ErrorMessage d)
                      (DT.CreatedAt d) now)
          (deliveries w)) w).
Proof.
  intros Hf Hscan Hfind.
  unfold DS.ConfirmDelivery, mbind, Repo_bind.
  rewrite GetByNotificationID_run by done. rewrite Hscan, Hfind.
  unfold DeliveryRepo.MarkAsDelivered. by rewrite statement_healthy.
Qed.

(** The part of C3 that holds: an ack for a pair without a row creates a
    row of the pair that is DELIVERED, when the rows of the notification
    can be read. *)
Lemma ConfirmDelivery_without_row w now notificationID deviceID found :
  faults w = [] →
  DeliveryRepo.scan_rows
    (List.filter (λ d, uuid_eqb (DT.NotificationID d) notificationID) (deliveries w))
    = Ok found →
  find (λ d, uuid_eqb (DT.DeviceID d) deviceID) found = None →
  let r := DS.ConfirmDelivery now notificationID deviceID w in
  r.1 = None
  ∧ ∃ d, d ∈ deliveries r.2 ∧ DT.NotificationID d = notificationID
         ∧ DT.DeviceID d = deviceID ∧ DT.Status d = "delivered".
Proof.
  intros Hf Hscan Hfind r. subst r.
  unfold DS.ConfirmDelivery, mbind, Repo_bind.
  rewrite GetByNotificationID_run by done. rewrite Hscan, Hfind.
  unfold uuid_New, DeliveryRepo.Create. rewrite statement_healthy by done.
  unfold DeliveryRepo.MarkAsDelivered. rewrite statement_healthy by done.
  split; [done|]. cbn [snd deliveries with_deliveries entity.NewDeliveryTracking DT.ID
                       DT.NotificationID DT.DeviceID DT.Channel DT.Status DT.RetryCount
                       DT.CreatedAt DT.UpdatedAt].
  eexists. split.
  - unfold postgres.update_where. rewrite fmap_app. apply elem_of_app. right.
    cbn [fmap list_fmap DT.ID]. unfold DeliveryRepo.has_id at 1, uuid_eqb.
    cbn [DT.ID]. rewrite N.eqb_refl. left.
  - done.
Qed.

(** The guarded path next to it: the service's own [MarkAsDelivered]
    refuses a row that is not SENT and leaves the table as it is. *)
Lemma MarkAsDelivered_requires_sent w now id delivery :
  faults w = [] →
  find (DeliveryRepo.has_id id) (deliveries w) = Some delivery →
  readable delivery →
  DT.Status delivery ≠ "sent" →
  DS.MarkAsDelivered now id w
  = (Some (ErrWrap "delivery must be in sent state to mark as delivered"
             ErrInvalidDeliveryStatus), w).
Proof.
  intros Hf Hfind Hr Hst. unfold DS.MarkAsDelivered, mbind, Repo_bind.
  rewrite (GetByID_run w id delivery Hf Hfind). unfold DeliveryRepo.scan.
  destruct (DT.ErrorMessage delivery) as [msg|] eqn:Hmsg; [|done].
  cbn [DT.Status]. unfold entity.DeliveryStatusSent.
  by destruct (String.eqb_spec (DT.Status delivery) "sent").
Qed.

(** C3, the code at the failing inputs.  An ack marks the first row of the
    pair DELIVERED whatever its status: an EXPIRED row and a FAILED row
    become DELIVERED, and of two rows of the pair the older one is marked
    while the newer SENT row stays SENT. *)
Lemma ConfirmDelivery_ignores_the_status :
  (let r := DS.ConfirmDelivery 7 10%N 20%N (store_of [row 1 10 20 "expired"]) in
   r.1 = None ∧ statuses r.2 = [(1%N, "delivered")])
  ∧ (let r := DS.ConfirmDelivery 7 10%N 20%N (store_of [row 1 10 20 "failed"]) in
     r.1 = None ∧ statuses r.2 = [(1%N, "delivered")])
  ∧ (let older := DT.mk 1%N 10%N 20%N "fcm" "pending" None None None 0 "" 1 1 in
     let newer := DT.mk 2%N 10%N 20%N "websocket" "sent" (Some 3) None None 0 "" 2 3 in
     let r := DS.ConfirmDelivery 7 10%N 20%N (store_of [older; newer]) in
     r.1 = None ∧ statuses r.2 = [(1%N, "delivered"); (2%N, "sent")]).
Proof. vm_compute. repeat split. Qed.

(** A row that was sent at the first attempt never failed: its error
    message is NULL, the read of the rows of the notification fails on it,
    and the ack returns the scan error and marks nothing. *)
Lemma ConfirmDelivery_never_failed_row :
  let w := store_of_rows [never_failed (row 1 10 20 "sent")] in
  DS.ConfirmDelivery 7 10%N 20%N w = (Some DeliveryRepo.scanError, w).
Proof. vm_compute. reflexivity. Qed.

(** ** Retry (C4, C5) *)

Lemma DeliveryTask_retry_count_frozen (t : queue.DeliveryTask) :
  queue.GetRetryCount (queue.IncrementRetryCount t) = queue.GetRetryCount t.
Proof. reflexivity. Qed.

Lemma executeWithRetry_failing (m : queue.RetryManager queue.DeliveryTask) now t w fs :
  queue.GetRetryCount t < queue.MaxRetries (queue.strategy m) →
  faults w = true :: fs →
  queue.executeWithRetry now t m w =
    ((queue.sync_task (queue.IncrementRetryCount t) m,
      queue.Rescheduled
        (queue.calculateNextRetryDelay (queue.strategy m) now (queue.GetRetryCount t))
        (queue.IncrementRetryCount t)),
     with_faults fs w).
Proof.
  intros Hlt Hf. unfold queue.executeWithRetry.
  destruct (Z.geb_spec (queue.GetRetryCount t) (queue.MaxRetries (queue.strategy m)));
    [lia|].
  unfold mbind, Repo_bind. cbn [queue.Execute queue.DeliveryTask_RetryableTask].
  unfold postgres.DeliveryRepository.UpdateStatus, statement. rewrite Hf.
  reflexivity.
Qed.

Lemma sync_task_tracked (m : queue.RetryManager queue.DeliveryTask) t :
  is_Some (queue.tasks m !! queue.GetID t) →
  is_Some (queue.tasks (queue.sync_task (queue.IncrementRetryCount t) m)
             !! queue.GetID t)
  ∧ queue.dlq (queue.sync_task (queue.IncrementRetryCount t) m) = queue.dlq m
  ∧ queue.strategy (queue.sync_task (queue.IncrementRetryCount t) m) = queue.strategy m.
Proof.
  intros [x Hx]. unfold queue.sync_task.
  change (queue.GetID (queue.IncrementRetryCount t)) with (queue.GetID t).
  rewrite Hx. cbn [queue.tasks queue.dlq queue.strategy].
  rewrite lookup_insert_eq. eauto.
Qed.

(** However often the send fails, a delivery task stays in the retry
    cycle: its observable retry count does not move, the delay does not
    grow, and it never reaches the dead-letter queue. *)
Lemma DeliveryTask_never_exhausted n :
  ∀ (m : queue.RetryManager queue.DeliveryTask) now t delay w fs,
    queue.GetRetryCount t < queue.MaxRetries (queue.strategy m) →
    is_Some (queue.tasks m !! queue.GetID t) →
    faults w = replicate n true ++ fs →
    ∃ m' delay' t' now',
      queue.timers n now (m, queue.Rescheduled delay t) w
      = ((m', queue.Rescheduled delay' t'), with_faults fs w)
      ∧ queue.GetRetryCount t' = queue.GetRetryCount t
      ∧ queue.attempts t' = Nat.iter n (λ a, wrap64 (a + 1)) (queue.attempts t)
      ∧ (n ≠ O → delay' = queue.calculateNextRetryDelay (queue.strategy m) now'
                           (queue.GetRetryCount t))
      ∧ is_Some (queue.tasks m' !! queue.GetID t)
      ∧ queue.dlq m' = queue.dlq m.
Proof.
  induction n as [|n IH]; intros m now t delay w fs Hlt Htracked Hf.
  - exists m, delay, t, now. simpl in *. subst fs.
    split_and!; try done. by destruct w.
  - cbn [queue.timers]. cbn [snd fst]. unfold mbind at 1. unfold Repo_bind at 1.
    unfold queue.timerFired. destruct Htracked as [x Hx]. rewrite Hx.
    unfold mbind at 1. unfold Repo_bind at 1.
    rewrite (executeWithRetry_failing m (now + delay) t w (replicate n true ++ fs))
      by done.
    cbn [mret Repo_ret fst snd].
    destruct (sync_task_tracked m t (ex_intro _ x Hx)) as (Htr & Hdlq & Hstr).
    edestruct (IH (queue.sync_task (queue.IncrementRetryCount t) m) (now + delay)
                 (queue.IncrementRetryCount t)
                 (queue.calculateNextRetryDelay (queue.strategy m) (now + delay)
                    (queue.GetRetryCount t))
                 (with_faults (replicate n true ++ fs) w) fs)
      as (m' & delay' & t' & now' & Hrun & Hcount & Hatt & Hdelay & Htr' & Hdlq').
    { by rewrite Hstr. }
    { done. }
    { done. }
    rewrite Hrun.
    exists m', delay', t', (match n with O => now + delay | S _ => now' end).
    split_and!; [done|done| | |done|by rewrite Hdlq'].
    + rewrite Hatt. cbn [queue.attempts queue.IncrementRetryCount
                         queue.DeliveryTask_RetryableTask].
      by rewrite Nat.iter_succ_r.
    + intros _. destruct n as [|n'].
      * simpl in Hrun. by injection Hrun as <- <- <-.
      * rewrite Hdelay by done. by rewrite Hstr.
Qed.

(** C4, the code at the failing input.  With max_retries = 2 and every
    execution failing, after the first execution and ten timers the task is
    still scheduled: its observable retry count is 0 (eleven failures went
    to the private field [attempts]), the delay is still the base interval,
    the task is still tracked, the dead-letter queue is empty and the row
    is not marked. *)
Lemma DeliveryTask_retries_past_the_limit :
  let w := failing 20 (store_of [row 1 10 20 "failed"]) in
  let m := queue.NewRetryManager (Some (strategy_of 2)) in
  let r := (r0 ← queue.AddTask 7 (task_of (row 1 10 20 "failed")) m;
            queue.timers 10 7 r0) w in
  (∃ t, r.1.2 = queue.Rescheduled (500 * Millisecond) t
        ∧ queue.GetRetryCount t = 0 ∧ queue.attempts t = 11)
  ∧ map fst (map_to_list (queue.tasks r.1.1))
    = ["delivery_00000000-0000-0000-0000-000000000001"]
  ∧ size (queue.dlq_tasks (queue.dlq r.1.1)) = 0%nat
  ∧ statuses r.2 = [(1%N, "failed")].
Proof. vm_compute. split; [eexists|]; repeat split. Qed.

(** The manager itself exhausts a task whose retry count has reached the
    limit: it moves it to the dead-letter queue and marks the row FAILED. *)
Lemma executeWithRetry_exhausted :
  let w := store_of [row 1 10 20 "failed"] in
  let d := DT.mk 1%N 10%N 20%N "websocket" "failed" None None None 5 "" 0 0 in
  let r := queue.AddTask 7 (task_of d) (queue.NewRetryManager None) w in
  r.1.2 = queue.DeadLettered
  ∧ map fst (map_to_list (queue.tasks r.1.1)) = []
  ∧ map fst (map_to_list (queue.dlq_tasks (queue.dlq r.1.1)))
    = ["delivery_00000000-0000-0000-0000-000000000001"]
  ∧ map (λ d, (DT.Status d, DT.RetryCount d, DT.ErrorMessage d)) (deliveries r.2)
    = [("failed", 1, Some "maximum retries exceeded")].
Proof. vm_compute. repeat split. Qed.

(** C5, the code at the failing input.  A retry task holds the snapshot of
    a row taken while it was FAILED; the row has been acknowledged since.
    Executing the task sets the DELIVERED row back to PENDING, and the
    success handler then marks it SENT. *)
Lemma retry_overwrites_delivered :
  let w := store_of [row 1 10 20 "delivered"] in
  let task := task_of (row 1 10 20 "failed") in
  (let r := queue.Execute 7 task w in
   r.1 = None ∧ statuses r.2 = [(1%N, "pending")])
  ∧ (let r := queue.AddTask 7 task (queue.NewRetryManager None) w in
     r.1.2 = queue.Succeeded ∧ statuses r.2 = [(1%N, "sent")]).
Proof. vm_compute. repeat split. Qed.

(** The guarded path next to it refuses the same change. *)
Lemma UpdateStatus_keeps_delivered w now id status delivery :
  faults w = [] →
  find (DeliveryRepo.has_id id) (deliveries w) = Some delivery →
  readable delivery →
  DT.Status delivery = "delivered" ∨ DT.Status delivery = "expired" →
  DS.UpdateStatus now id status w = (Some ErrInvalidDeliveryStatus, w).
Proof.
  intros Hf Hfind Hr Hst. rewrite (UpdateStatus_run w now id status delivery Hf Hfind).
  unfold readable in Hr. destruct (DT.ErrorMessage delivery); [|done].
  by destruct Hst as [-> | ->].
Qed.

(** ** Backoff (C6) *)

(** The defaults are those of the specification (one minute is 60 s). *)
Lemma DefaultRetryStrategy_values :
  queue.MaxRetries queue.DefaultRetryStrategy = 5
  ∧ queue.BaseInterval queue.DefaultRetryStrategy = 500 * Millisecond
  ∧ (queue.Multiplier queue.DefaultRetryStrategy == 2)%Q
  ∧ queue.MaxInterval queue.DefaultRetryStrategy = 60 * Second
  ∧ (queue.Jitter queue.DefaultRetryStrategy == 2 # 10)%Q.
Proof. repeat split. Qed.

(** C6, the code at the failing input.  The power is converted to a
    duration, and so loses its fraction, before it is multiplied by the
    base: with base 500 ms, multiplier 1.5, cap 60 s and no jitter the
    delay of retry 1 is 500 ms, where min(base × multiplier^1, cap) is
    750 ms.  (1.5 and 1.5^1 are exact in float64.) *)
Lemma backoff_truncates_the_factor :
  let s := queue.mkRetryStrategy 5 (500 * Millisecond) (3 # 2) (1 * Minute) 0 in
  (∀ nowNano, queue.calculateNextRetryDelay s nowNano 1 = 500 * Millisecond)
  ∧ (spec_backoff s 1 == inject_Z (750 * Millisecond))%Q.
Proof. split; [intros nowNano|]; vm_compute; reflexivity. Qed.

(** With the default strategy the product leaves the 64-bit range at retry
    35 (2^35 is exact in float64 and the integer product wraps): the delay
    drops from the cap to a negative value. *)
Lemma backoff_overflows :
  let s := without_jitter queue.DefaultRetryStrategy in
  (∀ nowNano, queue.calculateNextRetryDelay s nowNano 34 = 60 * Second)
  ∧ (∀ nowNano, queue.calculateNextRetryDelay s nowNano 35 = -1266874889709551616).
Proof. split; intros nowNano; vm_compute; reflexivity. Qed.

(** In the range where the product fits, the default strategy follows the
    formula of the specification. *)
Lemma default_backoff_in_range n nowNano :
  0 ≤ n ≤ 34 →
  queue.calculateNextRetryDelay (without_jitter queue.DefaultRetryStrategy) nowNano n
  = Z.min (500 * Millisecond * 2 ^ n) (60 * Second).
Proof.
  intros Hn.
  assert (Hc : n ∈ seqZ 0 35) by (apply elem_of_seqZ; lia).
  vm_compute seqZ in Hc.
  rewrite !elem_of_cons, elem_of_nil in Hc.
  repeat (destruct Hc as [->|Hc]; [vm_compute; reflexivity|]). done.
Qed.

(** There it is monotone and below the cap. *)
Lemma default_backoff_monotone n n' nowNano nowNano' :
  0 ≤ n ≤ n' → n' ≤ 34 →
  let s := without_jitter queue.DefaultRetryStrategy in
  queue.calculateNextRetryDelay s nowNano n ≤ queue.calculateNextRetryDelay s nowNano' n'
  ∧ queue.calculateNextRetryDelay s nowNano' n' ≤ queue.MaxInterval s.
Proof.
  intros Hn Hn' s. subst s.
  rewrite !default_backoff_in_range by lia.
  assert (2 ^ n ≤ 2 ^ n') by (apply Z.pow_le_mono_r; lia).
  change (queue.MaxInterval (without_jitter queue.DefaultRetryStrategy))
    with (60 * Second).
  unfold Millisecond, Second in *. lia.
Qed.

Lemma wrap64_small z : - 2 ^ 63 ≤ z < 2 ^ 63 → wrap64 z = z.
Proof. intros Hz. unfold wrap64. rewrite Z.mod_small; lia. Qed.

Lemma Qtrunc_floor q : (0 <= q)%Q → queue.Qtrunc q = Qfloor q.
Proof.
  destruct q as [a b]. unfold Qle, queue.Qtrunc, Qfloor. simpl. intros Ha.
  apply Z.quot_div_nonneg; lia.
Qed.

(** Jitter moves the delay by at most half of [Jitter × delay] (and the
    conversion back to a duration drops less than one nanosecond). *)
Lemma jitter_bounds s nowNano n :
  let d := queue.calculateNextRetryDelay (without_jitter s) nowNano n in
  0 ≤ d → 0 ≤ nowNano →
  (0 < queue.Jitter s)%Q → (queue.Jitter s <= 2)%Q →
  (inject_Z d * (1 + queue.Jitter s / 2) < inject_Z (2 ^ 63))%Q →
  let r := queue.calculateNextRetryDelay s nowNano n in
  (inject_Z d - inject_Z d * queue.Jitter s / 2 - 1 < inject_Z r)%Q
  ∧ (inject_Z r <= inject_Z d + inject_Z d * queue.Jitter s / 2)%Q.
Proof.
  intros d Hd Hnow Hj Hj2 Hfit r. subst r d.
  unfold queue.calculateNextRetryDelay in *. cbn [queue.Jitter without_jitter queue.BaseInterval queue.Multiplier queue.MaxInterval] in *.
  change (Qle_bool 0 0) with true in *. cbn [negb] in *.
  set (d := if _ >? _ then _ else _) in *.
  destruct (Qle_bool (queue.Jitter s) 0) eqn:E.
  { apply Qle_bool_iff in E. destruct (Qlt_not_le _ _ Hj E). }
  cbn [negb]. unfold queue.float64_of_int64.
  set (j := queue.Jitter s) in *.
  set (k := Z.rem nowNano 1000).
  assert (Hk : 0 ≤ k < 1000) by (apply Z.rem_bound_pos; lia).
  assert (Hdq : (0 <= inject_Z d)%Q) by (unfold Qle; simpl; lia).
  assert (Hkq : (0 <= inject_Z k)%Q) by (unfold Qle; simpl; lia).
  assert (Hkq' : (inject_Z k <= 1000)%Q) by (unfold Qle; simpl; lia).
  set (D := inject_Z d) in *. set (K := inject_Z k) in *.
  clearbody D K j. clear E.
  unfold queue.float64_to_int64.
  set (q := (D - D * j / 2 + D * j * K / 1000)%Q).
  unfold Qdiv in *. change (/ 2)%Q with (1 # 2)%Q in *.
  change (/ 1000)%Q with (1 # 1000)%Q in *.
  assert (Hx : (0 <= D * j)%Q) by nra.
  assert (Hy : (0 <= D * j * K)%Q) by nra.
  assert (Hy' : (D * j * K <= D * j * 1000)%Q) by nra.
  assert (Hlo : (D - D * j * (1 # 2) <= q)%Q) by (unfold q; lra).
  assert (Hhi : (q <= D + D * j * (1 # 2))%Q) by (unfold q; lra).
  assert (H0 : (0 <= q)%Q) by nra.
  rewrite Qtrunc_floor by done.
  pose proof (Qfloor_le q) as Hfl. pose proof (Qlt_floor q) as Hfl'.
  assert (Hnn : 0 ≤ Qfloor q).
  { change 0 with (Qfloor 0). by apply Qfloor_resp_le. }
  assert (Hlt : Qfloor q < 2 ^ 63).
  { rewrite Zlt_Qlt. set (B := inject_Z (2 ^ 63)) in *. clearbody B q. lra. }
  rewrite wrap64_small by lia.
  rewrite inject_Z_plus in Hfl'. change (inject_Z 1) with 1%Q in Hfl'.
  clearbody q. split; lra.
Qed.

(** The default strategy at retry 0, at both ends of the jitter range:
    500 ms becomes 450 ms and 549.9 ms. *)
Lemma default_jitter_range :
  queue.calculateNextRetryDelay queue.DefaultRetryStrategy 1000 0 = 450 * Millisecond
  ∧ queue.calculateNextRetryDelay queue.DefaultRetryStrategy 1999 0 = 549900000.
Proof. split; vm_compute; reflexivity. Qed.

(** ** Credential recovery (C7) *)

Lemma strings_Split_no_sep sep s :
  no_char sep s = true → strings_Split sep s = [s].
Proof.
  induction s as [|c s IH]; simpl; [done|].
  intros [Hc Hs]%andb_prop. apply negb_true_iff in Hc. rewrite Hc.
  by rewrite IH.
Qed.

Lemma strings_Split_app sep h r :
  no_char sep h = true →
  strings_Split sep (h +:+ String sep r) = h :: strings_Split sep r.
Proof.
  induction h as [|c h IH]; simpl.
  - intros _. by rewrite Ascii.eqb_refl.
  - intros [Hc Hs]%andb_prop. apply negb_true_iff in Hc. rewrite Hc.
    by rewrite IH.
Qed.

Lemma strings_Split_three h p g :
  no_char "." h = true → no_char "." p = true → no_char "." g = true →
  strings_Split "." (h +:+ "." +:+ p +:+ "." +:+ g) = [h; p; g].
Proof.
  intros Hh Hp Hg.
  rewrite !(append_String "." ""), !append_Empty.
  rewrite strings_Split_app by done.
  rewrite strings_Split_app by done.
  by rewrite strings_Split_no_sep.
Qed.

Lemma dec6_enc6 s : base64.dec6 (base64.enc6 s) = Some s.
Proof. destruct s as [[[[[[] []] []] []] []] []]; reflexivity. Qed.

Lemma enc6_not_pad s : Ascii.eqb (base64.enc6 s) base64.padChar = false.
Proof. destruct s as [[[[[[] []] []] []] []] []]; reflexivity. Qed.

Lemma enc6_not_dot s : Ascii.eqb (base64.enc6 s) "." = false.
Proof. destruct s as [[[[[[] []] []] []] []] []]; reflexivity. Qed.

Lemma RawURLEncoding_no_dot src :
  no_char "." (base64.RawURLEncoding_EncodeToString src) = true.
Proof.
  revert src. fix IH 1.
  intros [|[a0 a1 a2 a3 a4 a5 a6 a7] [|[b0 b1 b2 b3 b4 b5 b6 b7]
            [|[c0 c1 c2 c3 c4 c5 c6 c7] rest]]];
    cbn [base64.RawURLEncoding_EncodeToString no_char];
    rewrite ?enc6_not_dot; cbn [negb andb]; [done..|apply IH].
Qed.

Lemma pad4_length n : (S (S (S (S n))) mod 4 = n mod 4)%nat.
Proof.
  change (S (S (S (S n)))) with (4 + n)%nat.
  rewrite <- Nat.Div0.add_mod_idemp_l. reflexivity.
Qed.

Lemma DecodeBase64URL_quad c1 c2 c3 c4 s1 s2 s3 s4 rest :
  base64.dec6 c1 = Some s1 → base64.dec6 c2 = Some s2 →
  base64.dec6 c3 = Some s3 → base64.dec6 c4 = Some s4 →
  Ascii.eqb c3 base64.padChar = false → Ascii.eqb c4 base64.padChar = false →
  utils.DecodeBase64URL (String c1 (String c2 (String c3 (String c4 rest)))) =
  match utils.DecodeBase64URL rest with
  | Ok tail =>
      Ok (String (base64.byte1 s1 s2)
            (String (base64.byte2 s2 s3) (String (base64.byte3 s3 s4) tail)))
  | Err e => Err e
  end.
Proof.
  intros H1 H2 H3 H4 Hp3 Hp4. unfold utils.DecodeBase64URL.
  cbn [String.length]. rewrite pad4_length.
  destruct (negb _).
  - change (String c1 (String c2 (String c3 (String c4 rest))) +:+ ?t)
      with (String c1 (String c2 (String c3 (String c4 (rest +:+ t))))).
    cbn [base64.URLEncoding_DecodeString].
    rewrite H1, H2, H3, H4, Hp3, Hp4.
    by destruct (base64.URLEncoding_DecodeString _).
  - cbn [base64.URLEncoding_DecodeString].
    rewrite H1, H2, H3, H4, Hp3, Hp4.
    by destruct (base64.URLEncoding_DecodeString _).
Qed.

(** The padding added by [DecodeBase64URL] undoes the encoder's omission. *)
Lemma DecodeBase64URL_RawURLEncoding src :
  utils.DecodeBase64URL (base64.RawURLEncoding_EncodeToString src) = Ok src.
Proof.
  revert src. fix IH 1.
  intros [|[a0 a1 a2 a3 a4 a5 a6 a7] [|[b0 b1 b2 b3 b4 b5 b6 b7]
            [|[c0 c1 c2 c3 c4 c5 c6 c7] rest]]].
  - reflexivity.
  - unfold utils.DecodeBase64URL. cbn -[base64.enc6 base64.dec6].
    rewrite !append_String, !append_Empty. cbn -[base64.enc6 base64.dec6].
    rewrite !dec6_enc6. reflexivity.
  - unfold utils.DecodeBase64URL. cbn -[base64.enc6 base64.dec6 Ascii.eqb].
    rewrite !append_String, !append_Empty. cbn -[base64.enc6 base64.dec6 Ascii.eqb].
    rewrite !dec6_enc6, enc6_not_pad. reflexivity.
  - cbn [base64.RawURLEncoding_EncodeToString].
    erewrite DecodeBase64URL_quad; eauto using dec6_enc6, enc6_not_pad.
    rewrite IH. reflexivity.
Qed.

(** The text form of a UUID parses back. *)

Lemma hex_value_digit d : (d < 16)%N → hex_value (hex_digit d) = Some d.
Proof.
  intros Hd.
  assert (Hcases : d ∈ [0;1;2;3;4;5;6;7;8;9;10;11;12;13;14;15]%N).
  { rewrite !elem_of_cons. lia. }
  rewrite !elem_of_cons, elem_of_nil in Hcases.
  intuition subst; reflexivity.
Qed.

Lemma of_hex_app acc l1 l2 :
  of_hex acc (l1 ++ l2) = of_hex acc l1 ≫= λ a, of_hex a l2.
Proof.
  revert acc. induction l1 as [|c l1 IH]; intros acc; simpl; [done|].
  destruct (hex_value c); [apply IH|done].
Qed.

Lemma of_hex_to_hex k n acc :
  of_hex acc (to_hex k n) = Some (acc * 16 ^ N.of_nat k + n mod 16 ^ N.of_nat k)%N.
Proof.
  revert n acc. induction k as [|k IH]; intros n acc.
  - simpl. f_equal. rewrite N.mod_1_r. lia.
  - cbn [to_hex]. rewrite of_hex_app, IH. cbn [mbind option_bind of_hex].
    rewrite hex_value_digit by (apply N.mod_lt; lia). f_equal.
    rewrite Nat2N.inj_succ, N.pow_succ_r'.
    rewrite (N.Div0.mod_mul_r n 16 (16 ^ N.of_nat k)). lia.
Qed.

Lemma length_to_hex k n : length (to_hex k n) = k.
Proof.
  revert n. induction k as [|k IH]; intros n; simpl; [done|].
  rewrite length_app, IH. simpl. lia.
Qed.

Lemma uuid_Parse_String u : (u < 2 ^ 128)%N → uuid_Parse (uuid_String u) = Ok u.
Proof.
  intros Hu. unfold uuid_Parse, uuid_String.
  rewrite list_ascii_of_string_of_list_ascii.
  pose proof (length_to_hex 32 u) as Hlen.
  pose proof (of_hex_to_hex 32 u 0) as Hhex.
  remember (to_hex 32 u) as h eqn:Hh. clear Hh.
  do 32 (destruct h as [|? h]; [discriminate Hlen|]).
  destruct h; [|discriminate Hlen].
  cbn -[of_hex]. rewrite Hhex. f_equal.
  rewrite N.mod_small by (change (16 ^ N.of_nat 32)%N with (2 ^ 128)%N; lia). lia.
Qed.

Lemma uuid_String_nonempty u : (String.length (uuid_String u) =? 0)%nat = false.
Proof.
  unfold uuid_String.
  pose proof (length_to_hex 32 u) as Hlen.
  remember (to_hex 32 u) as h eqn:Hh. clear Hh.
  do 32 (destruct h as [|? h]; [discriminate Hlen|]).
  reflexivity.
Qed.

Lemma string_claim_device_identifier c :
  TS.nonempty (TS.string_claim "device_identifier" (Claims_fields c)) =
  if (String.length (TS.DeviceIdentifier c) =? 0)%nat then None
  else Some (TS.DeviceIdentifier c).
Proof.
  destruct c as [did dident uid tmp exp iat].
  unfold Claims_fields, TS.Claims_json, TS.omitempty_string, TS.omitempty_bool,
    TS.omitempty_date, TS.string_claim, TS.nonempty. cbn [TS.DeviceID TS.DeviceIdentifier
    TS.UserID TS.IsTemporary TS.ExpiresAt TS.IssuedAt].
  destruct (String.length did =? 0)%nat, (String.length dident =? 0)%nat eqn:E,
    (String.length uid =? 0)%nat, tmp, exp, iat; cbn; rewrite ?E; reflexivity.
Qed.

Lemma string_claim_device_id c :
  TS.nonempty (TS.string_claim "device_id" (Claims_fields c)) =
  if (String.length (TS.DeviceID c) =? 0)%nat then None else Some (TS.DeviceID c).
Proof.
  destruct c as [did dident uid tmp exp iat].
  unfold Claims_fields, TS.Claims_json, TS.omitempty_string, TS.omitempty_bool,
    TS.omitempty_date, TS.string_claim, TS.nonempty. cbn [TS.DeviceID TS.DeviceIdentifier
    TS.UserID TS.IsTemporary TS.ExpiresAt TS.IssuedAt].
  destruct (String.length did =? 0)%nat eqn:E, (String.length dident =? 0)%nat,
    (String.length uid =? 0)%nat, tmp, exp, iat; cbn; rewrite ?E; reflexivity.
Qed.

Section Recovery.
Variable json_Marshal : JSON → Result string.
Variable json_Unmarshal : string → Result JSON.
Variable hmac_sha256 : string → string → string.

Lemma jwt_SignedString_compact key claims header body :
  json_Marshal TS.jwt_header = Ok header → json_Marshal claims = Ok body →
  ∃ signature,
    TS.jwt_SignedString json_Marshal hmac_sha256 key claims
    = Ok (compact header body signature).
Proof.
  intros Hh Hb. unfold TS.jwt_SignedString. rewrite Hh, Hb.
  eexists. unfold compact. by rewrite !append_assoc.
Qed.

(** Recovery reads the claims segment only: neither the header nor the
    signature segment is looked at, and no clock is read. *)
Lemma Extract_claims header body signature fields w :
  json_Unmarshal body = Ok (JObject fields) →
  TS.ExtractDeviceIdentifierFromToken json_Unmarshal (compact header body signature) w
  = match TS.string_claim "device_identifier" fields with
    | Some (String c v) => (Ok (String c v), w)
    | _ =>
        match TS.string_claim "device_id" fields with
        | Some (String c v) =>
            match uuid_Parse (String c v) with
            | Err err => (Err err, w)
            | Ok deviceUUID =>
                (r ← postgres.DeviceRepository.GetByID deviceUUID;
                 match r with
                 | Err err => mret (Err err)
                 | Ok device => mret (Ok (Dev.DeviceIdentifier device))
                 end) w
            end
        | _ => (Err (ErrOther "no device identifier found in token"), w)
        end
    end.
Proof.
  intros Hu. unfold TS.ExtractDeviceIdentifierFromToken, compact, TS.jwt_EncodeSegment.
  rewrite strings_Split_three by apply RawURLEncoding_no_dot.
  cbn [length Nat.eqb negb nth].
  rewrite DecodeBase64URL_RawURLEncoding.
  unfold TS.unmarshal_map. rewrite Hu. cbv beta iota. unfold TS.nonempty.
  destruct (TS.string_claim "device_identifier" fields) as [[|c v]|];
    cbn [String.length Nat.eqb]; [|done|];
    (destruct (TS.string_claim "device_id" fields) as [[|c' v']|];
     cbn [String.length Nat.eqb]; [done| |done];
     by destruct (uuid_Parse _)).
Qed.

Lemma Extract_compact header body signature c w :
  json_Unmarshal body = Ok (TS.Claims_json c) →
  TS.ExtractDeviceIdentifierFromToken json_Unmarshal (compact header body signature) w
  = match (if (String.length (TS.DeviceIdentifier c) =? 0)%nat then None
           else Some (TS.DeviceIdentifier c)) with
    | Some deviceIdentifier => (Ok deviceIdentifier, w)
    | None =>
        match (if (String.length (TS.DeviceID c) =? 0)%nat then None
               else Some (TS.DeviceID c)) with
        | Some deviceID =>
            match uuid_Parse deviceID with
            | Err err => (Err err, w)
            | Ok deviceUUID =>
                (r ← postgres.DeviceRepository.GetByID deviceUUID;
                 match r with
                 | Err err => mret (Err err)
                 | Ok device => mret (Ok (Dev.DeviceIdentifier device))
                 end) w
            end
        | None => (Err (ErrOther "no device identifier found in token"), w)
        end
    end.
Proof.
  intros Hu. unfold TS.ExtractDeviceIdentifierFromToken, compact, TS.jwt_EncodeSegment.
  rewrite strings_Split_three by apply RawURLEncoding_no_dot.
  cbn [length Nat.eqb negb nth].
  rewrite DecodeBase64URL_RawURLEncoding.
  unfold TS.unmarshal_map. rewrite Hu.
  change (TS.Claims_json c) with (JObject (Claims_fields c)). cbv beta iota.
  rewrite string_claim_device_identifier.
  destruct (String.length (TS.DeviceIdentifier c) =? 0)%nat; [|done].
  rewrite string_claim_device_id.
  destruct (String.length (TS.DeviceID c) =? 0)%nat; [done|].
  by destruct (uuid_Parse _).
Qed.

(** A text that is not made of three segments is refused. *)
Lemma Extract_without_dot tokenString w :
  no_char "." tokenString = true →
  TS.ExtractDeviceIdentifierFromToken json_Unmarshal tokenString w
  = (Err ErrInvalidToken, w).
Proof.
  intros H. unfold TS.ExtractDeviceIdentifierFromToken.
  by rewrite strings_Split_no_sep.
Qed.

(** C7, as amended.  Both kinds of issued credential give the device
    identifier back.  A temporary credential issued for a non-empty
    identifier returns it from its own claim, in every store.  A permanent
    credential issued for a stored device returns that device's identifier:
    from its own claim when the identifier is not empty, otherwise by
    looking the device id up in the store, which then has to answer and
    still hold the device.  Recovery takes neither the key nor the time, so
    neither the signature nor the expiry can matter.  The rule by which
    recovery reads a claims object, issued or not: a [device_identifier]
    that is a non-empty string is returned; when it is missing, not a
    string or empty, the [device_id] claim is looked up in the store.  The
    JSON codec is assumed to give the claims object back. *)
Theorem credential_recovery (s : TS.t) (now : Time) (deviceIdentifier userID : string)
    (deviceID : UUID) (device : Dev.t) (w : World) :
  is_ok (json_Marshal TS.jwt_header) = true →
  deviceIdentifier ≠ "" →
  json_roundtrips json_Marshal json_Unmarshal
    (TS.Claims_json (TS.temporaryClaims s now deviceIdentifier)) →
  faults w = [] → (deviceID < 2 ^ 128)%N →
  find (postgres.DeviceRepository.has_id deviceID) (devices w) = Some device →
  json_roundtrips json_Marshal json_Unmarshal
    (TS.Claims_json (TS.permanentClaims s now userID deviceID
                       (postgres.DeviceRepository.scan device))) →
  (∃ tokenString,
      TS.GenerateTemporaryToken json_Marshal hmac_sha256 s now deviceIdentifier
      = Ok tokenString
      ∧ ∀ w', (TS.ExtractDeviceIdentifierFromToken json_Unmarshal tokenString w').1
              = Ok deviceIdentifier)
  ∧ (∃ tokenString,
      TS.GeneratePermanentToken json_Marshal hmac_sha256 s now userID deviceID w
      = (Ok tokenString, w)
      ∧ ∀ w', Dev.DeviceIdentifier device ≠ ""
              ∨ (faults w' = []
                 ∧ Dev.DeviceIdentifier
                     <$> find (postgres.DeviceRepository.has_id deviceID) (devices w')
                   = Some (Dev.DeviceIdentifier device)) →
              (TS.ExtractDeviceIdentifierFromToken json_Unmarshal tokenString w').1
              = Ok (Dev.DeviceIdentifier device))
  ∧ (∀ header body signature fields w',
       json_Unmarshal body = Ok (JObject fields) →
       let r := (TS.ExtractDeviceIdentifierFromToken json_Unmarshal
                   (compact header body signature) w').1 in
       (∀ v, TS.string_claim "device_identifier" fields = Some v → v ≠ "" → r = Ok v)
       ∧ (TS.string_claim "device_identifier" fields = None
          ∨ TS.string_claim "device_identifier" fields = Some "" →
          ∀ id stored,
            TS.string_claim "device_id" fields = Some (uuid_String id) →
            (id < 2 ^ 128)%N → faults w' = [] →
            find (postgres.DeviceRepository.has_id id) (devices w') = Some stored →
            r = Ok (Dev.DeviceIdentifier stored))).
Proof.
  intros Hh Hne (tbody & Htm & Htu) Hf Hid Hfind (pbody & Hpm & Hpu).
  destruct (json_Marshal TS.jwt_header) as [header|] eqn:Hheader; [|done].
  split; [|split].
  3:{ intros header' body signature fields w' Hbody r. subst r.
      rewrite (Extract_claims header' body signature fields w' Hbody). split.
      - intros v -> Hv. by destruct v.
      - intros Hnone id stored Hdev Hlt Hf' Hstored.
        assert (match TS.string_claim "device_identifier" fields with
                | Some (String c v) => false
                | _ => true
                end = true) as Hno by (by destruct Hnone as [-> | ->]).
        destruct (TS.string_claim "device_identifier" fields) as [[|c v]|]; try done.
        all: rewrite Hdev; pose proof (uuid_String_nonempty id) as Hlen;
          destruct (uuid_String id) as [|c' v'] eqn:Hs; [done|];
          rewrite <- Hs, uuid_Parse_String by done;
          unfold mbind, Repo_bind, postgres.DeviceRepository.GetByID;
          rewrite statement_healthy by done; by rewrite Hstored. }
  - destruct (jwt_SignedString_compact (TS.jwtSecret s)
                _ header tbody Hheader Htm) as [sig Hsig].
    exists (compact header tbody sig). unfold TS.GenerateTemporaryToken.
    rewrite Hsig. split; [done|]. intros w'.
    rewrite (Extract_compact header tbody sig _ w' Htu).
    cbn [TS.temporaryClaims TS.DeviceIdentifier].
    destruct (String.length deviceIdentifier =? 0)%nat eqn:E; [|done].
    by apply length_zero_iff in E.
  - destruct (jwt_SignedString_compact (TS.jwtSecret s)
                _ header pbody Hheader Hpm) as [sig Hsig].
    exists (compact header pbody sig). split.
    + unfold TS.GeneratePermanentToken, mbind, Repo_bind,
        postgres.DeviceRepository.GetByID, statement.
      rewrite Hf, Hfind. by rewrite Hsig.
    + intros w' Hcase.
      rewrite (Extract_compact header pbody sig _ w' Hpu).
      cbn [TS.permanentClaims TS.DeviceIdentifier TS.DeviceID
           postgres.DeviceRepository.scan Dev.DeviceIdentifier].
      destruct (String.length (Dev.DeviceIdentifier device) =? 0)%nat eqn:E; [|done].
      apply length_zero_iff in E.
      destruct Hcase as [Hne'|[Hf' Hsame]]; [done|].
      rewrite uuid_String_nonempty, uuid_Parse_String by done.
      unfold mbind, Repo_bind, postgres.DeviceRepository.GetByID, statement.
      rewrite Hf'. destruct (find _ (devices w')) as [row|]; [|done].
      simpl in *. by injection Hsame as ->.
Qed.
End Recovery.

Lemma credential_recovery_witness :
  let s := TS.mk "secret" (24 * Hour) (30 * Minute) in
  let w := store_of_devices [device_row 7 "phone-A" (Some 42%N)] in
  (∃ tokenString,
      TS.GenerateTemporaryToken jsonlib.Marshal concat_digest s 1700000000000000000
        "phone-B"
      = Ok tokenString
      ∧ ∀ w', (TS.ExtractDeviceIdentifierFromToken jsonlib.Unmarshal tokenString w').1
              = Ok "phone-B")
  ∧ (∃ tokenString,
      TS.GeneratePermanentToken jsonlib.Marshal concat_digest s 1700000000000000000
        "42" 7%N w
      = (Ok tokenString, w)
      ∧ ∀ w', "phone-A" ≠ ""
              ∨ (faults w' = []
                 ∧ Dev.DeviceIdentifier
                     <$> find (postgres.DeviceRepository.has_id 7%N) (devices w')
                   = Some "phone-A") →
              (TS.ExtractDeviceIdentifierFromToken jsonlib.Unmarshal tokenString w').1
              = Ok "phone-A").
Proof.
  refine (let H := credential_recovery jsonlib.Marshal jsonlib.Unmarshal concat_digest
           (TS.mk "secret" (24 * Hour) (30 * Minute)) 1700000000000000000
           "phone-B" "42" 7%N (device_row 7 "phone-A" (Some 42%N))
           (store_of_devices [device_row 7 "phone-A" (Some 42%N)]) _ _ _ _ _ _ _
          in conj (proj1 H) (proj1 (proj2 H))).
  - reflexivity.
  - discriminate.
  - eexists. split; vm_compute; reflexivity.
  - reflexivity.
  - vm_compute. reflexivity.
  - reflexivity.
  - eexists. split; vm_compute; reflexivity.
Defined.

(** C7 as stated fails: the authority issues a temporary credential for the
    empty identifier, too; the [omitempty] tag leaves the claim out, and
    recovery finds no identifier in the credential. *)
Lemma credential_without_identifier_counterexample :
  let s := TS.mk "secret" (24 * Hour) (30 * Minute) in
  match TS.GenerateTemporaryToken jsonlib.Marshal concat_digest s 1700000000000000000 ""
  with
  | Ok tokenString =>
      (TS.ExtractDeviceIdentifierFromToken jsonlib.Unmarshal tokenString empty_store).1
      = Err (ErrOther "no device identifier found in token")
      ∧ TS.ExtractDeviceIdentifierFromToken jsonlib.Unmarshal tokenString
          (store_of_devices [device_row 7 "phone-A" (Some 42%N)])
        = (Err (ErrOther "no device identifier found in token"),
           store_of_devices [device_row 7 "phone-A" (Some 42%N)])
  | Err _ => False
  end.
Proof. vm_compute. split; reflexivity. Qed.

(** The reading rule at work on a claims object that holds an empty
    [device_identifier] next to a [device_id]: the store decides. *)
Lemma recovery_with_empty_identifier_claim :
  let w := store_of_devices [device_row 7 "phone-A" (Some 42%N)] in
  match jsonlib.Marshal (JObject [("device_identifier", JString "");
                                  ("device_id", JString (uuid_String 7%N))]) with
  | Ok body =>
      (TS.ExtractDeviceIdentifierFromToken jsonlib.Unmarshal (compact "h" body "s") w).1
      = Ok "phone-A"
  | Err _ => False
  end.
Proof. vm_compute. reflexivity. Qed.

(** The lookup branch at work: a device stored with an empty identifier
    gets a credential whose only handle is the device id; recovery then
    answers what the store holds at that time. *)
Lemma recovery_through_the_store :
  let s := TS.mk "secret" (24 * Hour) (30 * Minute) in
  let w := store_of_devices [device_row 7 "" None] in
  let w' := store_of_devices [device_row 7 "phone-C" None] in
  match (TS.GeneratePermanentToken jsonlib.Marshal concat_digest s 0 "42" 7%N w).1 with
  | Ok tokenString =>
      (TS.ExtractDeviceIdentifierFromToken jsonlib.Unmarshal tokenString w').1
      = Ok "phone-C"
  | Err _ => False
  end.
Proof. vm_compute. reflexivity. Qed.

(** ** Channel tokens (C8) *)

Lemma of_device_and_type_refl deviceID tokenType t :
  NT.DeviceID t = deviceID → NT.TokenType_ t = tokenType →
  postgres.TokenRepository.of_device_and_type deviceID tokenType t = true.
Proof.
  intros <- <-. unfold postgres.TokenRepository.of_device_and_type, uuid_eqb.
  by rewrite N.eqb_refl, String.eqb_refl.
Qed.

(** Saving a token adds a row, whatever the table holds. *)
Lemma SaveToken_adds_a_row w now deviceID tokenValue tokenType :
  faults w = [] →
  ∃ w', TS.SaveToken now deviceID tokenValue tokenType w = (None, w')
        ∧ token_rows deviceID tokenType w' = S (token_rows deviceID tokenType w)
        ∧ valid_tokens now deviceID tokenType w'
          = valid_tokens now deviceID tokenType w ++ [tokenValue].
Proof.
  intros Hf. unfold TS.SaveToken, mbind, Repo_bind, uuid_New,
    postgres.TokenRepository.Create.
  rewrite statement_healthy by done. eexists. split; [done|].
  unfold token_rows, valid_tokens. cbn [tokens with_tokens].
  rewrite !List.filter_app, length_app, map_app. cbn [List.filter].
  rewrite of_device_and_type_refl by done.
  unfold NT.IsValid, entity.NewNotificationToken. cbn [NT.IsActive NT.IsRevoked NT.ExpiresAt
    andb negb].
  destruct (Z.ltb_spec now (now + 30 * 24 * Hour)) as [_|H];
    [|unfold Hour, Minute, Second in H; lia].
  split; [simpl; lia|done].
Qed.

(** C8, the code at the failing input.  The token-update entry point calls
    [SaveToken], which inserts: after two registrations for the same device
    and type both tokens are active, not revoked and not expired. *)
Lemma SaveToken_adds_second_active_token :
  let r := (_ ← TS.SaveToken 5 1%N "tkA" "fcm"; TS.SaveToken 6 1%N "tkB" "fcm")
             empty_store in
  r.1 = None
  ∧ valid_tokens 7 1%N "fcm" r.2 = ["tkA"; "tkB"]
  ∧ token_rows 1%N "fcm" r.2 = 2%nat.
Proof. vm_compute. repeat split. Qed.

Lemma valid_after_update now deviceID tokenValue tokenType l :
  map NT.Token
    (List.filter (λ t, postgres.TokenRepository.of_device_and_type deviceID tokenType t
                       && NT.IsValid now t)
       (postgres.update_where
          (postgres.TokenRepository.of_device_and_type deviceID tokenType)
          (λ t, NT.mk (NT.ID t) (NT.DeviceID t) tokenValue (NT.TokenType_ t)
                      (NT.CreatedAt t) now (now + 30 * 24 * Hour) true false) l))
  = replicate
      (length (List.filter
                 (postgres.TokenRepository.of_device_and_type deviceID tokenType) l))
      tokenValue.
Proof.
  assert (Hlt : (now <? now + 30 * 24 * Hour) = true).
  { apply Z.ltb_lt. unfold Hour, Minute, Second. lia. }
  induction l as [|t l IH]; [done|]. cbn [postgres.update_where map List.filter].
  destruct (postgres.TokenRepository.of_device_and_type deviceID tokenType t) eqn:E.
  - unfold postgres.TokenRepository.of_device_and_type at 1. cbn [NT.DeviceID NT.TokenType_].
    fold (postgres.TokenRepository.of_device_and_type deviceID tokenType t).
    rewrite E. unfold NT.IsValid at 1. cbn [NT.IsActive NT.IsRevoked NT.ExpiresAt].
    rewrite Hlt. cbn [andb negb map length replicate NT.Token]. f_equal. apply IH.
  - rewrite E. cbn [andb]. apply IH.
Qed.

(** The repository's [Upsert], which no entry point calls, keeps the
    invariant: on a table with at most one row of the pair it leaves
    exactly one row, holding the new value. *)
Lemma Upsert_single_token w now deviceID tokenValue tokenType :
  faults w = [] →
  (token_rows deviceID tokenType w ≤ 1)%nat →
  ∃ w', postgres.TokenRepository.Upsert now deviceID tokenValue tokenType w = (None, w')
        ∧ token_rows deviceID tokenType w' = 1%nat
        ∧ valid_tokens now deviceID tokenType w' = [tokenValue].
Proof.
  intros Hf Hle. unfold postgres.TokenRepository.Upsert, mbind, Repo_bind.
  rewrite statement_healthy by done. unfold postgres.rows_affected.
  unfold token_rows in Hle.
  destruct (length (List.filter
                      (postgres.TokenRepository.of_device_and_type deviceID tokenType)
                      (tokens w))) as [|[|k]] eqn:Hlen; [| |lia].
  - change (Z.of_nat 0 =? 0) with true. cbv beta iota.
    unfold uuid_New. rewrite statement_healthy by done.
    eexists. split; [done|]. unfold token_rows, valid_tokens. cbn [tokens with_tokens].
    rewrite !List.filter_app, length_app, map_app.
    rewrite filter_update_where_length by done.
    rewrite valid_after_update, Hlen. cbn [List.filter].
    rewrite of_device_and_type_refl by done.
    unfold NT.IsValid. cbn [NT.IsActive NT.IsRevoked NT.ExpiresAt andb negb].
    destruct (Z.ltb_spec now (now + 30 * 24 * Hour)) as [_|H];
      [|unfold Hour, Minute, Second in H; lia].
    done.
  - change (Z.of_nat 1 =? 0) with false. cbv beta iota. unfold mret, Repo_ret.
    eexists. split; [done|]. unfold token_rows, valid_tokens. cbn [tokens with_tokens].
    rewrite filter_update_where_length by done.
    by rewrite valid_after_update, Hlen.
Qed.

(** ** Device owner (C9) *)

Lemma has_id_eq id d : DeviceRepo.has_id id d = true → Dev.ID d = id.
Proof. unfold DeviceRepo.has_id, uuid_eqb. by intros ?%N.eqb_eq. Qed.

(** A user id below 2^31 is stored as it is; one from 2^31 up to
    2^64 - 2^31 is refused. *)
Lemma bind_user_id_small u :
  (u < 2 ^ 31)%N → DeviceRepo.bind_user_id (Some u) = Ok (Some u).
Proof.
  intros Hu. unfold DeviceRepo.bind_user_id, DeviceRepo.INTEGER_holds, wrap64.
  assert (Hz : 0 ≤ Z.of_N u < 2 ^ 31) by lia.
  rewrite (Z.mod_small (Z.of_N u + 2 ^ 63)) by lia.
  replace (Z.of_N u + 2 ^ 63 - 2 ^ 63) with (Z.of_N u) by lia.
  destruct (Z.leb_spec (- 2 ^ 31) (Z.of_N u)); [|lia].
  destruct (Z.ltb_spec (Z.of_N u) (2 ^ 31)); [|lia]. cbn [andb].
  rewrite Z.mod_small by lia. by rewrite N2Z.id.
Qed.

Lemma bind_user_id_large u :
  (2 ^ 31 ≤ u < 2 ^ 64 - 2 ^ 31)%N →
  DeviceRepo.bind_user_id (Some u) = Err DeviceRepo.outOfRange.
Proof.
  intros Hu. unfold DeviceRepo.bind_user_id, DeviceRepo.INTEGER_holds, wrap64.
  assert (Hz : 2 ^ 31 ≤ Z.of_N u < 2 ^ 64 - 2 ^ 31) by lia.
  destruct (Z.lt_ge_cases (Z.of_N u) (2 ^ 63)) as [Hlt|Hge].
  - rewrite (Z.mod_small (Z.of_N u + 2 ^ 63)) by lia.
    replace (Z.of_N u + 2 ^ 63 - 2 ^ 63) with (Z.of_N u) by lia.
    destruct (Z.ltb_spec (Z.of_N u) (2 ^ 31)); [lia|]. by rewrite andb_false_r.
  - replace (Z.of_N u + 2 ^ 63) with ((Z.of_N u - 2 ^ 63) + 1 * 2 ^ 64) by lia.
    rewrite Z.mod_add by lia. rewrite Z.mod_small by lia.
    destruct (Z.leb_spec (- 2 ^ 31) (Z.of_N u - 2 ^ 63 - 2 ^ 63)); [lia|]. done.
Qed.

Lemma Update_owner now device w row :
  faults w = [] →
  Dev.ID device = Dev.ID row →
  DeviceRepo.bind_user_id (Dev.UserID device) = Ok (Dev.UserID device) →
  find (DeviceRepo.has_id (Dev.ID row)) (devices w) = Some row →
  ∃ w', DeviceRepo.Update now device w = (None, w')
        ∧ owner (Dev.ID row) w' = Some (Dev.UserID device).
Proof.
  intros Hf Hsame Hbind Hfind. unfold DeviceRepo.Update.
  rewrite statement_healthy by done. rewrite Hbind.
  eexists. split; [done|]. unfold owner. cbn [devices with_devices].
  rewrite Hsame, find_update_where by done. by rewrite Hfind.
Qed.

(** C9, as amended.  On a stored device a link sets user_id to the given
    user and so does a registration with a user, whatever the device's
    user_id was, for a user id below 2^31; a registration without a user
    keeps it.  The column is an INTEGER: a link with a user id from 2^31
    on is refused and changes nothing. *)
Theorem link_overwrites_owner w now userID model row :
  faults w = [] →
  find (DeviceRepo.has_id (Dev.ID row)) (devices w) = Some row →
  find (λ d, String.eqb (Dev.DeviceIdentifier d) (Dev.DeviceIdentifier row)) (devices w)
    = Some row →
  (userID < 2 ^ 31)%N →
  stored_user_id row →
  let linked := DevS.LinkDeviceToUser now (Dev.ID row) userID w in
  let registered :=
    DevS.RegisterDeviceWithUser now (Dev.DeviceIdentifier row) userID model w in
  let anonymous := DevS.RegisterDeviceWithoutUser now (Dev.DeviceIdentifier row) model w in
  (linked.1 = None ∧ owner (Dev.ID row) linked.2 = Some (Some userID))
  ∧ (is_ok registered.1 = true ∧ owner (Dev.ID row) registered.2 = Some (Some userID))
  ∧ (is_ok anonymous.1 = true ∧ owner (Dev.ID row) anonymous.2 = Some (Dev.UserID row))
  ∧ (∀ large, (2 ^ 31 ≤ large < 2 ^ 64 - 2 ^ 31)%N →
       DevS.LinkDeviceToUser now (Dev.ID row) large w = (Some ErrFailedToUpdateDevice, w)).
Proof.
  intros Hf Hid Hident Hsmall Hrow linked registered anonymous.
  pose proof (bind_user_id_small userID Hsmall) as Hbind.
  split_and!.
  1,2: subst linked; unfold DevS.LinkDeviceToUser, mbind, Repo_bind, DeviceRepo.GetByID;
    rewrite statement_healthy by done; rewrite Hid;
    destruct (Update_owner now (Dev.LinkToUser now userID (DeviceRepo.scan row)) w row
                Hf eq_refl Hbind Hid) as (w' & -> & Howner); done.
  1,2: subst registered; unfold DevS.RegisterDeviceWithUser, mbind, Repo_bind,
      DeviceRepo.GetByDeviceIdentifier;
    rewrite statement_healthy by done; rewrite Hident;
    destruct model as [mdl|];
    [ destruct (Update_owner now
                  (Dev.with_model (Some mdl)
                     (Dev.LinkToUser now userID
                        (Dev.UpdateLastAccess now (DeviceRepo.scan row)))) w row
                  Hf eq_refl Hbind Hid) as (w' & -> & Howner)
    | destruct (Update_owner now
                  (Dev.LinkToUser now userID
                     (Dev.UpdateLastAccess now (DeviceRepo.scan row))) w row
                  Hf eq_refl Hbind Hid) as (w' & -> & Howner) ]; done.
  1,2: subst anonymous; unfold DevS.RegisterDeviceWithoutUser, mbind, Repo_bind,
      DeviceRepo.GetByDeviceIdentifier;
    rewrite statement_healthy by done; rewrite Hident;
    destruct model as [mdl|];
    [ destruct (Update_owner now
                  (Dev.with_model (Some mdl)
                     (Dev.UpdateLastAccess now (DeviceRepo.scan row))) w row
                  Hf eq_refl Hrow Hid) as (w' & -> & Howner)
    | destruct (Update_owner now
                  (Dev.UpdateLastAccess now (DeviceRepo.scan row)) w row
                  Hf eq_refl Hrow Hid) as (w' & -> & Howner) ]; done.
  intros large Hlarge.
  unfold DevS.LinkDeviceToUser, mbind, Repo_bind, DeviceRepo.GetByID.
  rewrite statement_healthy by done. rewrite Hid.
  unfold DeviceRepo.Update. rewrite statement_healthy by done.
  cbn [Dev.LinkToUser Dev.UserID]. by rewrite (bind_user_id_large large Hlarge).
Qed.

Lemma link_overwrites_owner_witness :
  let w := store_of_devices [device_row 1 "phone-A" (Some 1%N)] in
  owner 1%N (DevS.LinkDeviceToUser 5 1%N 2%N w).2 = Some (Some 2%N)
  ∧ owner 1%N (DevS.RegisterDeviceWithUser 5 "phone-A" 3%N None w).2 = Some (Some 3%N)
  ∧ owner 1%N (DevS.RegisterDeviceWithoutUser 5 "phone-A" None w).2 = Some (Some 1%N)
  ∧ DevS.LinkDeviceToUser 5 1%N 2147483648%N w = (Some ErrFailedToUpdateDevice, w).
Proof.
  pose proof (link_overwrites_owner
                (store_of_devices [device_row 1 "phone-A" (Some 1%N)]) 5 2%N None
                (device_row 1 "phone-A" (Some 1%N)) eq_refl eq_refl eq_refl eq_refl eq_refl)
    as ((_ & H1) & _ & (_ & H3) & H4).
  pose proof (link_overwrites_owner
                (store_of_devices [device_row 1 "phone-A" (Some 1%N)]) 5 3%N None
                (device_row 1 "phone-A" (Some 1%N)) eq_refl eq_refl eq_refl eq_refl eq_refl)
    as (_ & (_ & H2) & _).
  split_and!; [exact H1|exact H2|exact H3|].
  apply (H4 2147483648%N). split; [discriminate|reflexivity].
Defined.

(** C9 as stated fails: a device linked to user 1 is moved to user 2 by a
    link and to user 3 by a registration. *)
Lemma user_id_set_once_counterexample :
  let w := store_of_devices [device_row 1 "phone-A" (Some 1%N)] in
  owner 1%N w = Some (Some 1%N)
  ∧ DevS.LinkDeviceToUser 5 1%N 2%N w
    = (None, store_of_devices
               [Dev.mk 1%N (Some 2%N) None "phone-A" false 0 0 0 5 None "active"])
  ∧ owner 1%N (DevS.RegisterDeviceWithUser 5 "phone-A" 3%N None w).2 = Some (Some 3%N).
Proof. vm_compute. repeat split. Qed.

(** * Theorems about the rest of the code *)

(** ** Consistent hashing *)

Lemma insert_sorted_Permutation x l : distribution.insert_sorted x l ≡ₚ x :: l.
Proof.
  induction l as [|y l IH]; simpl; [done|].
  destruct (x <=? y)%N; [done|]. rewrite IH. apply Permutation_swap.
Qed.

Lemma sort_Slice_Permutation l : distribution.sort_Slice l ≡ₚ l.
Proof.
  induction l as [|x l IH]; simpl; [done|].
  by rewrite insert_sorted_Permutation, IH.
Qed.

Lemma insert_sorted_Sorted x l :
  Sorted N.le l → Sorted N.le (distribution.insert_sorted x l).
Proof.
  induction l as [|y l IH]; simpl; intros Hs.
  - by repeat constructor.
  - destruct (N.leb_spec x y) as [Hxy|Hxy].
    + constructor; [done|]. by constructor.
    + apply Sorted_inv in Hs as [Hs Hhd]. constructor; [by apply IH|].
      destruct l as [|z l]; simpl.
      * constructor. lia.
      * destruct (N.leb_spec x z); constructor; [lia|]. by inversion Hhd.
Qed.

Lemma sort_Slice_Sorted l : Sorted N.le (distribution.sort_Slice l).
Proof.
  induction l as [|x l IH]; simpl; [constructor|]. by apply insert_sorted_Sorted.
Qed.

Lemma StronglySorted_List_filter {A} (R : relation A) (p : A → bool) l :
  StronglySorted R l → StronglySorted R (List.filter p l).
Proof.
  induction 1 as [|x l Hs IH Hall]; simpl; [constructor|].
  destruct (p x); [|done]. constructor; [done|].
  apply Forall_forall. intros y Hy%list_elem_of_In%filter_In.
  rewrite Forall_forall in Hall. apply Hall, list_elem_of_In, Hy.
Qed.

Lemma elem_of_List_filter {A} (p : A → bool) l x :
  x ∈ List.filter p l ↔ x ∈ l ∧ p x = true.
Proof. rewrite !list_elem_of_In. apply filter_In. Qed.

(** What the loop of [Add] leaves. *)
Lemma Add_loop node idxs ch :
  let hashes := map (λ i, distribution.hashFunc ch (node +:+ distribution.strconv_Itoa i)) idxs in
  let ch1 :=
    foldl (λ c i,
             let key := node +:+ distribution.strconv_Itoa i in
             let hash := distribution.hashFunc c key in
             distribution.mkConsistentHash (distribution.replicas c)
               (distribution.ring c ++ [hash])
               (<[hash := node]> (distribution.hashMap c)) (distribution.hashFunc c))
          ch idxs in
  distribution.replicas ch1 = distribution.replicas ch
  ∧ distribution.hashFunc ch1 = distribution.hashFunc ch
  ∧ distribution.ring ch1 = distribution.ring ch ++ hashes
  ∧ distribution.hashMap ch1
    = foldl (λ m h, <[h := node]> m) (distribution.hashMap ch) hashes.
Proof.
  revert ch. induction idxs as [|i idxs IH]; intros ch; simpl.
  - by rewrite app_nil_r.
  - destruct (IH (distribution.mkConsistentHash (distribution.replicas ch)
                    (distribution.ring ch
                     ++ [distribution.hashFunc ch (node +:+ distribution.strconv_Itoa i)])
                    (<[distribution.hashFunc ch (node +:+ distribution.strconv_Itoa i)
                       := node]> (distribution.hashMap ch))
                    (distribution.hashFunc ch))) as (H1 & H2 & H3 & H4).
    simpl in *. rewrite H1, H2, H3, H4. by rewrite <- app_assoc.
Qed.

Lemma lookup_foldl_insert (node : string) hashes (m : gmap N string) h :
  foldl (λ m h, <[h := node]> m) m hashes !! h
  = if bool_decide (h ∈ hashes) then Some node else m !! h.
Proof.
  revert m. induction hashes as [|h' hashes IH]; intros m; simpl; [done|].
  rewrite IH. destruct (decide (h ∈ hashes)) as [Hin|Hin].
  - rewrite !bool_decide_eq_true_2; [done|by right|done].
  - rewrite (bool_decide_eq_false_2 (h ∈ hashes)) by done.
    destruct (decide (h = h')) as [->|Hne].
    + rewrite bool_decide_eq_true_2 by left. apply lookup_insert_eq.
    + rewrite bool_decide_eq_false_2 by (rewrite elem_of_cons; tauto).
      by apply lookup_insert_ne.
Qed.

Lemma lookup_foldl_delete `{Countable K} {A} (hashes : list K) (m : gmap K A) h :
  foldl (λ m h, delete h m) m hashes !! h
  = if bool_decide (h ∈ hashes) then None else m !! h.
Proof.
  revert m. induction hashes as [|h' hashes IH]; intros m; simpl; [done|].
  rewrite IH. destruct (decide (h ∈ hashes)) as [Hin|Hin].
  - rewrite !bool_decide_eq_true_2; [done|by right|done].
  - rewrite (bool_decide_eq_false_2 (h ∈ hashes)) by done.
    destruct (decide (h = h')) as [->|Hne].
    + rewrite bool_decide_eq_true_2 by left. apply lookup_delete_eq.
    + rewrite bool_decide_eq_false_2 by (rewrite elem_of_cons; tauto).
      by apply lookup_delete_ne.
Qed.

Lemma Remove_hashMap node ch h :
  distribution.hashMap (distribution.Remove node ch) !! h
  = if bool_decide
         (h ∈ map (λ i, distribution.hashFunc ch (node +:+ distribution.strconv_Itoa i))
                  (seqZ 0 (distribution.replicas ch)))
    then None else distribution.hashMap ch !! h.
Proof.
  unfold distribution.Remove. cbn [distribution.hashMap].
  rewrite <- lookup_foldl_delete.
  generalize (distribution.hashMap ch).
  induction (seqZ 0 (distribution.replicas ch)) as [|i idxs IH]; intros m; simpl; [done|].
  apply IH.
Qed.

Lemma ring_consistent_Add node ch :
  ring_consistent ch → ring_consistent (distribution.Add node ch).
Proof.
  intros (Hsorted & Hring & Howner). unfold distribution.Add.
  destruct (Add_loop node (seqZ 0 (distribution.replicas ch)) ch)
    as (H1 & H2 & H3 & H4). simpl in H1, H2, H3, H4.
  unfold ring_consistent. cbn [distribution.ring distribution.hashMap
    distribution.replicas distribution.hashFunc].
  rewrite H1, H2, H3, H4. split_and!.
  - apply sort_Slice_Sorted.
  - intros h. rewrite sort_Slice_Permutation, elem_of_app, lookup_foldl_insert, Hring.
    case_bool_decide; [|tauto]. split; [by eauto|by right].
  - intros h v. rewrite lookup_foldl_insert. case_bool_decide as Hin; [|by apply Howner].
    intros [= <-]. apply list_elem_of_In, in_map_iff in Hin as (i & <- & Hi).
    apply list_elem_of_In, elem_of_seqZ in Hi. exists i. split; [lia|done].
Qed.

Lemma ring_consistent_Remove node ch :
  ring_consistent ch → ring_consistent (distribution.Remove node ch).
Proof.
  intros (Hsorted & Hring & Howner). split_and!.
  - unfold distribution.Remove. cbn [distribution.ring].
    apply StronglySorted_Sorted, StronglySorted_List_filter.
    apply Sorted_StronglySorted; [|done]. intros x y z. apply N.le_trans.
  - intros h. pose proof (Remove_hashMap node ch h) as Hm.
    unfold distribution.Remove in *. cbn [distribution.ring distribution.hashMap] in *.
    rewrite elem_of_List_filter, bool_decide_eq_true, Hring, Hm.
    case_bool_decide; [|tauto]. split; [intros [_ []%is_Some_None]|intros []%is_Some_None].
  - intros h v. rewrite Remove_hashMap. case_bool_decide; [done|]. apply Howner.
Qed.

Lemma built_invariant crc32_ChecksumIEEE ch :
  built crc32_ChecksumIEEE ch → ring_consistent ch.
Proof.
  induction 1 as [replicas hashFunc|node ch _ IH|node ch _ IH].
  - split_and!; [constructor| |].
    + intros h. simpl. rewrite lookup_empty, elem_of_nil. split; [done|by intros []%is_Some_None].
    + intros h v. simpl. by rewrite lookup_empty.
  - by apply ring_consistent_Add.
  - by apply ring_consistent_Remove.
Qed.

(** The binary search finds the first index at which a monotone test
    holds, or [n] when it holds nowhere. *)
Lemma sort_Search_loop_spec (f : nat → bool) n turns i j :
  (∀ k k', f k = true → k ≤ k' → k' < n → f k' = true)%nat →
  (i ≤ j ≤ n)%nat → (j - i ≤ turns)%nat →
  (∀ k, k < i → f k = false)%nat →
  (∀ k, j ≤ k < n → f k = true)%nat →
  let r := distribution.sort_Search_loop turns f i j in
  (r ≤ n)%nat ∧ (∀ k, k < r → f k = false)%nat ∧ (∀ k, r ≤ k < n → f k = true)%nat.
Proof.
  intros Hmono. revert i j.
  induction turns as [|turns IH]; intros i j Hij Hturns Hlo Hhi;
    cbn [distribution.sort_Search_loop]; cbv zeta.
  - assert (i = j) as -> by lia. split_and!; [lia|done|done].
  - destruct (Nat.ltb_spec i j) as [Hlt|Hge].
    + pose proof (Nat.Div0.div_le_upper_bound (i + j) 2 j ltac:(lia)) as Hup.
      assert (i ≤ (i + j) / 2)%nat as Hlow by (apply Nat.div_le_lower_bound; lia).
      assert ((i + j) / 2 < j)%nat as Hh by (apply Nat.Div0.div_lt_upper_bound; lia).
      destruct (f ((i + j) / 2)%nat) eqn:Hf; cbn [negb].
      * apply IH; [lia|lia|done|].
        intros k Hk. apply (Hmono ((i + j) / 2)%nat); [done|lia|lia].
      * apply IH; [lia|lia| |done].
        intros k Hk. destruct (f k) eqn:Hfk; [|done].
        rewrite (Hmono k ((i + j) / 2)%nat) in Hf; [done|done|lia|lia].
    + assert (i = j) as -> by lia. split_and!; [lia|done|done].
Qed.

Lemma Sorted_nth_le (l : list N) i j :
  Sorted N.le l → (i ≤ j)%nat → (j < length l)%nat → (nth i l 0 ≤ nth j l 0)%N.
Proof.
  intros Hs%Sorted_StronglySorted; [|intros x y z; apply N.le_trans].
  revert i j. induction Hs as [|x l Hs IH Hall]; intros i j Hij Hj; simpl in *; [lia|].
  destruct i as [|i], j as [|j]; [lia| |lia|apply IH; lia].
  rewrite Forall_forall in Hall. apply Hall, list_elem_of_In, nth_In. lia.
Qed.

(** X1.  On a sorted ring that is not empty, [Get] answers with the owner of
    the first point at or after the key's hash, and with the owner of the
    smallest point when the hash lies after every point. *)
Theorem Get_successor (key : string) (ch : distribution.ConsistentHash) :
  Sorted N.le (distribution.ring ch) → distribution.ring ch ≠ [] →
  ∃ point,
    point ∈ distribution.ring ch
    ∧ distribution.Get key ch = default "" (distribution.hashMap ch !! point)
    ∧ ((distribution.hashFunc ch key ≤ point
        ∧ ∀ q, q ∈ distribution.ring ch → distribution.hashFunc ch key ≤ q → point ≤ q)
       ∨ ((∀ q, q ∈ distribution.ring ch → q < distribution.hashFunc ch key)
          ∧ ∀ q, q ∈ distribution.ring ch → point ≤ q))%N.
Proof.
  intros Hsorted Hne. unfold distribution.Get.
  destruct (distribution.ring ch) as [|p0 ring'] eqn:Hring; [done|].
  rewrite <- Hring in *. clear Hne.
  assert (Hlen : (0 < length (distribution.ring ch))%nat) by (rewrite Hring; simpl; lia).
  destruct (Nat.eqb_spec (length (distribution.ring ch)) 0) as [|_]; [lia|].
  unfold distribution.search, distribution.sort_Search.
  set (hash := distribution.hashFunc ch key).
  set (f := λ i, (hash <=? nth i (distribution.ring ch) 0)%N).
  destruct (sort_Search_loop_spec f (length (distribution.ring ch))
              (length (distribution.ring ch)) 0 (length (distribution.ring ch)))
    as (Hr & Hbefore & Hafter).
  { intros k k' Hk Hkk' Hk'. unfold f in *. apply N.leb_le. apply N.leb_le in Hk.
    etrans; [exact Hk|]. by apply Sorted_nth_le. }
  { lia. } { lia. } { lia. } { lia. }
  set (r := distribution.sort_Search_loop _ f 0 _) in *.
  assert (Hall : ∀ q, q ∈ distribution.ring ch →
                      ∃ k, (k < length (distribution.ring ch))%nat
                           ∧ nth k (distribution.ring ch) 0%N = q).
  { intros q Hq%list_elem_of_In. by apply In_nth. }
  destruct (Nat.eqb_spec r (length (distribution.ring ch))) as [Heq|Hneq].
  - exists (nth 0 (distribution.ring ch) 0%N). split_and!.
    + apply list_elem_of_In, nth_In. lia.
    + done.
    + right. split.
      * intros q (k & Hk & <-)%Hall. specialize (Hbefore k ltac:(lia)).
        unfold f in Hbefore. apply N.leb_gt in Hbefore. done.
      * intros q (k & Hk & <-)%Hall. apply Sorted_nth_le; [done|lia|done].
  - exists (nth r (distribution.ring ch) 0%N). split_and!.
    + apply list_elem_of_In, nth_In. lia.
    + done.
    + left. split.
      * specialize (Hafter r ltac:(lia)). unfold f in Hafter. by apply N.leb_le.
      * intros q (k & Hk & <-)%Hall Hq.
        destruct (Nat.le_gt_cases r k) as [Hrk|Hrk]; [by apply Sorted_nth_le|].
        specialize (Hbefore k Hrk). unfold f in Hbefore. apply N.leb_gt in Hbefore. lia.
Qed.

Lemma Get_successor_witness :
  let ch := distribution.Add "bb" (distribution.Add "a"
              (distribution.NewConsistentHash length_hash 2 None)) in
  distribution.ring ch = [2; 2; 3; 3]%N
  ∧ ∃ point,
      point ∈ distribution.ring ch
      ∧ distribution.Get "key" ch = default "" (distribution.hashMap ch !! point)
      ∧ ((distribution.hashFunc ch "key" ≤ point
          ∧ ∀ q, q ∈ distribution.ring ch → distribution.hashFunc ch "key" ≤ q → point ≤ q)
         ∨ ((∀ q, q ∈ distribution.ring ch → q < distribution.hashFunc ch "key")
            ∧ ∀ q, q ∈ distribution.ring ch → point ≤ q))%N.
Proof.
  split; [reflexivity|].
  apply (Get_successor "key"
           (distribution.Add "bb" (distribution.Add "a"
              (distribution.NewConsistentHash length_hash 2 None)))).
  - vm_compute. repeat constructor; discriminate.
  - discriminate.
Defined.

(** X2.  Once a node is removed from a hash built by [Add] and [Remove], no
    key is answered with it (for a node whose name is not empty; the empty
    name is also the answer of an empty ring). *)
Theorem Get_after_Remove crc32_ChecksumIEEE (key node : string)
    (ch : distribution.ConsistentHash) :
  built crc32_ChecksumIEEE ch → node ≠ "" →
  distribution.Get key (distribution.Remove node ch) ≠ node.
Proof.
  intros Hbuilt Hnode.
  assert (Hnone : ∀ h, distribution.hashMap (distribution.Remove node ch) !! h
                       ≠ Some node).
  { intros h. rewrite Remove_hashMap. case_bool_decide as Hin; [done|].
    intros Hh. apply (built_invariant _ _ Hbuilt) in Hh as (i & Hi & ->).
    apply Hin, list_elem_of_In, in_map_iff. exists i. split; [done|].
    apply list_elem_of_In, elem_of_seqZ. lia. }
  unfold distribution.Get. destruct (_ =? _)%nat; [done|].
  destruct (distribution.hashMap _ !! _) as [v|] eqn:Hv; simpl; [|done].
  intros ->. by apply Hnone in Hv.
Qed.

Lemma Get_after_Remove_witness :
  let ch := distribution.Add "bb" (distribution.Add "a"
              (distribution.NewConsistentHash length_hash 2 None)) in
  distribution.Get "key" ch = "bb"
  ∧ distribution.Get "key" (distribution.Remove "bb" ch) ≠ "bb".
Proof.
  split; [reflexivity|].
  apply (Get_after_Remove length_hash "key" "bb"); [|discriminate].
  apply built_Add, built_Add, built_New.
Defined.

(** *** GetMultiple *)

Lemma GetMultiple_loop_spec ch count turns idx result seen :
  NoDup result → list_to_set result = seen →
  count ≤ Z.of_nat (size (seen ∪ upcoming ch turns idx)) →
  Z.of_nat (length result) ≤ Z.max 0 count →
  ∃ r, distribution.GetMultiple_loop turns ch count idx result seen = Some r
       ∧ NoDup r ∧ Z.of_nat (length r) = Z.max 0 count
       ∧ result `prefix_of` r
       ∧ ∀ node, node ∈ r → node ∈ result ∨ node ∈ upcoming ch turns idx.
Proof.
  revert idx result seen.
  induction turns as [|turns IH]; intros idx result seen Hnd Hseen Hcount Hlen.
  - cbn [distribution.GetMultiple_loop]. cbn [upcoming] in Hcount.
    rewrite (right_id_L ∅ (∪)) in Hcount.
    assert (size seen = length result) as Hsize.
    { rewrite <- Hseen. by apply size_list_to_set. }
    destruct (Z.ltb_spec (Z.of_nat (length result)) count) as [Hlt|Hge]; [lia|].
    exists result. split_and!; [done|done|lia|done|auto].
  - cbn [distribution.GetMultiple_loop].
    destruct (Z.ltb_spec (Z.of_nat (length result)) count) as [Hlt|Hge].
    + fold (owner_at ch idx). cbn [upcoming] in Hcount.
      case_bool_decide as Hin.
      * destruct (IH ((idx + 1) mod length (distribution.ring ch))%nat result seen)
          as (r & Hr & Hndr & Hlenr & Hpre & Hel); [done|done| |done|].
        { replace (seen ∪ upcoming ch turns _)
            with (seen ∪ ({[owner_at ch idx]} ∪ upcoming ch turns
                           ((idx + 1) mod length (distribution.ring ch))%nat));
            [done|set_solver]. }
        exists r. split_and!; [done..|].
        intros node Hnode. destruct (Hel node Hnode); [by left|right].
        cbn [upcoming]. set_solver.
      * destruct (IH ((idx + 1) mod length (distribution.ring ch))%nat
                    (result ++ [owner_at ch idx]) ({[owner_at ch idx]} ∪ seen))
          as (r & Hr & Hndr & Hlenr & Hpre & Hel).
        { apply NoDup_app. split_and!; [done| |apply NoDup_singleton].
          intros x Hx ->%list_elem_of_singleton. apply Hin. rewrite <- Hseen.
          by apply elem_of_list_to_set. }
        { rewrite list_to_set_app_L, Hseen. simpl. set_solver. }
        { replace ({[owner_at ch idx]} ∪ seen ∪ upcoming ch turns _)
            with (seen ∪ ({[owner_at ch idx]} ∪ upcoming ch turns
                           ((idx + 1) mod length (distribution.ring ch))%nat));
            [done|set_solver]. }
        { rewrite length_app. simpl. lia. }
        exists r. split_and!; [done..| |].
        { etrans; [|exact Hpre]. by apply prefix_app_r. }
        intros node Hnode. destruct (Hel node Hnode) as [Hn|Hn].
        -- apply elem_of_app in Hn as [Hn|Hn%list_elem_of_singleton]; [by left|].
           right. cbn [upcoming]. set_solver.
        -- right. cbn [upcoming]. set_solver.
    + exists result. split_and!; [done|done|lia|done|auto].
Qed.

Lemma upcoming_covers ch turns idx k :
  (idx < length (distribution.ring ch))%nat →
  (∃ t, t < turns ∧ (idx + t) mod length (distribution.ring ch) = k)%nat →
  owner_at ch k ∈ upcoming ch turns idx.
Proof.
  revert idx. induction turns as [|turns IH]; intros idx Hidx (t & Ht & Hk); [lia|].
  cbn [upcoming]. destruct t as [|t].
  - rewrite Nat.add_0_r, Nat.mod_small in Hk by done. subst k. set_solver.
  - apply elem_of_union_r, IH; [apply Nat.mod_upper_bound; lia|].
    exists t. split; [lia|]. rewrite Nat.Div0.add_mod_idemp_l. rewrite <- Hk. f_equal. lia.
Qed.

Lemma upcoming_owned ch turns idx node :
  (idx < length (distribution.ring ch))%nat →
  node ∈ upcoming ch turns idx →
  ∃ k, (k < length (distribution.ring ch))%nat ∧ node = owner_at ch k.
Proof.
  revert idx. induction turns as [|turns IH]; intros idx Hidx; cbn [upcoming];
    [set_solver|].
  intros [->%elem_of_singleton|Hin]%elem_of_union; [by eexists|].
  eapply IH; [|exact Hin]. apply Nat.mod_upper_bound. lia.
Qed.

Lemma GetMultiple_loop_prefix ch count turns idx result seen r :
  distribution.GetMultiple_loop turns ch count idx result seen = Some r →
  result `prefix_of` r.
Proof.
  revert idx result seen. induction turns as [|turns IH]; intros idx result seen;
    cbn [distribution.GetMultiple_loop]; destruct (_ <? _); try done.
  - by intros [= ->].
  - case_bool_decide; intros Hr%IH; [done|].
    etrans; [|exact Hr]. by apply prefix_app_r.
  - by intros [= ->].
Qed.

Lemma GetNodes_elem ch node :
  node ∈ distribution.GetNodes ch ↔ ∃ h, distribution.hashMap ch !! h = Some node.
Proof.
  unfold distribution.GetNodes. rewrite elem_of_list_to_set, list_elem_of_In, in_map_iff.
  split.
  - intros ([h v] & <- & Hin%list_elem_of_In%elem_of_map_to_list). by exists h.
  - intros (h & Hh). exists (h, node). split; [done|].
    by apply list_elem_of_In, elem_of_map_to_list.
Qed.

(** X3.  Whatever sequence of [Add] and [Remove] built the hash, its ring is
    sorted, the ring and the map hold the same hashes, and every hash is that
    of a replica of the node it maps to.  So what [Get] answers, on a ring
    that is not empty, is one of the nodes of the hash. *)
Theorem built_ring_consistent crc32_ChecksumIEEE ch :
  built crc32_ChecksumIEEE ch →
  ring_consistent ch
  ∧ ∀ key, distribution.ring ch ≠ [] →
           distribution.Get key ch ∈ distribution.GetNodes ch.
Proof.
  intros Hbuilt. pose proof (built_invariant _ _ Hbuilt) as Hinv. split; [done|].
  destruct Hinv as (Hsorted & Hring & _). intros key Hne.
  assert (Hlen : (0 < length (distribution.ring ch))%nat).
  { destruct (distribution.ring ch); [done|simpl; lia]. }
  unfold distribution.Get.
  destruct (Nat.eqb_spec (length (distribution.ring ch)) 0) as [|_]; [lia|].
  cbv zeta. unfold distribution.search, distribution.sort_Search.
  set (f := λ i, (distribution.hashFunc ch key <=? nth i (distribution.ring ch) 0)%N).
  destruct (sort_Search_loop_spec f (length (distribution.ring ch))
              (length (distribution.ring ch)) 0 (length (distribution.ring ch)))
    as (Hr & _ & _).
  { intros k k' Hk Hkk' Hk'. unfold f in *. apply N.leb_le. apply N.leb_le in Hk.
    etrans; [exact Hk|]. by apply Sorted_nth_le. }
  { lia. } { lia. } { lia. } { lia. }
  set (r := distribution.sort_Search_loop _ f 0 _) in *.
  set (idx := if (r =? length (distribution.ring ch))%nat then 0%nat else r).
  assert (Hidx : (idx < length (distribution.ring ch))%nat).
  { subst idx. destruct (Nat.eqb_spec r (length (distribution.ring ch))); lia. }
  assert (Hpoint : nth idx (distribution.ring ch) 0%N ∈ distribution.ring ch).
  { by apply list_elem_of_In, nth_In. }
  apply Hring in Hpoint as [node Hnode]. rewrite Hnode. cbn [default].
  apply GetNodes_elem. eauto.
Qed.

Lemma built_ring_consistent_witness :
  let ch := distribution.Remove "b"
              (distribution.Add "b"
                 (distribution.Add "node-a"
                    (distribution.NewConsistentHash length_hash 3 None))) in
  ring_consistent ch ∧ distribution.Get "key" ch = "node-a".
Proof.
  intros ch.
  destruct (built_ring_consistent length_hash ch) as [H _].
  - apply built_Remove, built_Add, built_Add, built_New.
  - split; [exact H|reflexivity].
Defined.

(** X4.  On a hash built by [Add] and [Remove], [GetMultiple] comes back
    within one round of the ring.  For a count that is not negative it returns
    [count] nodes, or all of them when there are fewer; they are distinct
    nodes of the hash, and the first is the one [Get] answers.  A negative
    count panics, unless the ring is empty. *)
Theorem GetMultiple_returns crc32_ChecksumIEEE (key : string) (count : Z)
    (ch : distribution.ConsistentHash) :
  built crc32_ChecksumIEEE ch →
  (0 ≤ count →
   ∃ result,
     distribution.GetMultiple (length (distribution.ring ch)) key count ch
     = Some (Returns result)
     ∧ NoDup result
     ∧ Z.of_nat (length result) = Z.min count (Z.of_nat (size (distribution.GetNodes ch)))
     ∧ (∀ node, node ∈ result → node ∈ distribution.GetNodes ch)
     ∧ (distribution.ring ch ≠ [] → 0 < count →
        head result = Some (distribution.Get key ch)))
  ∧ (count < 0 → distribution.ring ch ≠ [] →
     ∃ why, distribution.GetMultiple (length (distribution.ring ch)) key count ch
            = Some (Panics why)).
Proof.
  intros (Hsorted & Hring & Howner)%built_invariant.
  unfold distribution.GetMultiple. split; last first.
  { intros Hneg Hne.
    destruct (Nat.eqb_spec (length (distribution.ring ch)) 0) as [Hempty|_].
    { by apply length_zero_iff_nil in Hempty. }
    set (count' := if count >? _ then _ else count).
    assert (count' < 0) as Hc by (unfold count'; destruct (Z.gtb_spec count (Z.of_nat (size (distribution.GetNodes ch)))); lia).
    destruct (Z.ltb_spec count' 0); [by eexists|lia]. }
  intros Hpos.
  destruct (Nat.eqb_spec (length (distribution.ring ch)) 0) as [Hempty|Hne].
  { exists []. split_and!; [done|constructor| |set_solver|].
    - apply length_zero_iff_nil in Hempty.
      assert (distribution.GetNodes ch = ∅) as ->.
      { apply set_eq. intros node. rewrite GetNodes_elem. split; [|set_solver].
        intros (h & Hh). assert (h ∈ distribution.ring ch) as Hin by (apply Hring; eauto).
        rewrite Hempty in Hin. set_solver. }
      rewrite size_empty. simpl. lia.
    - intros Hr. by apply length_zero_iff_nil in Hempty. }
  set (n := Z.of_nat (size (distribution.GetNodes ch))).
  set (count' := if count >? n then n else count).
  assert (count' = Z.min count n) as Hcount'.
  { unfold count'. destruct (Z.gtb_spec count n); lia. }
  set (idx := distribution.search (distribution.hashFunc ch key) ch).
  assert (Hidx : (idx < length (distribution.ring ch))%nat).
  { unfold idx, distribution.search, distribution.sort_Search.
    set (f := λ i, (_ <=? _)%N).
    destruct (Nat.eqb_spec (distribution.sort_Search_loop (length (distribution.ring ch))
                              f 0 (length (distribution.ring ch)))
                           (length (distribution.ring ch))) as [|Hneq]; [lia|].
    destruct (sort_Search_loop_spec f (length (distribution.ring ch))
                (length (distribution.ring ch)) 0 (length (distribution.ring ch)))
      as (Hr & _); [|lia|lia|lia|lia|lia].
    intros k k' Hk Hkk' Hk'. unfold f in *. apply N.leb_le. apply N.leb_le in Hk.
    etrans; [exact Hk|]. by apply Sorted_nth_le. }
  assert (Hsub : distribution.GetNodes ch
                 ⊆ upcoming ch (length (distribution.ring ch)) idx).
  { intros node (h & Hh)%GetNodes_elem.
    assert (h ∈ distribution.ring ch) as Hin by (apply Hring; eauto).
    apply list_elem_of_In, (In_nth _ _ 0%N) in Hin as (k & Hk & Hnth).
    assert (node = owner_at ch k) as ->.
    { unfold owner_at. by rewrite Hnth, Hh. }
    apply upcoming_covers; [done|].
    exists ((k + length (distribution.ring ch) - idx) mod length (distribution.ring ch))%nat.
    split; [apply Nat.mod_upper_bound; lia|].
    rewrite Nat.Div0.add_mod_idemp_r.
    replace (idx + (k + length (distribution.ring ch) - idx))%nat
      with (k + 1 * length (distribution.ring ch))%nat by lia.
    rewrite Nat.Div0.mod_add. by apply Nat.mod_small. }
  destruct (GetMultiple_loop_spec ch count' (length (distribution.ring ch)) idx [] ∅)
    as (r & Hr & Hnd & Hlen & _ & Hel).
  { constructor. } { done. }
  { rewrite (left_id_L ∅ (∪)). apply subseteq_size in Hsub. lia. }
  { simpl. lia. }
  destruct (Z.ltb_spec count' 0) as [|_]; [lia|].
  exists r. split_and!; [by rewrite Hr|done|lia| |].
  - intros node Hnode. destruct (Hel node Hnode) as [Hn|Hn]; [set_solver|].
    apply upcoming_owned in Hn as (k & Hk & ->); [|done]. apply GetNodes_elem.
    unfold owner_at.
    assert (is_Some (distribution.hashMap ch !! nth k (distribution.ring ch) 0%N))
      as [v Hv] by (by apply Hring, list_elem_of_In, nth_In).
    rewrite Hv. by eexists.
  - intros _ Hcount.
    assert (Hn : 0 < n).
    { assert (is_Some (distribution.hashMap ch !! nth 0 (distribution.ring ch) 0%N))
        as [v Hv] by (apply Hring, list_elem_of_In, nth_In; lia).
      assert (v ∈ distribution.GetNodes ch) as Hin by (apply GetNodes_elem; eauto).
      unfold n. destruct (decide (size (distribution.GetNodes ch) = 0%nat)) as [Hz|]; [|lia].
      apply size_empty_inv in Hz. set_solver. }
    destruct (length (distribution.ring ch)) as [|turns] eqn:HL; [done|].
    cbn [distribution.GetMultiple_loop] in Hr.
    destruct (Z.ltb_spec (Z.of_nat (length (@nil string))) count') as [_|Hge];
      [|simpl in Hge; lia].
    rewrite bool_decide_eq_false_2 in Hr by set_solver.
    apply GetMultiple_loop_prefix in Hr as [tl ->]. simpl.
    unfold distribution.Get. rewrite HL. done.
Qed.

Lemma GetMultiple_returns_witness :
  let ch := distribution.Add "bb" (distribution.Add "a"
              (distribution.NewConsistentHash length_hash 2 None)) in
  distribution.GetMultiple 4 "key" 5 ch = Some (Returns ["bb"; "a"])
  ∧ ∃ result,
      distribution.GetMultiple (length (distribution.ring ch)) "key" 5 ch
      = Some (Returns result)
      ∧ NoDup result
      ∧ Z.of_nat (length result) = Z.min 5 (Z.of_nat (size (distribution.GetNodes ch)))
      ∧ (∀ node, node ∈ result → node ∈ distribution.GetNodes ch)
      ∧ (distribution.ring ch ≠ [] → 0 < 5 →
         head result = Some (distribution.Get "key" ch)).
Proof.
  split; [vm_compute; reflexivity|].
  apply (GetMultiple_returns length_hash "key" 5); [|lia].
  apply built_Add, built_Add, built_New.
Defined.

(** ** The in-memory cache *)

(** X5.  What is stored under a key is read back until it expires, and for
    ever when the expiry in force (the given one, or the default when 0 is
    given) is not positive; the other keys are not affected.  (The clock is
    past 1970 and the expiry time fits 64 bits.) *)
Theorem cache_Set_Get {V} (now now' : Time) (key key' : string) (value : V)
    (expiration : Duration) (c : cache.Cache V) :
  0 < now →
  let expiry := if expiration =? 0 then cache.defaultExpiration c else expiration in
  now + expiry < 2 ^ 63 →
  let c' := cache.SetWithExpiration now key value expiration c in
  cache.Get now' key c'
  = (if (0 <? expiry) && (now + expiry <? now') then None else Some value)
  ∧ (key' ≠ key → cache.Get now' key' c' = cache.Get now' key' c).
Proof.
  intros Hnow expiry Hfit c'. subst c'. unfold cache.Get, cache.SetWithExpiration.
  cbn [cache.items]. fold expiry. split.
  - rewrite lookup_insert_eq. cbn [cache.Expiration cache.Value].
    destruct (Z.gtb_spec expiry 0) as [Hpos|Hnp].
    + rewrite wrap64_small by lia.
      destruct (Z.ltb_spec 0 expiry); [|lia].
      destruct (Z.gtb_spec (now + expiry) 0); [|lia]. cbn [andb].
      by destruct (Z.gtb_spec now' (now + expiry)), (Z.ltb_spec (now + expiry) now');
        try lia.
    + destruct (Z.ltb_spec 0 expiry); [lia|]. done.
  - intros Hne. by rewrite lookup_insert_ne.
Qed.

Lemma cache_Set_Get_witness :
  let c := cache.NewCache (5 * Minute) 0 in
  cache.Get (1000 + 5 * Minute) "k" (cache.Set_ 1000 "k" 7%nat c) = Some 7%nat
  ∧ cache.Get (1001 + 5 * Minute) "k" (cache.Set_ 1000 "k" 7%nat c) = None.
Proof.
  pose proof (cache_Set_Get 1000 (1000 + 5 * Minute) "k" "k" 7%nat (5 * Minute)
                (cache.NewCache (5 * Minute) 0) ltac:(lia) ltac:(vm_compute; reflexivity))
    as [H1 _].
  pose proof (cache_Set_Get 1000 (1001 + 5 * Minute) "k" "k" 7%nat (5 * Minute)
                (cache.NewCache (5 * Minute) 0) ltac:(lia) ltac:(vm_compute; reflexivity))
    as [H2 _].
  split; [exact H1|exact H2].
Defined.

Lemma deleteExpired_items {V} (now : Time) (c : cache.Cache V) key :
  cache.items (cache.deleteExpired now c) !! key
  = match cache.items c !! key with
    | Some item =>
        if (cache.Expiration item >? 0) && (now >? cache.Expiration item) then None
        else Some item
    | None => None
    end.
Proof.
  unfold cache.deleteExpired. cbn [cache.items].
  set (expired := λ item : cache.ItemCache V,
                    (cache.Expiration item >? 0) && (now >? cache.Expiration item)).
  set (m0 := cache.items c).
  enough (Hgen : ∀ m : gmap string (cache.ItemCache V),
            (λ r m, ∀ key, r !! key = match m !! key with
                                      | Some item => if expired item then None
                                                     else m0 !! key
                                      | None => m0 !! key
                                      end)
              (map_fold (λ key item m, if expired item then delete key m else m) m0 m)
              m).
  { etrans; [exact (Hgen m0 key)|]. fold m0.
    destruct (m0 !! key) as [item|] eqn:E; [|done].
    unfold expired. by destruct (_ && _). }
  apply (map_fold_weak_ind
           (λ r m, ∀ key, r !! key = match m !! key with
                                     | Some item => if expired item then None
                                                    else m0 !! key
                                     | None => m0 !! key
                                     end)).
  - intros k. by rewrite lookup_empty.
  - intros i x m r Hi IH k. destruct (decide (k = i)) as [->|Hne].
    + rewrite lookup_insert_eq. destruct (expired x).
      * apply lookup_delete_eq.
      * by rewrite IH, Hi.
    + rewrite lookup_insert_ne by done. rewrite <- IH.
      destruct (expired x); [by apply lookup_delete_ne|done].
Qed.

(** X6.  The sweep removes exactly the entries that have expired, and no read
    at that time or later can tell that it ran. *)
Theorem deleteExpired_invisible {V} (now now' : Time) (key : string)
    (c : cache.Cache V) :
  now ≤ now' →
  cache.items (cache.deleteExpired now c) !! key
  = match cache.items c !! key with
    | Some item =>
        if (cache.Expiration item >? 0) && (now >? cache.Expiration item) then None
        else Some item
    | None => None
    end
  ∧ cache.Get now' key (cache.deleteExpired now c) = cache.Get now' key c.
Proof.
  intros Hle. split; [apply deleteExpired_items|].
  unfold cache.Get. rewrite deleteExpired_items.
  destruct (cache.items c !! key) as [item|]; [|done].
  destruct (cache.Expiration item >? 0) eqn:Hpos; simpl; rewrite ?Hpos; simpl; [|done].
  destruct (Z.gtb_spec now (cache.Expiration item)); simpl; rewrite ?Hpos; simpl;
    [|done].
  destruct (Z.gtb_spec now' (cache.Expiration item)); [done|lia].
Qed.

Lemma deleteExpired_invisible_witness :
  let c := cache.Set_ 2000 "fresh" 2%nat
             (cache.Set_ 1000 "old" 1%nat (cache.NewCache 500 0)) in
  map fst (map_to_list (cache.items (cache.deleteExpired 2000 c))) = ["fresh"]
  ∧ cache.Get 2100 "old" (cache.deleteExpired 2000 c) = cache.Get 2100 "old" c.
Proof.
  split; [vm_compute; reflexivity|].
  apply (deleteExpired_invisible 2000 2100 "old"). lia.
Defined.

(** ** The in-memory event store *)

(** X7.  A store that holds at most [maxLen] events, for a [maxLen] of at
    least one, takes a new event without a panic and still holds at most
    [maxLen]: when it was full the oldest event is dropped, and the new event
    is the last one. *)
Theorem Store_bounded (event : events.Event) (s : events.InMemoryEventStorage) :
  1 ≤ events.maxLen s →
  Z.of_nat (length (events.events s)) ≤ events.maxLen s →
  ∃ s', events.Store event s = Returns s'
        ∧ events.maxLen s' = events.maxLen s
        ∧ Z.of_nat (length (events.events s')) ≤ events.maxLen s
        ∧ events.events s'
          = (if Z.of_nat (length (events.events s)) <? events.maxLen s
             then events.events s else tail (events.events s)) ++ [event].
Proof.
  intros Hmax Hlen. unfold events.Store.
  destruct (Z.geb_spec (Z.of_nat (length (events.events s))) (events.maxLen s))
    as [Hfull|Hroom].
  - destruct (events.events s) as [|e rest] eqn:Hev; [simpl in *; lia|].
    eexists. split_and!; [done|done| |].
    + cbn [events.events]. rewrite length_app. simpl in *. lia.
    + cbn [events.events]. destruct (Z.ltb_spec (Z.of_nat (length (e :: rest)))
                                       (events.maxLen s)); [lia|done].
  - eexists. split_and!; [done|done| |].
    + cbn [events.events]. rewrite length_app. simpl. lia.
    + cbn [events.events]. destruct (Z.ltb_spec (Z.of_nat (length (events.events s)))
                                       (events.maxLen s)); [done|lia].
Qed.

Lemma Store_bounded_witness :
  let e k := events.mkEvent k "notification.sent" 0 None in
  let s := events.mkInMemoryEventStorage [e "1"; e "2"] 2 in
  ∃ s', events.Store (e "3") s = Returns s'
        ∧ events.maxLen s' = 2
        ∧ Z.of_nat (length (events.events s')) ≤ 2
        ∧ events.events s' = [e "2"; e "3"].
Proof.
  apply (Store_bounded (events.mkEvent "3" "notification.sent" 0 None)
           (events.mkInMemoryEventStorage
              [events.mkEvent "1" "notification.sent" 0 None;
               events.mkEvent "2" "notification.sent" 0 None] 2)); simpl; lia.
Defined.

(** A store made for no event at all panics on the first one. *)
Lemma Store_without_room event :
  events.NewInMemoryEventStorage 0 = Returns (events.mkInMemoryEventStorage [] 0)
  ∧ events.Store event (events.mkInMemoryEventStorage [] 0)
    = Panics "slice bounds out of range [1:0]".
Proof. done. Qed.

Lemma scan_spec keep limit offset l result count :
  1 ≤ limit → 0 ≤ count → Z.of_nat (length result) < limit →
  Z.of_nat (length result) = Z.max 0 (count - Z.max 0 offset) →
  events.scan keep limit offset l result count
  = result ++ take (Z.to_nat limit - length result)
                   (drop (Z.to_nat (Z.max 0 offset - count)) (List.filter keep l)).
Proof.
  intros Hlimit. revert result count.
  induction l as [|e l IH]; intros result count Hcount Hlen Hres; simpl.
  - by rewrite drop_nil, take_nil, app_nil_r.
  - destruct (keep e); [|by apply IH].
    destruct (Z.geb_spec count offset) as [Hge|Hlt].
    + replace (Z.to_nat (Z.max 0 offset - count)) with 0%nat by lia. simpl.
      destruct (Z.to_nat limit - length result)%nat as [|k] eqn:Hk; [lia|]. simpl.
      destruct (Z.geb_spec (Z.of_nat (length (result ++ [e]))) limit) as [Hfull|Hroom].
      * rewrite length_app in Hfull. simpl in Hfull.
        assert (k = 0%nat) as -> by lia. by rewrite take_0.
      * rewrite length_app in Hroom. simpl in Hroom.
        rewrite IH; [|lia|rewrite length_app; simpl; lia|rewrite length_app; simpl; lia].
        rewrite <- app_assoc. simpl. do 3 f_equal.
        -- rewrite length_app. simpl. lia.
        -- replace (Z.to_nat (Z.max 0 offset - (count + 1))) with 0%nat by lia. done.
    + destruct (Z.geb_spec (Z.of_nat (length result)) limit) as [Hfull|Hroom]; [lia|].
      rewrite IH by lia.
      replace (Z.to_nat (Z.max 0 offset - count))
        with (S (Z.to_nat (Z.max 0 offset - (count + 1)))) by lia.
      done.
Qed.

(** X8.  For a limit of at least one, the two queries return the events that
    pass their test (the type; the time range, ends included) from the newest
    to the oldest, without the first [offset] of them and cut after [limit]; a
    negative offset counts as 0. *)
Theorem event_queries_page (limit offset : Z) (s : events.InMemoryEventStorage) :
  1 ≤ limit →
  (∀ eventType,
     events.GetByType eventType limit offset s
     = take (Z.to_nat limit)
         (drop (Z.to_nat offset)
            (List.filter (λ event, String.eqb (events.Type_ event) eventType)
               (rev (events.events s)))))
  ∧ (∀ start end_,
       events.GetByTimeRange start end_ limit offset s
       = take (Z.to_nat limit)
           (drop (Z.to_nat offset)
              (List.filter (λ event, (start <=? events.Timestamp event)
                                     && (events.Timestamp event <=? end_))
                 (rev (events.events s))))).
Proof.
  intros Hlimit. split; intros; unfold events.GetByType, events.GetByTimeRange;
    rewrite scan_spec by (simpl; lia); simpl;
    rewrite Nat.sub_0_r; do 2 f_equal; lia.
Qed.

Lemma event_queries_page_witness :
  let e k ty ts := events.mkEvent k ty ts None in
  let s := events.mkInMemoryEventStorage
             [e "1" "a" 10; e "2" "b" 20; e "3" "a" 30; e "4" "a" 40] 10 in
  events.GetByType "a" 1 1 s = [e "3" "a" 30]
  ∧ events.GetByTimeRange 20 30 5 0 s = [e "3" "a" 30; e "2" "b" 20].
Proof.
  intros e s. subst s.
  destruct (event_queries_page 1 1
              (events.mkInMemoryEventStorage
                 [e "1" "a" 10; e "2" "b" 20; e "3" "a" 30; e "4" "a" 40] 10)
              ltac:(lia)) as [H1 _].
  destruct (event_queries_page 5 0
              (events.mkInMemoryEventStorage
                 [e "1" "a" 10; e "2" "b" 20; e "3" "a" 30; e "4" "a" 40] 10)
              ltac:(lia)) as [_ H2].
  split; [rewrite H1|rewrite H2]; reflexivity.
Defined.

Lemma scan_without_limit keep limit offset l :
  limit ≤ 0 →
  events.scan keep limit offset l [] 0
  = if offset <=? 0 then take 1 (List.filter keep l) else [].
Proof.
  intros Hlimit. induction l as [|e l IH]; cbn [events.scan List.filter].
  - by destruct (offset <=? 0).
  - destruct (keep e); [|exact IH].
    destruct (Z.geb_spec 0 offset) as [Ho|Ho].
    + destruct (Z.leb_spec offset 0) as [_|?]; [|lia]. cbn [app length].
      destruct (Z.geb_spec (Z.of_nat 1) limit) as [_|?]; [done|lia].
    + destruct (Z.leb_spec offset 0) as [?|_]; [lia|]. cbn [length].
      destruct (Z.geb_spec (Z.of_nat 0) limit) as [_|?]; [done|lia].
Qed.

(** X9.  A limit of 0, or a negative one, does not give an empty page: the
    loop tests the limit only after it has taken an event, so both queries
    return the newest event that passes their test, when the offset is 0 or
    negative, and nothing for a positive offset. *)
Theorem event_queries_without_limit (limit offset : Z) (s : events.InMemoryEventStorage) :
  limit ≤ 0 →
  (∀ eventType,
     events.GetByType eventType limit offset s
     = if offset <=? 0
       then take 1 (List.filter (λ event, String.eqb (events.Type_ event) eventType)
                      (rev (events.events s)))
       else [])
  ∧ (∀ start end_,
       events.GetByTimeRange start end_ limit offset s
       = if offset <=? 0
         then take 1 (List.filter (λ event, (start <=? events.Timestamp event)
                                            && (events.Timestamp event <=? end_))
                        (rev (events.events s)))
         else []).
Proof.
  intros Hlimit. split; intros; by apply scan_without_limit.
Qed.

Lemma event_queries_without_limit_witness :
  let e k ty ts := events.mkEvent k ty ts None in
  let s := events.mkInMemoryEventStorage [e "1" "a" 10; e "2" "b" 20; e "3" "a" 30] 10 in
  events.GetByType "a" 0 0 s = [e "3" "a" 30]
  ∧ events.GetByTimeRange 0 25 0 0 s = [e "2" "b" 20].
Proof.
  intros e s.
  destruct (event_queries_without_limit 0 0 s ltac:(lia)) as [H1 H2].
  split; [rewrite H1|rewrite H2]; reflexivity.
Defined.

(** ** The dead-letter queue *)

Lemma scan_oldest_least now visit :
  visit ≠ [] → (∀ entry, entry ∈ visit → entry.1 ≠ "") →
  dlq.scan_oldest now visit ∈ visit
  ∧ ∀ entry, entry ∈ visit → (dlq.scan_oldest now visit).2 ≤ entry.2.
Proof.
  unfold dlq.scan_oldest. generalize (if (length visit =? 0)%nat then now else dlq.zeroTime).
  intros t0 Hne Hids.
  set (step := λ (oldest entry : string * Time),
         if String.eqb oldest.1 "" || (entry.2 <? oldest.2) then entry else oldest).
  assert (Hgen : ∀ l acc, acc.1 ≠ "" → (∀ entry, entry ∈ l → entry.1 ≠ "") →
            (foldl step acc l = acc ∨ foldl step acc l ∈ l)
            ∧ (foldl step acc l).2 ≤ acc.2
            ∧ (∀ entry, entry ∈ l → (foldl step acc l).2 ≤ entry.2)).
  { induction l as [|e l IH]; intros acc Hacc Hl; simpl.
    - split_and!; [by left|lia|set_solver].
    - assert (step acc e = (if e.2 <? acc.2 then e else acc)) as ->.
      { unfold step. by destruct (String.eqb_spec acc.1 ""). }
      assert (He : e.1 ≠ "") by (apply Hl; left).
      assert (Hl' : ∀ entry, entry ∈ l → entry.1 ≠ "") by (intros; apply Hl; by right).
      destruct (Z.ltb_spec e.2 acc.2) as [Hlt|Hge].
      + destruct (IH e He Hl') as (Hin & Hle & Hall). split_and!.
        * right. destruct Hin as [->|Hin]; [left|by right].
        * apply Z.lt_le_incl in Hlt. exact (Z.le_trans _ _ _ Hle Hlt).
        * intros entry [->|Hentry]%elem_of_cons; [done|by apply Hall].
      + destruct (IH acc Hacc Hl') as (Hin & Hle & Hall). split_and!.
        * destruct Hin as [->|Hin]; [by left|right; by right].
        * done.
        * intros entry [->|Hentry]%elem_of_cons; [|by apply Hall].
          exact (Z.le_trans _ _ _ Hle Hge). }
  destruct visit as [|e0 l]; [done|].
  change (foldl step e0 l ∈ e0 :: l
          ∧ ∀ entry, entry ∈ e0 :: l → (foldl step e0 l).2 ≤ entry.2).
  destruct (Hgen l e0) as (Hin & Hle & Hall).
  { apply Hids. left. } { intros entry Hentry. apply Hids. by right. }
  split.
  - destruct Hin as [->|Hin]; [left|by right].
  - intros entry [->|Hentry]%elem_of_cons; [done|by apply Hall].
Qed.

(** X10.  A queue with a capacity stays within it, whatever order the scan for
    the oldest entry visits the map in: when the queue is full, an entry with
    the least entry time makes room.  The new task is stored under its id,
    with the time of the call. *)
Theorem AddTask_within_capacity {T} `{queue.RetryableTask T} (now : Time)
    (visit : list (string * Time)) (task : T) (q : queue.DeadLetterQueue T) :
  dlq_consistent q →
  visit ≡ₚ map_to_list (queue.entryTimes q) →
  queue.GetID task ≠ "" →
  0 < queue.maxCapacity q →
  Z.of_nat (size (queue.dlq_tasks q)) ≤ queue.maxCapacity q →
  let q' := dlq.AddTask now visit task q in
  dlq_consistent q'
  ∧ Z.of_nat (size (queue.dlq_tasks q')) ≤ queue.maxCapacity q
  ∧ queue.DLQ_GetTask (queue.GetID task) q' = Some task
  ∧ queue.entryTimes q' !! queue.GetID task = Some now
  ∧ ∀ taskID, queue.DLQ_GetTask taskID q' = None →
              is_Some (queue.DLQ_GetTask taskID q) →
              ∀ other (t t' : Time), queue.entryTimes q !! taskID = Some t →
                            queue.entryTimes q !! other = Some t' → t ≤ t'.
Proof.
  intros (Hsync & Hids & Hempty) Hvisit Hid Hcap Hsize q'.
  assert (Hvisit_in : ∀ k t, (k, t) ∈ visit ↔ queue.entryTimes q !! k = Some t).
  { intros k t. rewrite Hvisit. apply elem_of_map_to_list. }
  assert (Hvisit_ids : ∀ entry, entry ∈ visit → entry.1 ≠ "").
  { intros [k t] Hin%Hvisit_in. simpl. intros ->.
    assert (is_Some (queue.dlq_tasks q !! "")) as [? Hs] by (apply Hsync; eauto).
    congruence. }
  subst q'. unfold dlq.AddTask.
  destruct (Z.gtb_spec (queue.maxCapacity q) 0) as [_|]; [|lia]. cbn [andb].
  destruct (Z.geb_spec (Z.of_nat (size (queue.dlq_tasks q))) (queue.maxCapacity q))
    as [Hfull|Hroom].
  - assert (visit ≠ []) as Hne.
    { intros ->. symmetry in Hvisit. apply Permutation_nil_r in Hvisit.
      apply map_to_list_empty_iff in Hvisit.
      assert (queue.dlq_tasks q = ∅) as Hz.
      { apply map_eq. intros k. rewrite lookup_empty. apply eq_None_not_Some.
        rewrite Hsync, Hvisit, lookup_empty. by intros []%is_Some_None. }
      rewrite Hz, map_size_empty in Hfull. lia. }
    destruct (scan_oldest_least now visit Hne Hvisit_ids) as (Hin & Hleast).
    destruct (dlq.scan_oldest now visit) as [oldestID oldestTime] eqn:Hscan.
    simpl in Hleast. cbn [fst].
    pose proof (Hvisit_ids _ Hin) as Hold. simpl in Hold.
    destruct (String.eqb_spec oldestID "") as [|_]; [done|]. cbn [negb].
    apply Hvisit_in in Hin.
    assert (is_Some (queue.dlq_tasks q !! oldestID)) as [told Htold]
      by (apply Hsync; eauto).
    cbn [queue.dlq_tasks queue.maxCapacity queue.retention queue.entryTimes].
    split_and!.
    + split_and!; cbn [queue.dlq_tasks queue.entryTimes].
      * intros k. destruct (decide (k = queue.GetID task)) as [->|Hk].
        { rewrite !lookup_insert_eq. split; eauto. }
        rewrite !lookup_insert_ne by done.
        destruct (decide (k = oldestID)) as [->|Hk'].
        { rewrite !lookup_delete_eq. split; by intros []%is_Some_None. }
        rewrite !lookup_delete_ne by done. apply Hsync.
      * intros k t. destruct (decide (k = queue.GetID task)) as [->|Hk].
        { rewrite lookup_insert_eq. by intros [= <-]. }
        rewrite lookup_insert_ne by done. intros Hk'%lookup_delete_Some. apply Hids, Hk'.
      * rewrite lookup_insert_ne by done. apply lookup_delete_None. by right.
    + pose proof (map_size_delete_Some oldestID (queue.dlq_tasks q) (mk_is_Some _ _ Htold))
        as Hdel.
      assert (0 < size (queue.dlq_tasks q))%nat.
      { destruct (decide (size (queue.dlq_tasks q) = 0%nat)) as [Hz|]; [|lia].
        apply map_size_empty_iff in Hz. rewrite Hz, lookup_empty in Htold. done. }
      destruct (delete oldestID (queue.dlq_tasks q) !! queue.GetID task) as [x|] eqn:Hx.
      * rewrite map_size_insert_Some by (by rewrite Hx). lia.
      * rewrite map_size_insert_None by done. lia.
    + unfold queue.DLQ_GetTask. cbn [queue.dlq_tasks]. apply lookup_insert_eq.
    + apply lookup_insert_eq.
    + unfold queue.DLQ_GetTask. cbn [queue.dlq_tasks].
      intros k Hnone Hsome other t t' Ht Ht'. unfold queue.DLQ_GetTask in Hsome.
      destruct (decide (k = queue.GetID task)) as [->|Hk].
      { by rewrite lookup_insert_eq in Hnone. }
      rewrite lookup_insert_ne in Hnone by done.
      apply lookup_delete_None in Hnone as [<-|Hnone]; last first.
      { rewrite Hnone in Hsome. by destruct Hsome. }
      assert (Some t = Some oldestTime) as [= ->]
        by (etrans; [symmetry; exact Ht|exact Hin]).
      apply (Hleast (other, t')). by apply Hvisit_in.
  - cbn [queue.dlq_tasks queue.maxCapacity queue.retention queue.entryTimes].
    split_and!.
    + split_and!; cbn [queue.dlq_tasks queue.entryTimes].
      * intros k. destruct (decide (k = queue.GetID task)) as [->|Hk].
        { rewrite !lookup_insert_eq. split; eauto. }
        rewrite !lookup_insert_ne by done. apply Hsync.
      * intros k t. destruct (decide (k = queue.GetID task)) as [->|Hk].
        { rewrite lookup_insert_eq. by intros [= <-]. }
        rewrite lookup_insert_ne by done. apply Hids.
      * by rewrite lookup_insert_ne.
    + destruct (queue.dlq_tasks q !! queue.GetID task) as [x|] eqn:Hx.
      * rewrite map_size_insert_Some by (by rewrite Hx). lia.
      * rewrite map_size_insert_None by done. lia.
    + unfold queue.DLQ_GetTask. cbn [queue.dlq_tasks]. apply lookup_insert_eq.
    + apply lookup_insert_eq.
    + unfold queue.DLQ_GetTask. cbn [queue.dlq_tasks].
      intros k Hnone Hsome. unfold queue.DLQ_GetTask in Hsome.
      destruct (decide (k = queue.GetID task)) as [->|Hk].
      { by rewrite lookup_insert_eq in Hnone. }
      rewrite lookup_insert_ne in Hnone by done. rewrite Hnone in Hsome.
      by destruct Hsome.
Qed.

Lemma AddTask_within_capacity_witness :
  let old := queue.mkDeliveryTask (row 1 10 20 "failed")
               (entity.Notification.mk 10%N "42" "Hi" "there" "" "normal" "" 0 0 None) 0 in
  let q := dlq.AddTask 5 [] old (queue.NewDeadLetterQueue 1 0) in
  let q' := dlq.AddTask 7 [] (task_of (row 2 10 21 "failed")) (queue.NewDeadLetterQueue 1 0) in
  map fst (map_to_list (queue.dlq_tasks
                          (dlq.AddTask 9 (map_to_list (queue.entryTimes q))
                             (task_of (row 2 10 21 "failed")) q)))
  = ["delivery_00000000-0000-0000-0000-000000000002"]
  ∧ dlq_consistent q'
  ∧ Z.of_nat (size (queue.dlq_tasks q')) ≤ 1.
Proof.
  split; [vm_compute; reflexivity|].
  destruct (AddTask_within_capacity 7 [] (task_of (row 2 10 21 "failed"))
              (queue.NewDeadLetterQueue 1 0)) as (H1 & H2 & _).
  - split_and!; [|done|done]. intros k. simpl. by rewrite !lookup_empty.
  - simpl. by rewrite map_to_list_empty.
  - discriminate.
  - reflexivity.
  - simpl. rewrite map_size_empty. lia.
  - split; [exact H1|exact H2].
Defined.

(** An empty id defeats the bound: the scan takes an empty id for "none
    found yet", so nothing is evicted and the queue grows past its
    capacity. *)
Lemma AddTask_empty_id_overflows :
  let q := dlq.AddTask 5 [] (mkScriptedTask "" false) (queue.NewDeadLetterQueue 1 0) in
  let q' := dlq.AddTask 7 (map_to_list (queue.entryTimes q)) (mkScriptedTask "a" false) q in
  size (queue.dlq_tasks q) = 1%nat ∧ size (queue.dlq_tasks q') = 2%nat.
Proof. vm_compute. done. Qed.

(** *** Retrying from the queue *)

Lemma RetryTask_found {T} `{queue.RetryableTask T} now taskID task
    (q : queue.DeadLetterQueue T) w :
  queue.dlq_tasks q !! taskID = Some task →
  dlq.RetryTask now taskID q w
  = match (queue.Execute now task w).1 with
    | Some e => ((q, Some (ErrWrap ("failed to execute task " +:+ taskID) e)),
                 (queue.Execute now task w).2)
    | None => ((queue.DLQ_RemoveTask taskID q, None),
               (queue.OnSuccess now task (queue.Execute now task w).2).2)
    end.
Proof.
  intros Hq. unfold dlq.RetryTask. rewrite Hq. unfold mbind, Repo_bind.
  destruct (queue.Execute now task w) as [[e|] w1]; [done|]. simpl.
  by destruct (queue.OnSuccess now task w1).
Qed.

Lemma forEach_cons {A S} (body : S → A → Repo S) st x l w :
  usecase.forEach body st (x :: l) w
  = usecase.forEach body (body st x w).1 l (body st x w).2.
Proof.
  cbn [usecase.forEach]. unfold mbind, Repo_bind. by destruct (body st x w).
Qed.

Lemma retry_each_found {T} `{queue.RetryableTask T} now task
    (q : queue.DeadLetterQueue T) s f w :
  queue.dlq_tasks q !! queue.GetID task = Some task →
  dlq.retry_each now (q, (s, f)) task w
  = match (queue.Execute now task w).1 with
    | Some e => ((q, (s, f + 1)), (queue.Execute now task w).2)
    | None => ((queue.DLQ_RemoveTask (queue.GetID task) q, (s + 1, f)),
               (queue.OnSuccess now task (queue.Execute now task w).2).2)
    end.
Proof.
  intros Hq. unfold dlq.retry_each, mbind, Repo_bind. cbn [fst snd].
  rewrite (RetryTask_found now _ task q w Hq).
  by destruct (queue.Execute now task w) as [[e|] w1].
Qed.

Lemma forEach_app {A S} (body : S → A → Repo S) st l1 l2 w :
  usecase.forEach body st (l1 ++ l2) w
  = usecase.forEach body (usecase.forEach body st l1 w).1 l2
      (usecase.forEach body st l1 w).2.
Proof.
  revert st w. induction l1 as [|x l1 IH]; intros st w; [done|].
  change ((x :: l1) ++ l2) with (x :: (l1 ++ l2)). by rewrite !forEach_cons, IH.
Qed.

Lemma RetryAllTasks_loop {T} `{queue.RetryableTask T} now (visit : list T) :
  ∀ (q : queue.DeadLetterQueue T) (s f : Z) w,
    NoDup (map queue.GetID visit) →
    (∀ task, task ∈ visit → queue.dlq_tasks q !! queue.GetID task = Some task) →
    let r := usecase.forEach (dlq.retry_each now) (q, (s, f)) visit w in
    s ≤ r.1.2.1 ∧ f ≤ r.1.2.2
    ∧ r.1.2.1 + r.1.2.2 = s + f + Z.of_nat (length visit)
    ∧ Z.of_nat (size (queue.dlq_tasks r.1.1)) + (r.1.2.1 - s)
      = Z.of_nat (size (queue.dlq_tasks q))
    ∧ queue.dlq_tasks r.1.1 ⊆ queue.dlq_tasks q
    ∧ (∀ k, k ∉ map queue.GetID visit →
            queue.dlq_tasks r.1.1 !! k = queue.dlq_tasks q !! k).
Proof.
  induction visit as [|task visit IH]; intros q s f w Hnd Hin.
  - simpl. split_and!; [lia|lia|lia|lia|done|done].
  - apply NoDup_cons in Hnd as [Hfresh Hnd]. fold (map queue.GetID visit) in Hfresh, Hnd.
    assert (Htask : queue.dlq_tasks q !! queue.GetID task = Some task)
      by (apply Hin; left).
    rewrite forEach_cons, (retry_each_found now task q s f w Htask).
    destruct (queue.Execute now task w) as [[e|] w1]; cbn [fst snd].
    + destruct (IH q s (f + 1) w1 Hnd) as (H1 & H2 & H3 & H4 & H5 & H6).
      { intros t Ht. apply Hin. by right. }
      cbv zeta. split_and!; [done|lia| |done|done|].
      * rewrite H3. simpl length. lia.
      * intros k Hk. apply H6. intros Hk'. apply Hk. simpl. by right.
    + set (w2 := (queue.OnSuccess now task w1).2).
      destruct (IH (queue.DLQ_RemoveTask (queue.GetID task) q) (s + 1) f w2 Hnd)
        as (H1 & H2 & H3 & H4 & H5 & H6).
      { intros t Ht. cbn [queue.DLQ_RemoveTask queue.dlq_tasks].
        rewrite lookup_delete_ne; [apply Hin; by right|].
        intros Heq. apply Hfresh. rewrite Heq. apply list_elem_of_In, in_map.
        by apply list_elem_of_In. }
      cbn [queue.DLQ_RemoveTask queue.dlq_tasks] in H4, H5, H6.
      rewrite map_size_delete_Some in H4 by (by rewrite Htask).
      assert (0 < size (queue.dlq_tasks q))%nat.
      { destruct (decide (size (queue.dlq_tasks q) = 0%nat)) as [Hz|]; [|lia].
        apply map_size_empty_iff in Hz. rewrite Hz, lookup_empty in Htask. done. }
      cbv zeta. split_and!; [lia|done| |lia| |].
      * rewrite H3. simpl length. lia.
      * etrans; [exact H5|]. apply delete_subseteq.
      * intros k Hk. rewrite H6 by (intros Hk'; apply Hk; simpl; by right).
        apply lookup_delete_ne. intros E. apply Hk. rewrite <- E. simpl. by left.
Qed.

(** The turn of one task in the middle of the loop: whether it is still
    queued at the end is decided by its execution in the store that the
    turns before it have left. *)
Lemma RetryAllTasks_turn {T} `{queue.RetryableTask T} now (pre post : list T) task
    (q : queue.DeadLetterQueue T) w :
  NoDup (map queue.GetID (pre ++ task :: post)) →
  (∀ t, t ∈ pre ++ task :: post → queue.dlq_tasks q !! queue.GetID t = Some t) →
  let r := usecase.forEach (dlq.retry_each now) (q, (0, 0)) (pre ++ task :: post) w in
  let before := (usecase.forEach (dlq.retry_each now) (q, (0, 0)) pre w).2 in
  is_Some (queue.dlq_tasks r.1.1 !! queue.GetID task)
  ↔ (queue.Execute now task before).1 ≠ None.
Proof.
  intros Hnd Hin r before. subst r before.
  rewrite map_app in Hnd. apply NoDup_app in Hnd as (Hpre & Hsep & Hrest).
  change (map queue.GetID (task :: post)) with (queue.GetID task :: map queue.GetID post)
    in Hsep, Hrest.
  apply NoDup_cons in Hrest as [Hfresh Hpost].
  rewrite forEach_app.
  pose proof (RetryAllTasks_loop now pre q 0 0 w Hpre) as Hloop. cbv zeta in Hloop.
  destruct Hloop as (_ & _ & _ & _ & _ & Hkeep).
  { intros t Ht. apply Hin, elem_of_app. by left. }
  destruct (usecase.forEach (dlq.retry_each now) (q, (0, 0)) pre w) as [[q1 [s1 f1]] w1].
  cbn [fst snd] in *.
  assert (Hq1 : ∀ t, t ∈ task :: post → queue.dlq_tasks q1 !! queue.GetID t = Some t).
  { intros t Ht. rewrite Hkeep; [apply Hin, elem_of_app; by right|].
    intros Hk. apply (Hsep _ Hk).
    change (queue.GetID t ∈ map queue.GetID (task :: post)).
    apply list_elem_of_fmap. eauto. }
  assert (Htask : queue.dlq_tasks q1 !! queue.GetID task = Some task) by (apply Hq1; left).
  rewrite forEach_cons, (retry_each_found now task q1 s1 f1 w1 Htask).
  destruct (queue.Execute now task w1) as [[e|] w2]; cbn [fst snd].
  - pose proof (RetryAllTasks_loop now post q1 s1 (f1 + 1) w2 Hpost) as Hloop.
    cbv zeta in Hloop. destruct Hloop as (_ & _ & _ & _ & _ & Hkeep').
    { intros t Ht. apply Hq1. by right. }
    rewrite Hkeep' by done. rewrite Htask. split; [done|eauto].
  - set (w3 := (queue.OnSuccess now task w2).2).
    pose proof (RetryAllTasks_loop now post (queue.DLQ_RemoveTask (queue.GetID task) q1)
                  (s1 + 1) f1 w3 Hpost) as Hloop.
    cbv zeta in Hloop. destruct Hloop as (_ & _ & _ & _ & _ & Hkeep').
    { intros t Ht. cbn [queue.DLQ_RemoveTask queue.dlq_tasks].
      rewrite lookup_delete_ne; [apply Hq1; by right|].
      intros Heq. apply Hfresh. rewrite Heq. apply list_elem_of_In, in_map.
      by apply list_elem_of_In. }
    rewrite Hkeep' by done. cbn [queue.DLQ_RemoveTask queue.dlq_tasks].
    rewrite lookup_delete_eq. split; [by intros [? ?]|done].
Qed.

(** X11.  Retrying the whole queue tries every task once, in whatever order
    the map hands them out: the two counts add up to the number of tasks, an
    error is returned exactly when some task failed, and exactly the tasks
    that failed stay queued: a task is still in the queue when its execution,
    in the store that the turns before it have left, returned an error, and it
    is gone when that execution succeeded. *)
Theorem RetryAllTasks_accounts {T} `{queue.RetryableTask T} (now : Time)
    (visit : list T) (q : queue.DeadLetterQueue T) (w : World) :
  dlq_consistent q →
  visit ≡ₚ map snd (map_to_list (queue.dlq_tasks q)) →
  let r := dlq.RetryAllTasks now visit q w in
  let successCount := r.1.2.1.1 in
  let failCount := r.1.2.1.2 in
  successCount + failCount = Z.of_nat (size (queue.dlq_tasks q))
  ∧ Z.of_nat (size (queue.dlq_tasks r.1.1)) = failCount
  ∧ queue.dlq_tasks r.1.1 ⊆ queue.dlq_tasks q
  ∧ (r.1.2.2 = None ↔ failCount = 0)
  ∧ (∀ pre task post, visit = pre ++ task :: post →
       let before := (usecase.forEach (dlq.retry_each now) (q, (0, 0)) pre w).2 in
       is_Some (queue.dlq_tasks r.1.1 !! queue.GetID task)
       ↔ (queue.Execute now task before).1 ≠ None).
Proof.
  intros (Hsync & Hids & Hempty) Hvisit r successCount failCount.
  assert (Hlen : length visit = size (queue.dlq_tasks q)).
  { rewrite Hvisit, length_map. apply length_map_to_list. }
  assert (Hin : ∀ task, task ∈ visit →
                        queue.dlq_tasks q !! queue.GetID task = Some task).
  { intros task. rewrite Hvisit. intros ([k t] & <- & Hkt%list_elem_of_In)%list_elem_of_In%in_map_iff.
    apply elem_of_map_to_list in Hkt. simpl. by rewrite (Hids k t Hkt). }
  assert (Hnd : NoDup (map queue.GetID visit)).
  { rewrite Hvisit.
    assert (map queue.GetID (map snd (map_to_list (queue.dlq_tasks q)))
            = map fst (map_to_list (queue.dlq_tasks q))) as ->.
    { rewrite map_map. apply map_ext_in. intros [k t] Hkt%list_elem_of_In.
      apply elem_of_map_to_list in Hkt. simpl. by apply Hids. }
    apply NoDup_fst_map_to_list. }
  assert (Hturn : ∀ pre task post, visit = pre ++ task :: post →
            is_Some (queue.dlq_tasks
                       (usecase.forEach (dlq.retry_each now) (q, (0, 0)) visit w).1.1
                     !! queue.GetID task)
            ↔ (queue.Execute now task
                 (usecase.forEach (dlq.retry_each now) (q, (0, 0)) pre w).2).1 ≠ None).
  { intros pre task post E. subst visit. by apply RetryAllTasks_turn. }
  subst r successCount failCount. unfold dlq.RetryAllTasks.
  destruct (Nat.eqb_spec (length visit) 0) as [Hz|Hnz].
  - cbn [mret Repo_ret fst snd]. rewrite <- Hlen, Hz.
    split_and!; [done|done|done|done|].
    intros pre task post E. rewrite E, length_app in Hz. simpl in Hz. lia.
  - unfold mbind, Repo_bind.
    pose proof (RetryAllTasks_loop now visit q 0 0 w Hnd Hin) as Hloop. cbv zeta in Hloop.
    destruct (usecase.forEach _ _ visit w) as [[q' [s f]] w'].
    cbn [fst snd] in Hloop, Hturn |- *. destruct Hloop as (H1 & H2 & H3 & H4 & H5 & _).
    destruct (Z.gtb_spec f 0); cbn [mret Repo_ret fst snd];
      (split_and!; [lia|lia|done| |exact Hturn]); split; (done || lia).
Qed.

Lemma AddTask_unbounded {T} `{queue.RetryableTask T} now visit (task : T)
    (q : queue.DeadLetterQueue T) :
  queue.maxCapacity q ≤ 0 →
  dlq.AddTask now visit task q
  = queue.mkDLQ (<[queue.GetID task := task]> (queue.dlq_tasks q)) (queue.maxCapacity q)
                (queue.retention q) (<[queue.GetID task := now]> (queue.entryTimes q)).
Proof.
  intros Hcap. unfold dlq.AddTask.
  by destruct (Z.gtb_spec (queue.maxCapacity q) 0); [lia|].
Qed.

Lemma dlq_consistent_insert {T} `{queue.RetryableTask T} now (task : T)
    (q : queue.DeadLetterQueue T) :
  dlq_consistent q → queue.GetID task ≠ "" →
  dlq_consistent
    (queue.mkDLQ (<[queue.GetID task := task]> (queue.dlq_tasks q)) (queue.maxCapacity q)
                 (queue.retention q) (<[queue.GetID task := now]> (queue.entryTimes q))).
Proof.
  intros (Hsync & Hids & Hempty) Hid.
  split_and!; cbn [queue.dlq_tasks queue.entryTimes].
  - intros k. destruct (decide (k = queue.GetID task)) as [->|Hk].
    + rewrite !lookup_insert_eq. split; eauto.
    + rewrite !lookup_insert_ne by done. apply Hsync.
  - intros k t. destruct (decide (k = queue.GetID task)) as [->|Hk].
    + rewrite lookup_insert_eq. by intros [= <-].
    + rewrite lookup_insert_ne by done. apply Hids.
  - by rewrite lookup_insert_ne.
Qed.

Lemma dlq_consistent_New {T} `{queue.RetryableTask T} maxCapacity retention :
  dlq_consistent (queue.NewDeadLetterQueue (T := T) maxCapacity retention).
Proof. split_and!; [|done|done]. intros k. simpl. by rewrite !lookup_empty. Qed.

Lemma RetryAllTasks_accounts_witness :
  let q := dlq.AddTask 6 [] (mkScriptedTask "b" true)
             (dlq.AddTask 5 [] (mkScriptedTask "a" false) (queue.NewDeadLetterQueue 0 0)) in
  let r := dlq.RetryAllTasks 7 [mkScriptedTask "b" true; mkScriptedTask "a" false] q
             empty_store in
  r.1.2 = (1, 1, Some (ErrOther "some tasks failed to retry"))
  ∧ r.1.2.1.1 + r.1.2.1.2 = Z.of_nat (size (queue.dlq_tasks q))
  ∧ Z.of_nat (size (queue.dlq_tasks r.1.1)) = r.1.2.1.2
  ∧ is_Some (queue.dlq_tasks r.1.1 !! "b")
  ∧ ¬ is_Some (queue.dlq_tasks r.1.1 !! "a").
Proof.
  split; [vm_compute; reflexivity|].
  destruct (RetryAllTasks_accounts 7 [mkScriptedTask "b" true; mkScriptedTask "a" false]
              (dlq.AddTask 6 [] (mkScriptedTask "b" true)
                 (dlq.AddTask 5 [] (mkScriptedTask "a" false)
                    (queue.NewDeadLetterQueue 0 0)))
              empty_store) as (H1 & H2 & _ & _ & H5).
  - rewrite !AddTask_unbounded by (simpl; lia).
    apply dlq_consistent_insert; [|done].
    apply dlq_consistent_insert; [|done]. apply dlq_consistent_New.
  - vm_compute. apply Permutation_swap.
  - split; [exact H1|]. split; [exact H2|]. split.
    + apply (H5 [] (mkScriptedTask "b" true) [mkScriptedTask "a" false] eq_refl).
      discriminate.
    + intros Ha.
      apply (H5 [mkScriptedTask "b" true] (mkScriptedTask "a" false) [] eq_refl) in Ha.
      by apply Ha.
Defined.

(** *** The retention sweep *)

Lemma cleanup_foldl {T} (ids : list string) (q : queue.DeadLetterQueue T) :
  let q' := foldl (λ q taskID,
                     queue.mkDLQ (delete taskID (queue.dlq_tasks q)) (queue.maxCapacity q)
                                 (queue.retention q) (delete taskID (queue.entryTimes q)))
                  q ids in
  queue.dlq_tasks q' = foldl (λ m k, delete k m) (queue.dlq_tasks q) ids
  ∧ queue.entryTimes q' = foldl (λ m k, delete k m) (queue.entryTimes q) ids
  ∧ queue.maxCapacity q' = queue.maxCapacity q
  ∧ queue.retention q' = queue.retention q.
Proof.
  revert q. induction ids as [|k ids IH]; intros q; [done|]. cbn [foldl].
  destruct (IH (queue.mkDLQ (delete k (queue.dlq_tasks q)) (queue.maxCapacity q)
                  (queue.retention q) (delete k (queue.entryTimes q))))
    as (H1 & H2 & H3 & H4). cbv zeta in *. by rewrite H1, H2, H3, H4.
Qed.

(** X12.  The sweep drops a task exactly when it has been queued for longer
    than the retention, whatever order the map is visited in, and leaves the
    other tasks and their entry times as they were. *)
Theorem cleanupExpiredTasks_sweeps {T} (now : Time) (visit : list (string * Time))
    (q : queue.DeadLetterQueue T) (taskID : string) :
  visit ≡ₚ map_to_list (queue.entryTimes q) →
  let q' := dlq.cleanupExpiredTasks now visit q in
  let expired := match queue.entryTimes q !! taskID with
                 | Some entryTime => dlq.time_Sub now entryTime >? queue.retention q
                 | None => false
                 end in
  queue.DLQ_GetTask taskID q'
  = (if expired then None else queue.DLQ_GetTask taskID q)
  ∧ queue.entryTimes q' !! taskID
    = (if expired then None else queue.entryTimes q !! taskID).
Proof.
  intros Hvisit q' expired. subst q'. unfold dlq.cleanupExpiredTasks, queue.DLQ_GetTask.
  destruct (cleanup_foldl
              (map fst (List.filter (λ entry, dlq.time_Sub now entry.2 >? queue.retention q) visit)) q)
    as (H1 & H2 & _). cbv zeta in H1, H2. rewrite H1, H2, !lookup_foldl_delete.
  assert (Hin : taskID ∈ map fst (List.filter
                                    (λ entry, dlq.time_Sub now entry.2 >? queue.retention q) visit)
                ↔ expired = true).
  { rewrite list_elem_of_In, in_map_iff. subst expired. split.
    - intros ([k t] & <- & [Hkt Hexp]%filter_In). simpl in *.
      apply list_elem_of_In in Hkt. rewrite Hvisit in Hkt.
      apply elem_of_map_to_list in Hkt.
      match goal with
      | |- context [match ?x with _ => _ end] => assert (x = Some t) as -> by exact Hkt
      end. done.
    - destruct (queue.entryTimes q !! taskID) as [t|] eqn:Ht; [|done].
      intros Hexp. exists (taskID, t). split; [done|]. apply filter_In. split; [|done].
      apply list_elem_of_In. rewrite Hvisit. by apply elem_of_map_to_list. }
  case_bool_decide as Hd.
  - by rewrite (proj1 Hin Hd).
  - destruct expired; [|done]. by destruct Hd; apply Hin.
Qed.

Lemma cleanupExpiredTasks_sweeps_witness :
  let q := dlq.AddTask 60 [] (mkScriptedTask "b" true)
             (dlq.AddTask 5 [] (mkScriptedTask "a" false)
                (queue.NewDeadLetterQueue 0 50)) in
  let q' := dlq.cleanupExpiredTasks 100 (map_to_list (queue.entryTimes q)) q in
  queue.DLQ_GetTask "a" q' = None
  ∧ queue.DLQ_GetTask "b" q' = Some (mkScriptedTask "b" true).
Proof.
  intros q q'. subst q'.
  destruct (cleanupExpiredTasks_sweeps 100 (map_to_list (queue.entryTimes q)) q "a"
              ltac:(done)) as [Ha _].
  destruct (cleanupExpiredTasks_sweeps 100 (map_to_list (queue.entryTimes q)) q "b"
              ltac:(done)) as [Hb _].
  split; [rewrite Ha|rewrite Hb]; reflexivity.
Defined.

(** *** A dead-lettered delivery *)

(** X13.  A delivery task retried from the dead-letter queue on a store that
    answers succeeds and leaves the queue, and its row, whatever state it was
    in, is SENT afterwards. *)
Theorem RetryTask_delivery (now : Time) (task : queue.DeliveryTask)
    (q : queue.DeadLetterQueue queue.DeliveryTask) (w : World) (d : DeliveryRow) :
  faults w = [] →
  queue.dlq_tasks q !! queue.GetID task = Some task →
  find (DeliveryRepo.has_id (DT.ID (queue.delivery task))) (deliveries w) = Some d →
  let r := dlq.RetryTask now (queue.GetID task) q w in
  r.1.2 = None
  ∧ queue.DLQ_GetTask (queue.GetID task) r.1.1 = None
  ∧ DT.Status <$> find (DeliveryRepo.has_id (DT.ID (queue.delivery task))) (deliveries r.2)
    = Some "sent".
Proof.
  intros Hf Hq Hfind r. subst r. rewrite (RetryTask_found now _ task q w Hq).
  cbn [queue.Execute queue.OnSuccess queue.DeliveryTask_RetryableTask].
  unfold DeliveryRepo.UpdateStatus. rewrite statement_healthy by done. cbn [fst snd].
  unfold mbind, Repo_bind, DeliveryRepo.MarkAsSent.
  rewrite statement_healthy by done. cbn [fst snd mret Repo_ret].
  split_and!; [done| |].
  - unfold queue.DLQ_GetTask, queue.DLQ_RemoveTask. cbn [queue.dlq_tasks].
    apply lookup_delete_eq.
  - cbn [deliveries with_deliveries].
    rewrite !find_update_where by done. by rewrite Hfind.
Qed.

Lemma RetryTask_delivery_witness :
  let task := task_of (row 1 10 20 "failed") in
  let w := store_of [row 1 10 20 "failed"] in
  let q := dlq.AddTask 5 [] task (queue.NewDeadLetterQueue 0 0) in
  let r := dlq.RetryTask 7 (queue.GetID task) q w in
  r.1.2 = None
  ∧ queue.DLQ_GetTask (queue.GetID task) r.1.1 = None
  ∧ statuses r.2 = [(1%N, "sent")].
Proof.
  intros task w q r.
  destruct (RetryTask_delivery 7 task q w (written (row 1 10 20 "failed")))
    as (H1 & H2 & _); [done|done|done|].
  split_and!; [exact H1|exact H2|reflexivity].
Defined.

(** ** The delivery service beyond the transitions *)

Lemma find_update_where_other {A} (p q : A → bool) (f : A → A) (l : list A) :
  (∀ x, q (f x) = q x) → (∀ x, p x = true → q x = false) →
  find q (postgres.update_where p f l) = find q l.
Proof.
  intros Hq Hpq. induction l as [|x l IH]; simpl; [done|].
  destruct (p x) eqn:E.
  - rewrite Hq, (Hpq x E). exact IH.
  - by rewrite IH.
Qed.

Lemma has_id_other id id' d :
  id' ≠ id → DeliveryRepo.has_id id d = true → DeliveryRepo.has_id id' d = false.
Proof.
  unfold DeliveryRepo.has_id, uuid_eqb. intros Hne Hid.
  apply N.eqb_eq in Hid. apply N.eqb_neq. congruence.
Qed.

Lemma scan_scanned (d : DeliveryRow) : readable d → DeliveryRepo.scan d = Ok (scanned d).
Proof.
  unfold readable, DeliveryRepo.scan, scanned. by destruct (DT.ErrorMessage d).
Qed.

Lemma scan_rows_readable l :
  Forall readable l → DeliveryRepo.scan_rows l = Ok (map scanned l).
Proof.
  induction 1 as [|d l Hd Hl IH]; [done|]. cbn [DeliveryRepo.scan_rows map].
  by rewrite scan_scanned, IH.
Qed.

Lemma scan_rows_never_failed l :
  Exists (λ d, DT.ErrorMessage d = None) l →
  DeliveryRepo.scan_rows l = Err DeliveryRepo.scanError.
Proof.
  induction 1 as [d l Hd|d l Hl IH]; cbn [DeliveryRepo.scan_rows].
  - by rewrite scan_never_failed.
  - unfold DeliveryRepo.scan at 1. destruct (DT.ErrorMessage d); [|done]. by rewrite IH.
Qed.

Lemma find_scanned (p : UUID → bool) (l : list DeliveryRow) :
  find (λ d : DT.t, p (DT.DeviceID d)) (map scanned l)
  = scanned <$> find (λ d : DeliveryRow, p (DT.DeviceID d)) l.
Proof.
  induction l as [|d l IH]; [done|]. cbn [map find scanned DT.DeviceID].
  by destruct (p (DT.DeviceID d)).
Qed.

(** X14.  On a healthy store [MarkAsDelivered] succeeds exactly for a stored
    row that is SENT and can be read, that is whose error message has been
    written by an earlier failure.  The row then reads as DELIVERED with the
    delivery time set.  A row that never failed, a SENT one too, holds NULL
    there; the read that opens the method fails on it and the call returns the
    not-found error.  A refused call leaves the store as it was, and the rows
    of other ids read as before in either case. *)
Theorem MarkAsDelivered_only_from_sent w now id :
  faults w = [] →
  let r := DS.MarkAsDelivered now id w in
  (r.1 = None ↔
     ∃ d, find (DeliveryRepo.has_id id) (deliveries w) = Some d
          ∧ readable d ∧ DT.Status d = "sent")
  ∧ (r.1 ≠ None → r.2 = w)
  ∧ (r.1 = None →
     find (DeliveryRepo.has_id id) (deliveries r.2)
     = delivered_row now <$> find (DeliveryRepo.has_id id) (deliveries w))
  ∧ (∀ d, find (DeliveryRepo.has_id id) (deliveries w) = Some d →
          DT.ErrorMessage d = None → r.1 = Some ErrDeliveryNotFound)
  ∧ (∀ id', id' ≠ id →
       find (DeliveryRepo.has_id id') (deliveries r.2)
       = find (DeliveryRepo.has_id id') (deliveries w)).
Proof.
  intros Hf r. subst r.
  unfold DS.MarkAsDelivered, mbind, Repo_bind, DeliveryRepo.GetByID.
  rewrite statement_healthy by done.
  destruct (find (DeliveryRepo.has_id id) (deliveries w)) as [d|] eqn:Hfind.
  - unfold DeliveryRepo.scan, readable.
    destruct (DT.ErrorMessage d) as [msg|] eqn:Hmsg.
    + cbn [DT.Status]. unfold entity.DeliveryStatusSent.
      destruct (String.eqb_spec (DT.Status d) "sent") as [Hs|Hs]; cbn [negb].
      * unfold DeliveryRepo.MarkAsDelivered. rewrite statement_healthy by done.
        cbn [fst snd deliveries with_deliveries mret Repo_ret].
        split_and!.
        -- split; [|done]. intros _. exists d. by rewrite Hmsg.
        -- done.
        -- intros _. rewrite find_update_where by done. by rewrite Hfind.
        -- intros d' [= <-]. congruence.
        -- intros id' Hne. apply find_update_where_other; [done|].
           intros x. by apply has_id_other.
      * cbn [fst snd mret Repo_ret]. split_and!; try done.
        -- split; [done|]. intros (d' & [= <-] & _ & Hd'). done.
        -- intros d' [= <-]. congruence.
    + cbn [fst snd mret Repo_ret]. split_and!; try done.
      split; [done|]. intros (d' & [= <-] & Hd' & _). congruence.
  - cbn [fst snd mret Repo_ret]. split_and!; try done.
    split; [done|]. by intros (d' & ? & _).
Qed.

Lemma MarkAsDelivered_only_from_sent_witness :
  let w := store_of_rows [written (failed_once 1 10 20 "sent");
                          never_failed (row 2 10 21 "sent")] in
  faults w = []
  ∧ (DS.MarkAsDelivered 7 1%N w).1 = None
  ∧ statuses (DS.MarkAsDelivered 7 1%N w).2 = [(1%N, "delivered"); (2%N, "sent")]
  ∧ (DS.MarkAsDelivered 7 2%N w).1 = Some ErrDeliveryNotFound.
Proof.
  intros w. split; [reflexivity|].
  pose proof (MarkAsDelivered_only_from_sent w 7 1%N eq_refl) as H.
  pose proof (MarkAsDelivered_only_from_sent w 7 2%N eq_refl) as H'.
  cbv zeta in H, H'. destruct H as (H & _). destruct H' as (_ & _ & _ & H' & _).
  split; [|split; [reflexivity|]].
  - apply H. eexists. split; [reflexivity|]. split; [discriminate|reflexivity].
  - by apply (H' (never_failed (row 2 10 21 "sent"))).
Defined.

(** X15.  [MarkAsSent] and [MarkAsFailed] refuse a stored row that can be read
    only when it is DELIVERED.  Any other such row, an EXPIRED one too, is
    rewritten: to SENT with the sending time, or to FAILED with the message
    and one more retry counted.  A row that never failed cannot be read, and
    both return the not-found error for it: the service cannot record the
    first failure of a row. *)
Theorem MarkAsSent_MarkAsFailed_refuse_only_delivered w now id msg d :
  faults w = [] →
  find (DeliveryRepo.has_id id) (deliveries w) = Some d →
  let s := DS.MarkAsSent now id w in
  let f := DS.MarkAsFailed now id msg w in
  match DT.ErrorMessage d with
  | None => s = (Some ErrDeliveryNotFound, w) ∧ f = (Some ErrDeliveryNotFound, w)
  | Some _ =>
      if String.eqb (DT.Status d) "delivered"
      then s = (Some ErrDeliveryAlreadyCompleted, w)
           ∧ f = (Some ErrDeliveryAlreadyCompleted, w)
      else s.1 = None ∧ f.1 = None
           ∧ find (DeliveryRepo.has_id id) (deliveries s.2) = Some (sent_row now d)
           ∧ find (DeliveryRepo.has_id id) (deliveries f.2) = Some (failed_row now msg d)
  end
  ∧ (∀ id', id' ≠ id →
       find (DeliveryRepo.has_id id') (deliveries s.2)
       = find (DeliveryRepo.has_id id') (deliveries w)
       ∧ find (DeliveryRepo.has_id id') (deliveries f.2)
         = find (DeliveryRepo.has_id id') (deliveries w)).
Proof.
  intros Hf Hfind s f. subst s f.
  unfold DS.MarkAsSent, DS.MarkAsFailed, mbind, Repo_bind, DeliveryRepo.GetByID.
  rewrite !statement_healthy by done. rewrite Hfind.
  unfold DeliveryRepo.scan. destruct (DT.ErrorMessage d) as [m|] eqn:Hmsg.
  2:{ cbn [fst snd mret Repo_ret]. done. }
  cbn [DT.Status]. unfold entity.DeliveryStatusDelivered.
  destruct (String.eqb (DT.Status d) "delivered") eqn:Hs.
  - cbn [fst snd mret Repo_ret]. done.
  - unfold DeliveryRepo.MarkAsSent, DeliveryRepo.MarkAsFailed.
    rewrite !statement_healthy by done.
    cbn [fst snd deliveries with_deliveries mret Repo_ret].
    rewrite !find_update_where by done. rewrite Hfind. cbn [fmap option_fmap option_map].
    split.
    + done.
    + intros id' Hne.
      split; (apply find_update_where_other; [done|]; intros x; by apply has_id_other).
Qed.

Lemma MarkAsSent_MarkAsFailed_refuse_only_delivered_witness :
  let w := store_of_rows [written (failed_once 1 10 20 "expired");
                          never_failed (row 2 10 21 "pending")] in
  (DS.MarkAsSent 7 1%N w).1 = None
  ∧ statuses (DS.MarkAsSent 7 1%N w).2 = [(1%N, "sent"); (2%N, "pending")]
  ∧ (DS.MarkAsFailed 7 1%N "late" w).1 = None
  ∧ DS.MarkAsFailed 7 2%N "Device not connected" w = (Some ErrDeliveryNotFound, w).
Proof.
  intros w.
  pose proof (MarkAsSent_MarkAsFailed_refuse_only_delivered w 7 1%N "late"
                (written (failed_once 1 10 20 "expired")) eq_refl eq_refl) as H.
  pose proof (MarkAsSent_MarkAsFailed_refuse_only_delivered w 7 2%N "Device not connected"
                (never_failed (row 2 10 21 "pending")) eq_refl eq_refl) as H'.
  cbv zeta in H, H'. destruct H as ((Hs & Hf & _) & _). destruct H' as ((_ & H') & _).
  split; [exact Hs|]. split; [reflexivity|]. split; [exact Hf|exact H'].
Defined.

(** X16.  [CreateDeliveryRecord] stores a row only when both the notification
    and the device are stored.  Then it appends one PENDING row of the pair
    with no retry counted and returns it; otherwise it returns the
    repository's not-found error, wrapped, and the store stays as it was. *)
Theorem CreateDeliveryRecord_needs_both w now notificationID deviceID channel :
  faults w = [] →
  let r := DeliveryService_CreateDeliveryRecord now notificationID deviceID channel w in
  let known_notification :=
    existsb (λ n, uuid_eqb (entity.Notification.ID n) notificationID) (notifications w) in
  let known_device := existsb (DeviceRepo.has_id deviceID) (devices w) in
  (if known_notification && known_device then
     r.1 = Ok (entity.NewDeliveryTracking (next_uuid w) now notificationID deviceID channel)
     ∧ deliveries r.2
       = deliveries w
         ++ [never_failed
               (entity.NewDeliveryTracking (next_uuid w) now notificationID deviceID
                  channel)]
   else
     r.2 = w
     ∧ ∃ err, r.1 = Err err
              ∧ errors_Is err (if known_notification then repository_ErrDeviceNotFound
                               else repository_ErrNotificationNotFound) = true).
Proof.
  intros Hf r kn kd. subst r kn kd.
  unfold DeliveryService_CreateDeliveryRecord, mbind, Repo_bind,
    postgres.NotificationRepository.GetByID, DeviceRepo.GetByID.
  rewrite !statement_healthy by done.
  destruct (find _ (notifications w)) as [n|] eqn:Hn.
  - pose proof (find_some _ _ Hn) as [Hin Hidn].
    assert (existsb (λ n, uuid_eqb (entity.Notification.ID n) notificationID)
                    (notifications w) = true) as ->.
    { apply existsb_exists. eauto. }
    cbn [andb]. rewrite statement_healthy by done.
    destruct (find _ (devices w)) as [d|] eqn:Hd.
    + pose proof (find_some _ _ Hd) as [Hind Hidd].
      assert (existsb (DeviceRepo.has_id deviceID) (devices w) = true) as ->.
      { apply existsb_exists. eauto. }
      unfold uuid_New, DeliveryRepo.Create. rewrite statement_healthy by done.
      cbn [fst snd deliveries with_deliveries mret Repo_ret DeviceRepo.scan Dev.ID].
      apply N.eqb_eq in Hidn. unfold DeviceRepo.has_id, uuid_eqb in Hidd.
      apply N.eqb_eq in Hidd. rewrite Hidn, Hidd. done.
    + assert (existsb (DeviceRepo.has_id deviceID) (devices w) = false) as ->.
      { apply not_true_is_false. intros (x & Hx & Hp)%existsb_exists.
        pose proof (find_none _ _ Hd x Hx) as Hq. congruence. }
      cbn [fst snd mret Repo_ret]. split; [done|]. eexists. split; [reflexivity|done].
  - assert (existsb (λ n, uuid_eqb (entity.Notification.ID n) notificationID)
                    (notifications w) = false) as ->.
    { apply not_true_is_false. intros (x & Hx & Hp)%existsb_exists.
      pose proof (find_none _ _ Hn x Hx) as Hq. simpl in Hq. congruence. }
    cbn [andb fst snd mret Repo_ret]. split; [done|]. eexists. split; [reflexivity|done].
Qed.

Lemma CreateDeliveryRecord_needs_both_witness :
  let w := store_of_devices [device_row 20 "phone" None] in
  faults w = []
  ∧ (DeliveryService_CreateDeliveryRecord 7 10%N 20%N "fcm" w).2 = w.
Proof.
  split; [reflexivity|].
  pose proof (CreateDeliveryRecord_needs_both
                (store_of_devices [device_row 20 "phone" None]) 7 10%N 20%N "fcm" eq_refl)
    as H.
  cbv zeta in H. exact (proj1 H).
Defined.

(** X17.  The acknowledgement of the notification service never makes a row.
    When the rows of the notification can all be read it marks the first row
    of the pair DELIVERED, and for a pair without a row it returns "delivery
    record not found" and the store stays as it was.  When one row of the
    notification never failed, the read fails on its NULL error message: the
    scan error is returned and nothing is marked, which is the case of every
    row that was sent at the first attempt. *)
Theorem NotificationService_ConfirmDelivery_never_creates w now notificationID deviceID :
  faults w = [] →
  let r := NotificationService_ConfirmDelivery now notificationID deviceID w in
  let rows_of_notification :=
    List.filter (λ d, uuid_eqb (DT.NotificationID d) notificationID) (deliveries w) in
  let rows_of_pair :=
    List.filter (λ d, uuid_eqb (DT.NotificationID d) notificationID
                      && uuid_eqb (DT.DeviceID d) deviceID) (deliveries w) in
  map DT.ID (deliveries r.2) = map DT.ID (deliveries w)
  ∧ (Forall readable rows_of_notification →
     match rows_of_pair with
     | [] => r = (Some (ErrOther "delivery record not found"), w)
     | first :: _ =>
         r.1 = None
         ∧ ∃ d, find (DeliveryRepo.has_id (DT.ID first)) (deliveries r.2) = Some d
                ∧ DT.Status d = "delivered" ∧ DT.DeliveredAt d = Some now
     end)
  ∧ (Exists (λ d, DT.ErrorMessage d = None) rows_of_notification →
     r = (Some DeliveryRepo.scanError, w)).
Proof.
  intros Hf r rowsn rows. subst r rowsn rows.
  unfold NotificationService_ConfirmDelivery, mbind, Repo_bind.
  rewrite GetByNotificationID_run by done.
  assert (Hfind : ∀ l : list DeliveryRow,
    find (λ d, uuid_eqb (DT.DeviceID d) deviceID)
         (List.filter (λ d, uuid_eqb (DT.NotificationID d) notificationID) l)
    = head (List.filter (λ d, uuid_eqb (DT.NotificationID d) notificationID
                              && uuid_eqb (DT.DeviceID d) deviceID) l)).
  { induction l as [|x l IH]; [done|]. cbn [List.filter].
    destruct (uuid_eqb (DT.NotificationID x) notificationID); cbn [andb find]; [|done].
    destruct (uuid_eqb (DT.DeviceID x) deviceID); [done|exact IH]. }
  split_and!.
  - destruct (DeliveryRepo.scan_rows _) as [found|err]; [|done]. cbv beta iota.
    destruct (find _ _) as [delivery|]; [|done].
    unfold DeliveryRepo.MarkAsDelivered. rewrite statement_healthy by done.
    cbn [fst snd deliveries with_deliveries].
    unfold postgres.update_where. rewrite map_map. apply map_ext.
    intros x. by destruct (DeliveryRepo.has_id _ x).
  - intros Hread. rewrite (scan_rows_readable _ Hread).
    rewrite (find_scanned (λ i, uuid_eqb i deviceID)), Hfind.
    match goal with
    | |- context [head ?l] => destruct l as [|first rest] eqn:Hrows
    end; cbn [head fmap option_fmap option_map]; [done|].
    unfold DeliveryRepo.MarkAsDelivered. rewrite statement_healthy by done.
    cbn [fst snd deliveries with_deliveries scanned DT.ID].
    split; [done|]. rewrite find_update_where by done.
    assert (Hin : first ∈ deliveries w).
    { apply list_elem_of_In.
      eapply (proj1 (filter_In _ first (deliveries w))).
      rewrite Hrows. by left. }
    destruct (find (DeliveryRepo.has_id (DT.ID first)) (deliveries w)) as [d|] eqn:Hd.
    + eexists. split; [reflexivity|done].
    + apply list_elem_of_In in Hin.
      pose proof (find_none _ _ Hd first Hin) as Hq.
      unfold DeliveryRepo.has_id, uuid_eqb in Hq. by rewrite N.eqb_refl in Hq.
  - intros Hnull. by rewrite (scan_rows_never_failed _ Hnull).
Qed.

Lemma NotificationService_ConfirmDelivery_never_creates_witness :
  let w := store_of [failed_once 1 10 20 "sent"] in
  let w' := store_of_rows [never_failed (row 1 10 20 "sent")] in
  faults w = []
  ∧ NotificationService_ConfirmDelivery 7 10%N 21%N w
    = (Some (ErrOther "delivery record not found"), w)
  ∧ NotificationService_ConfirmDelivery 7 10%N 20%N w'
    = (Some DeliveryRepo.scanError, w').
Proof.
  intros w w'. split; [reflexivity|].
  pose proof (NotificationService_ConfirmDelivery_never_creates w 7 10%N 21%N eq_refl)
    as H.
  pose proof (NotificationService_ConfirmDelivery_never_creates w' 7 10%N 20%N eq_refl)
    as H'.
  cbv zeta in H, H'. destruct H as (_ & H & _). destruct H' as (_ & _ & H').
  split.
  - apply H. repeat constructor. discriminate.
  - apply H'. by left.
Defined.

(** ** The resend pass *)

Lemma insert_by_Permutation {A} (key : A → Z) x l :
  postgres.insert_by key x l ≡ₚ x :: l.
Proof.
  induction l as [|y l IH]; simpl; [done|].
  destruct (key x <? key y); [done|]. rewrite IH. apply Permutation_swap.
Qed.

Lemma order_by_Permutation {A} (key : A → Z) l : postgres.order_by key l ≡ₚ l.
Proof.
  unfold postgres.order_by. induction l as [|x l IH]; simpl; [done|].
  by rewrite insert_by_Permutation, IH.
Qed.

Lemma NoDup_map_filter {A B} (f : A → B) (p : A → bool) l :
  NoDup (map f l) → NoDup (map f (List.filter p l)).
Proof.
  induction l as [|x l IH]; simpl; [done|].
  intros [Hx Hl]%NoDup_cons. destruct (p x); simpl; [|by apply IH].
  apply NoDup_cons. split; [|by apply IH].
  intros (y & Hy & Hin)%list_elem_of_fmap. apply Hx.
  apply list_elem_of_fmap. exists y. split; [done|].
  apply list_elem_of_In. apply list_elem_of_In in Hin.
  by apply filter_In in Hin as [? _].
Qed.

Lemma find_by_key (d : DeliveryRow) l :
  NoDup (map DT.ID l) → d ∈ l → find (DeliveryRepo.has_id (DT.ID d)) l = Some d.
Proof.
  induction l as [|x l IH]; simpl; [by intros _ ?%elem_of_nil|].
  intros [Hx Hl]%NoDup_cons [->|Hin]%elem_of_cons.
  - unfold DeliveryRepo.has_id, uuid_eqb. by rewrite N.eqb_refl.
  - unfold DeliveryRepo.has_id at 1, uuid_eqb.
    destruct (N.eqb_spec (DT.ID x) (DT.ID d)) as [E|E]; [|by apply IH].
    exfalso. apply Hx. rewrite E. apply list_elem_of_fmap. eauto.
Qed.

Lemma with_deliveries_same w : with_deliveries (deliveries w) w = w.
Proof. by destruct w. Qed.

Lemma update_where_id {A} (p : A → bool) (l : list A) :
  postgres.update_where p (λ x, x) l = l.
Proof.
  unfold postgres.update_where. induction l as [|x l IH]; simpl; [done|].
  rewrite IH. by destruct (p x).
Qed.

Lemma map_ID_update_where p (f : DeliveryRow → DeliveryRow) l :
  (∀ x, DT.ID (f x) = DT.ID x) →
  map DT.ID (postgres.update_where p f l) = map DT.ID l.
Proof.
  intros Hf. unfold postgres.update_where. rewrite map_map. apply map_ext.
  intros x. destruct (p x); [apply Hf|done].
Qed.

(** One branch of a turn of the resend loop: the tests are decided by the
    equations at hand and one UPDATE is left. *)
Ltac resend_turn :=
  eexists; split;
  [|intros w Hf <-; rewrite statement_healthy by done;
    repeat match goal with
           | H : _ = _ |- _ => rewrite H; cbv beta iota
           end;
    unfold DeliveryRepo.UpdateStatus, DeliveryRepo.MarkAsFailed, DeliveryRepo.MarkAsSent;
    rewrite statement_healthy by done; reflexivity];
  [done].

Section ResendPass.

Variable wsManager : usecase.WebSocketManager.
Variable json_Marshal : JSON → Result string.
Variable json_Unmarshal : string → Result JSON.

(** One turn of the loop rewrites the rows with the id of its delivery, in
    a way that the notifications table decides. *)
Lemma resend_delivery_rewrite now delivery ns :
  ∃ f : DeliveryRow → DeliveryRow, (∀ x, DT.ID (f x) = DT.ID x)
       ∧ ∀ w, faults w = [] → notifications w = ns →
           resend_delivery wsManager json_Marshal json_Unmarshal now delivery w
           = (tt, with_deliveries
                    (postgres.update_where (DeliveryRepo.has_id (DT.ID delivery)) f
                       (deliveries w)) w).
Proof.
  unfold resend_delivery, mbind, Repo_bind, postgres.NotificationRepository.GetByID.
  destruct (find (λ n, uuid_eqb (entity.Notification.ID n) (DT.NotificationID delivery)) ns)
    as [n|] eqn:Hn.
  2:{ exists (λ x, x). split; [done|]. intros w Hf <-.
      rewrite statement_healthy by done. rewrite Hn.
      by rewrite update_where_id, with_deliveries_same. }
  destruct (entity.Notification.IsExpired now n) eqn:Hexp; [by resend_turn|].
  destruct (NS.prepareNotificationPayload json_Marshal json_Unmarshal n) as [payload|e]
    eqn:Hpay; [|by resend_turn].
  destruct (String.eqb (DT.Channel delivery) entity.TokenTypeWebSocket) eqn:Hch;
    [|by resend_turn].
  destruct (usecase.IsDeviceConnected wsManager (DT.DeviceID delivery)) eqn:Hcon;
    [|by resend_turn].
  destruct (usecase.SendMessage wsManager (DT.DeviceID delivery) payload) as [err|] eqn:Hsend;
    by resend_turn.
Qed.

(** The loop: the store stays healthy, no row comes or goes, an id that
    the loop does not visit reads as before, and an id that it visits once
    reads as after its own turn alone. *)
Lemma resend_loop now l :
  ∀ w, faults w = [] →
  let r := usecase.forEach (λ _ delivery, resend_delivery wsManager json_Marshal json_Unmarshal now delivery) tt l w in
  faults r.2 = [] ∧ notifications r.2 = notifications w
  ∧ map DT.ID (deliveries r.2) = map DT.ID (deliveries w)
  ∧ (∀ id, id ∉ map DT.ID l →
       find (DeliveryRepo.has_id id) (deliveries r.2)
       = find (DeliveryRepo.has_id id) (deliveries w))
  ∧ (NoDup (map DT.ID l) → ∀ d, d ∈ l →
       find (DeliveryRepo.has_id (DT.ID d)) (deliveries r.2)
       = find (DeliveryRepo.has_id (DT.ID d)) (deliveries (resend_delivery wsManager json_Marshal json_Unmarshal now d w).2)).
Proof.
  induction l as [|x l IH]; intros w Hf; cbn zeta.
  - cbn [usecase.forEach mret Repo_ret fst snd]. repeat split; try done.
    intros _ d Hd. by apply elem_of_nil in Hd.
  - cbn [usecase.forEach]. unfold mbind, Repo_bind.
    destruct (resend_delivery_rewrite now x (notifications w)) as (fx & Hfx & Hx).
    rewrite (Hx w Hf eq_refl).
    set (w1 := with_deliveries _ w).
    assert (Hf1 : faults w1 = []) by done.
    specialize (IH w1 Hf1). cbn zeta in IH.
    destruct IH as (IH1 & IH2 & IH3 & IH4 & IH5).
    split; [done|]. split; [done|]. split.
    { rewrite IH3. subst w1. cbn [deliveries with_deliveries].
      by apply map_ID_update_where. }
    split.
    { intros id Hid. rewrite IH4.
      - subst w1. cbn [deliveries with_deliveries].
        apply find_update_where_other.
        + intros y. unfold DeliveryRepo.has_id. by rewrite Hfx.
        + intros y. apply has_id_other. intros ->. apply Hid. simpl. left.
      - intros Hin. apply Hid. simpl. by right. }
    intros Hnd0 d Hd. change (NoDup (DT.ID x :: map DT.ID l)) in Hnd0.
    apply NoDup_cons in Hnd0 as [Hnx Hnd]. apply elem_of_cons in Hd as [->|Hd].
    + rewrite IH4 by done. subst w1. by rewrite (Hx w Hf eq_refl).
    + rewrite (IH5 Hnd d Hd).
      destruct (resend_delivery_rewrite now d (notifications w)) as (fd & Hfd & Hd').
      rewrite (Hd' w1 Hf1 eq_refl), (Hd' w Hf eq_refl).
      subst w1. cbn [snd deliveries with_deliveries].
      rewrite !find_update_where by (intros y; unfold DeliveryRepo.has_id; by rewrite Hfd).
      f_equal. apply find_update_where_other.
      * intros y. unfold DeliveryRepo.has_id. by rewrite Hfx.
      * intros y. apply has_id_other. intros E. apply Hnx. rewrite <- E.
        apply list_elem_of_fmap. eauto.
Qed.

Lemma GetPendingForRetry_rows maxRetries w :
  faults w = [] →
  ∃ l, l ≡ₚ List.filter (due_for_retry maxRetries) (deliveries w)
       ∧ DeliveryRepo.GetPendingForRetry maxRetries w = (DeliveryRepo.scan_rows l, w).
Proof.
  intros Hf. unfold DeliveryRepo.GetPendingForRetry. rewrite statement_healthy by done.
  eexists. split; [|reflexivity]. apply order_by_Permutation.
Qed.

Lemma map_ID_scanned l : map DT.ID (map scanned l) = map DT.ID l.
Proof. rewrite map_map. by apply map_ext. Qed.

(** X18.  A resend pass over a healthy store whose due rows can all be read
    returns no error, makes and removes no row, and leaves every row alone
    that is not due: a row that is neither PENDING nor FAILED, or that has
    used up its retries, reads as before.  When one due row never failed, a
    queued provider row for one, the read of the due rows fails on its NULL
    error message and the pass returns the scan error without touching a row.
    (The id is the key of the table.) *)
Theorem ResendFailedNotifications_leaves_the_rest w now maxRetries :
  faults w = [] →
  NoDup (map DT.ID (deliveries w)) →
  let r := NotificationService_ResendFailedNotifications wsManager json_Marshal
             json_Unmarshal now maxRetries w in
  let due := List.filter (due_for_retry maxRetries) (deliveries w) in
  (Forall readable due →
     r.1 = None
     ∧ map DT.ID (deliveries r.2) = map DT.ID (deliveries w)
     ∧ ∀ d, d ∈ deliveries w → due_for_retry maxRetries d = false →
            find (DeliveryRepo.has_id (DT.ID d)) (deliveries r.2) = Some d)
  ∧ (Exists (λ d, DT.ErrorMessage d = None) due → r = (Some DeliveryRepo.scanError, w)).
Proof.
  intros Hf Hkey r due. subst r due.
  unfold NotificationService_ResendFailedNotifications, mbind, Repo_bind.
  destruct (GetPendingForRetry_rows maxRetries w Hf) as (l & Hl & ->).
  split.
  - intros Hread. rewrite scan_rows_readable by (by rewrite Hl).
    pose proof (resend_loop now (map scanned l) w Hf) as H. cbn zeta in H.
    destruct (usecase.forEach _ tt (map scanned l) w) as [[] w'].
    cbn [fst snd mret Repo_ret] in *. destruct H as (_ & _ & Hids & Hframe & _).
    split; [done|]. split; [done|].
    intros d Hd Hdue. rewrite Hframe; [by apply find_by_key|].
    rewrite map_ID_scanned.
    intros (e & He & Hin)%list_elem_of_fmap.
    rewrite Hl in Hin. apply elem_of_List_filter in Hin as [Hin Hdue'].
    assert (e = d) as ->; [|congruence].
    pose proof (find_by_key e _ Hkey Hin) as H1.
    pose proof (find_by_key d _ Hkey Hd) as H2.
    rewrite <- He in H1. congruence.
  - intros Hnull. rewrite scan_rows_never_failed by (by rewrite Hl). done.
Qed.

(** X19.  What a resend pass does to a row that is due and whose notification
    is stored, when the due rows can all be read.  The row ends EXPIRED when
    the notification has expired, a FAILED row too; otherwise FAILED with one
    more retry counted when the payload cannot be built, when the channel is
    not the live socket ("Unsupported channel"), when the device is not
    connected or when the send fails; and SENT when the send goes through. *)
Theorem ResendFailedNotifications_outcome w now maxRetries d n :
  faults w = [] →
  NoDup (map DT.ID (deliveries w)) →
  Forall readable (List.filter (due_for_retry maxRetries) (deliveries w)) →
  d ∈ deliveries w →
  due_for_retry maxRetries d = true →
  find (λ n, uuid_eqb (entity.Notification.ID n) (DT.NotificationID d)) (notifications w)
    = Some n →
  let r := NotificationService_ResendFailedNotifications wsManager json_Marshal
             json_Unmarshal now maxRetries w in
  r.1 = None
  ∧ find (DeliveryRepo.has_id (DT.ID d)) (deliveries r.2)
    = Some
        (if entity.Notification.IsExpired now n then DT.with_status "expired" now d
         else
           match NS.prepareNotificationPayload json_Marshal json_Unmarshal n with
           | Err _ => failed_row now "Failed to prepare payload" d
           | Ok payload =>
               if String.eqb (DT.Channel d) "websocket" then
                 if usecase.IsDeviceConnected wsManager (DT.DeviceID d) then
                   match usecase.SendMessage wsManager (DT.DeviceID d) payload with
                   | Some err => failed_row now (error_Error err) d
                   | None => sent_row now d
                   end
                 else failed_row now "Device not connected" d
               else failed_row now "Unsupported channel" d
           end).
Proof.
  intros Hf Hkey Hread Hd Hdue Hn r. subst r.
  unfold NotificationService_ResendFailedNotifications, mbind, Repo_bind.
  destruct (GetPendingForRetry_rows maxRetries w Hf) as (l & Hl & ->).
  rewrite scan_rows_readable by (by rewrite Hl).
  pose proof (resend_loop now (map scanned l) w Hf) as H. cbn zeta in H.
  destruct (usecase.forEach _ tt (map scanned l) w) as [[] w'].
  cbn [fst snd mret Repo_ret] in *. destruct H as (_ & _ & _ & _ & Hturn).
  split; [done|].
  change (DT.ID d) with (DT.ID (scanned d)) at 1.
  rewrite Hturn.
  - unfold resend_delivery, mbind, Repo_bind, postgres.NotificationRepository.GetByID.
    rewrite statement_healthy by done. cbn [scanned DT.NotificationID DT.ID DT.Channel
      DT.DeviceID]. rewrite Hn.
    pose proof (find_by_key d _ Hkey Hd) as Hfind.
    unfold entity.DeliveryStatusExpired, entity.TokenTypeWebSocket,
      DeliveryRepo.UpdateStatus, DeliveryRepo.MarkAsFailed, DeliveryRepo.MarkAsSent.
    repeat match goal with
    | |- context [if ?b then _ else _] => destruct b
    | |- context [match ?x with Ok _ => _ | Err _ => _ end] => destruct x
    | |- context [match ?x with Some _ => _ | None => _ end] => destruct x
    end;
    rewrite statement_healthy by done;
    cbn [fst snd deliveries with_deliveries mret Repo_ret];
    rewrite find_update_where by done; by rewrite Hfind.
  - rewrite map_ID_scanned, Hl. by apply NoDup_map_filter.
  - apply list_elem_of_fmap. exists d. split; [done|]. rewrite Hl.
    by apply elem_of_List_filter.
Qed.

End ResendPass.

Lemma ResendFailedNotifications_leaves_the_rest_witness :
  let w := store_of [failed_once 1 10 20 "delivered"; failed_once 2 10 21 "failed"] in
  let w' := store_of_rows
              [never_failed (DT.mk 1%N 10%N 20%N "fcm" "pending" None None None 0 "" 0 0);
               written (failed_once 2 10 21 "failed")] in
  let r := NotificationService_ResendFailedNotifications hub_nobody jsonlib.Marshal
             jsonlib.Unmarshal 7 3 w in
  r.1 = None ∧ map DT.ID (deliveries r.2) = [1%N; 2%N]
  ∧ find (DeliveryRepo.has_id 1%N) (deliveries r.2)
    = Some (written (failed_once 1 10 20 "delivered"))
  ∧ NotificationService_ResendFailedNotifications hub_nobody jsonlib.Marshal
      jsonlib.Unmarshal 7 3 w'
    = (Some DeliveryRepo.scanError, w').
Proof.
  intros w w' r. subst r.
  pose proof (ResendFailedNotifications_leaves_the_rest hub_nobody jsonlib.Marshal
                jsonlib.Unmarshal w 7 3 eq_refl) as H.
  pose proof (ResendFailedNotifications_leaves_the_rest hub_nobody jsonlib.Marshal
                jsonlib.Unmarshal w' 7 3 eq_refl) as H'.
  cbv zeta in H, H'.
  destruct H as (H & _). { repeat constructor; cbn; set_solver. }
  destruct H' as (_ & H'). { repeat constructor; cbn; set_solver. }
  destruct H as (H1 & H2 & H3). { repeat constructor. discriminate. }
  split; [exact H1|]. split; [exact H2|]. split.
  - apply (H3 (written (failed_once 1 10 20 "delivered"))); [left|reflexivity].
  - apply H'. by left.
Defined.

Lemma ResendFailedNotifications_outcome_witness :
  let queued :=
    written (DT.mk 1%N 10%N 20%N "fcm" "pending" None None (Some 3) 1
                   "Unsupported channel" 0 5) in
  let n := entity.Notification.mk 10%N "42" "Hi" "there" "" "normal" "" 0 0 None in
  let w := mkWorld [queued] [] [] [n] [] 100%N in
  find (DeliveryRepo.has_id 1%N)
       (deliveries (NotificationService_ResendFailedNotifications hub_all_live
                      jsonlib.Marshal jsonlib.Unmarshal 7 3 w).2)
  = Some (failed_row 7 "Unsupported channel" queued).
Proof.
  intros queued n w.
  pose proof (ResendFailedNotifications_outcome hub_all_live jsonlib.Marshal
                jsonlib.Unmarshal w 7 3 queued n eq_refl) as H.
  cbv zeta in H. apply H.
  - repeat constructor; cbn; set_solver.
  - repeat constructor. discriminate.
  - left.
  - reflexivity.
  - reflexivity.
Defined.

(** ** Devices: registration and the cleanup of inactive devices *)

(** X20.  With the repository of package postgres a device that is not yet
    stored cannot be registered: the repository reports its own
    [ErrDeviceNotFound], which is not the value that the service tests for, so
    both registrations return that error and store nothing. *)
Theorem RegisterDevice_new_identifier_fails w now deviceIdentifier userID model :
  faults w = [] →
  (∀ d, d ∈ devices w → Dev.DeviceIdentifier d ≠ deviceIdentifier) →
  DevS.RegisterDeviceWithoutUser now deviceIdentifier model w
  = (Err repository_ErrDeviceNotFound, w)
  ∧ DevS.RegisterDeviceWithUser now deviceIdentifier userID model w
    = (Err repository_ErrDeviceNotFound, w).
Proof.
  intros Hf Hnew.
  unfold DevS.RegisterDeviceWithoutUser, DevS.RegisterDeviceWithUser, mbind, Repo_bind,
    DeviceRepo.GetByDeviceIdentifier.
  rewrite statement_healthy by done.
  destruct (find _ (devices w)) as [d|] eqn:Hfind.
  - apply find_some in Hfind as [Hin Heq]. apply String.eqb_eq in Heq.
    apply list_elem_of_In in Hin. by destruct (Hnew d Hin).
  - done.
Qed.

Lemma RegisterDevice_new_identifier_fails_witness :
  DevS.RegisterDeviceWithoutUser 7 "phone-A" None empty_store
  = (Err repository_ErrDeviceNotFound, empty_store)
  ∧ DevS.RegisterDeviceWithUser 7 "phone-A" 42%N None empty_store
    = (Err repository_ErrDeviceNotFound, empty_store).
Proof.
  apply (RegisterDevice_new_identifier_fails empty_store 7 "phone-A" 42%N None eq_refl).
  intros d Hd. by apply elem_of_nil in Hd.
Defined.

Lemma update_where_twice {A} (p q : A → bool) (f : A → A) (l : list A) :
  (∀ x, q (f x) = q x) → (∀ x, f (f x) = f x) →
  postgres.update_where q f (postgres.update_where p f l)
  = postgres.update_where (λ x, p x || q x) f l.
Proof.
  intros Hq Hf. unfold postgres.update_where. rewrite map_map. apply map_ext.
  intros x. destruct (p x); simpl.
  - rewrite Hq. destruct (q x); [apply Hf|done].
  - done.
Qed.

Lemma update_where_none {A} (f : A → A) (l : list A) :
  postgres.update_where (λ _, false) f l = l.
Proof. unfold postgres.update_where. induction l; simpl; congruence. Qed.

Lemma update_where_ext {A} (p q : A → bool) (f : A → A) (l : list A) :
  (∀ x, p x = q x) → postgres.update_where p f l = postgres.update_where q f l.
Proof.
  intros H. unfold postgres.update_where. apply map_ext. intros x. by rewrite H.
Qed.

(** The cleanup loop is one bulk update of the tokens: the statement that
    is to mark the device is refused at every turn, and the loop goes on. *)
Lemma cleanup_loop now l :
  ∀ w, faults w = [] →
  usecase.forEach (λ _ device, cleanup_device now device) tt l w
  = (tt,
     with_tokens
       (postgres.update_where
          (λ t, existsb (λ d, uuid_eqb (NT.DeviceID t) (Dev.ID d)) l)
          (λ t, NT.mk (NT.ID t) (NT.DeviceID t) (NT.Token t) (NT.TokenType_ t)
                      (NT.CreatedAt t) now (NT.ExpiresAt t) false true)
          (tokens w)) w).
Proof.
  induction l as [|x l IH]; intros w Hf.
  - cbn [usecase.forEach existsb mret Repo_ret]. rewrite !update_where_none.
    by destruct w.
  - cbn [usecase.forEach existsb]. unfold mbind at 1. unfold Repo_bind at 1.
    unfold cleanup_device at 1. unfold mbind, Repo_bind.
    unfold postgres.TokenRepository.RevokeAllForDevice, DeviceRepository_Delete.
    rewrite statement_healthy by done. rewrite statement_healthy by done.
    cbn [mret Repo_ret]. rewrite IH by done.
    cbn [devices tokens with_devices with_tokens deliveries notifications faults next_uuid].
    rewrite !update_where_twice.
    + done.
    + intros t. cbn [NT.DeviceID]. done.
    + done.
Qed.

Lemma existsb_map {A B} (f : B → bool) (g : A → B) l :
  existsb f (map g l) = existsb (λ x, f (g x)) l.
Proof. induction l as [|x l IH]; simpl; congruence. Qed.

Lemma existsb_List_filter {A} (f p : A → bool) l :
  existsb f (List.filter p l) = existsb (λ x, p x && f x) l.
Proof.
  induction l as [|x l IH]; simpl; [done|].
  destruct (p x); simpl; congruence.
Qed.

Lemma existsb_ext' {A} (f g : A → bool) l :
  (∀ x, f x = g x) → existsb f l = existsb g l.
Proof. intros H. induction l as [|x l IH]; simpl; congruence. Qed.

Lemma CleanupInactiveDevices_run w now inactivityThreshold :
  faults w = [] →
  let threshold := now + wrap64 (- inactivityThreshold) in
  DeviceService_CleanupInactiveDevices now inactivityThreshold w
  = (None,
     with_tokens
       (postgres.update_where
          (λ t, inactive_device threshold w (NT.DeviceID t))
          (λ t, NT.mk (NT.ID t) (NT.DeviceID t) (NT.Token t) (NT.TokenType_ t)
                      (NT.CreatedAt t) now (NT.ExpiresAt t) false true)
          (tokens w)) w).
Proof.
  intros Hf threshold.
  unfold DeviceService_CleanupInactiveDevices, mbind, Repo_bind,
    DeviceRepository_GetInactiveDevices.
  rewrite statement_healthy by done. rewrite cleanup_loop by done.
  cbn [mret Repo_ret]. f_equal. fold threshold.
  f_equal; apply update_where_ext; intros x; unfold inactive_device;
    rewrite existsb_map, existsb_List_filter; apply existsb_ext'; intros d;
    unfold DeviceRepo.has_id, DeviceRepo.scan, uuid_eqb; cbn [Dev.ID];
    rewrite (N.eqb_sym (Dev.ID d)); apply andb_comm.
Qed.

Lemma elem_of_update_where {A} (p : A → bool) f (l : list A) y :
  y ∈ postgres.update_where p f l →
  ∃ x, x ∈ l ∧ y = (if p x then f x else x).
Proof.
  unfold postgres.update_where. intros (x & -> & Hx)%list_elem_of_fmap. eauto.
Qed.

Lemma filter_update_where_other {A} (p q : A → bool) (f : A → A) (l : list A) :
  (∀ x, p x = true → q x = false ∧ q (f x) = false) →
  List.filter q (postgres.update_where p f l) = List.filter q l.
Proof.
  intros H. induction l as [|x l IH]; simpl; [done|].
  destruct (p x) eqn:E.
  - destruct (H x E) as [-> ->]. exact IH.
  - by rewrite IH.
Qed.

(** X21.  The cleanup of inactive devices removes no device.  The statement
    that is to set the delete time names a column that the devices table of
    the other statements does not have; it is refused, and the service skips
    over the error.  On a healthy store the cleanup returns no error, every
    device row is as before, and no token goes; every token of a device last
    seen before the threshold ends revoked and inactive, and the tokens of the
    devices seen since read as before. *)
Theorem CleanupInactiveDevices_deletes_nothing w now inactivityThreshold :
  faults w = [] →
  let threshold := now + wrap64 (- inactivityThreshold) in
  let r := DeviceService_CleanupInactiveDevices now inactivityThreshold w in
  r.1 = None
  ∧ devices r.2 = devices w
  ∧ map NT.ID (tokens r.2) = map NT.ID (tokens w)
  ∧ (∀ t, t ∈ tokens r.2 → inactive_device threshold w (NT.DeviceID t) = true →
          NT.IsRevoked t = true ∧ NT.IsActive t = false)
  ∧ (∀ id, inactive_device threshold w id = false →
       List.filter (λ t, uuid_eqb (NT.DeviceID t) id) (tokens r.2)
       = List.filter (λ t, uuid_eqb (NT.DeviceID t) id) (tokens w)).
Proof.
  intros Hf threshold r. subst r.
  rewrite (CleanupInactiveDevices_run w now inactivityThreshold Hf). fold threshold.
  cbn [fst snd devices tokens with_devices with_tokens].
  split; [done|]. split; [done|]. split.
  { unfold postgres.update_where. rewrite map_map. apply map_ext.
    intros x. by destruct (inactive_device _ _ _). }
  split.
  - intros t (x & Hx & ->)%elem_of_update_where Ht.
    destruct (inactive_device threshold w (NT.DeviceID x)) eqn:E; [done|].
    congruence.
  - intros id Hid.
    apply filter_update_where_other. intros t Ht. cbn [NT.DeviceID].
    assert (uuid_eqb (NT.DeviceID t) id = false) as ->; [|done].
    unfold uuid_eqb. apply N.eqb_neq. intros E. congruence.
Qed.

Lemma CleanupInactiveDevices_deletes_nothing_witness :
  let idle := Dev.mk 1%N None None "phone-A" false 10 10 10 10 None "active" in
  let busy := Dev.mk 2%N None None "phone-B" false 90 90 90 90 None "active" in
  let tk d v := NT.mk d d v "fcm" 10 10 1000 true false in
  let w := mkWorld [] [tk 1%N "a"; tk 2%N "b"] [idle; busy] [] [] 100%N in
  let r := DeviceService_CleanupInactiveDevices 100 50 w in
  r.1 = None ∧ devices r.2 = [idle; busy]
  ∧ map (λ t, NT.IsRevoked t) (tokens r.2) = [true; false].
Proof.
  intros idle busy tk w r.
  pose proof (CleanupInactiveDevices_deletes_nothing w 100 50 eq_refl) as H.
  cbv zeta in H. destruct H as (H1 & H2 & _).
  split; [exact H1|]. split; [exact H2|]. reflexivity.
Defined.

(** ** Channel tokens: what the reads see after the writes *)

Lemma newest_step_elem l :
  ∀ acc t,
    foldl (λ acc t,
             match acc with
             | None => Some t
             | Some best => if NT.CreatedAt best <? NT.CreatedAt t then Some t else acc
             end) acc l = Some t →
    acc = Some t ∨ t ∈ l.
Proof.
  induction l as [|x l IH]; intros acc t; simpl; [by left|].
  intros [H|H]%IH; [|right; by right].
  destruct acc as [best|].
  - destruct (NT.CreatedAt best <? NT.CreatedAt x).
    + injection H as <-. right. left.
    + by left.
  - injection H as <-. right. left.
Qed.

Lemma newest_elem l t : postgres.TokenRepository.newest l = Some t → t ∈ l.
Proof. intros H. by apply newest_step_elem in H as [?|?]. Qed.

Lemma newest_nonempty l : l ≠ [] → is_Some (postgres.TokenRepository.newest l).
Proof.
  unfold postgres.TokenRepository.newest. destruct l as [|x l]; [done|]. intros _.
  simpl. generalize x. clear x. induction l as [|y l IH]; intros x; simpl; [eauto|].
  destruct (NT.CreatedAt x <? NT.CreatedAt y); apply IH.
Qed.

Lemma newest_app_last l x :
  (∀ t, t ∈ l → NT.CreatedAt t < NT.CreatedAt x) →
  postgres.TokenRepository.newest (l ++ [x]) = Some x.
Proof.
  intros Hl. unfold postgres.TokenRepository.newest. rewrite foldl_app. simpl.
  destruct (foldl _ None l) as [best|] eqn:E; [|done].
  apply newest_step_elem in E as [?|Hin]; [done|].
  specialize (Hl best Hin). by destruct (Z.ltb_spec (NT.CreatedAt best) (NT.CreatedAt x)); [|lia].
Qed.

(** X22.  After [RevokeAllForDevice] the device has no token to read, of any
    type and at any time, while the tokens of every other device read as
    before. *)
Theorem RevokeAllForDevice_clears_the_device w now now' deviceID :
  faults w = [] →
  let r := postgres.TokenRepository.RevokeAllForDevice now deviceID w in
  r.1 = None
  ∧ (postgres.TokenRepository.GetAllForDevice now' deviceID r.2).1 = Ok []
  ∧ (∀ tokenType,
       (postgres.TokenRepository.GetByDeviceAndType now' deviceID tokenType r.2).1
       = Err repository_ErrTokenNotFound)
  ∧ (∀ other, other ≠ deviceID →
       (postgres.TokenRepository.GetAllForDevice now' other r.2).1
       = (postgres.TokenRepository.GetAllForDevice now' other w).1
       ∧ ∀ tokenType,
           (postgres.TokenRepository.GetByDeviceAndType now' other tokenType r.2).1
           = (postgres.TokenRepository.GetByDeviceAndType now' other tokenType w).1).
Proof.
  intros Hf r. subst r.
  unfold postgres.TokenRepository.RevokeAllForDevice. rewrite statement_healthy by done.
  cbn [fst snd]. split; [done|].
  unfold postgres.TokenRepository.GetAllForDevice,
    postgres.TokenRepository.GetByDeviceAndType.
  assert (Hgone : ∀ (q : NT.t → bool) l,
            (∀ t, q t = true → uuid_eqb (NT.DeviceID t) deviceID = true) →
            List.filter (λ t, q t && postgres.TokenRepository.usable now' t)
              (postgres.update_where (λ t, uuid_eqb (NT.DeviceID t) deviceID)
                 (λ t, NT.mk (NT.ID t) (NT.DeviceID t) (NT.Token t) (NT.TokenType_ t)
                             (NT.CreatedAt t) now (NT.ExpiresAt t) false true) l) = []).
  { intros q l Hq. induction l as [|t l IH]; [done|].
    cbn [postgres.update_where map List.filter].
    destruct (uuid_eqb (NT.DeviceID t) deviceID) eqn:E.
    - unfold postgres.TokenRepository.usable at 1. cbn [NT.IsActive andb].
      rewrite andb_false_r. exact IH.
    - destruct (q t) eqn:Eq; [by rewrite (Hq t Eq) in E|]. exact IH. }
  split; [|split].
  - rewrite statement_healthy by done. cbn [fst tokens with_tokens].
    by rewrite (Hgone (λ t, uuid_eqb (NT.DeviceID t) deviceID)).
  - intros tokenType. rewrite statement_healthy by done. cbn [fst tokens with_tokens].
    rewrite (Hgone (postgres.TokenRepository.of_device_and_type deviceID tokenType));
      [done|].
    intros t. unfold postgres.TokenRepository.of_device_and_type.
    by intros [? _]%andb_prop.
  - intros other Hother.
    assert (Hkeep : ∀ (q : NT.t → bool) l,
              (∀ t, q t = true → uuid_eqb (NT.DeviceID t) other = true) →
              (∀ t t', NT.DeviceID t' = NT.DeviceID t → NT.TokenType_ t' = NT.TokenType_ t →
                       q t' = q t) →
              List.filter (λ t, q t && postgres.TokenRepository.usable now' t)
                (postgres.update_where (λ t, uuid_eqb (NT.DeviceID t) deviceID)
                   (λ t, NT.mk (NT.ID t) (NT.DeviceID t) (NT.Token t) (NT.TokenType_ t)
                               (NT.CreatedAt t) now (NT.ExpiresAt t) false true) l)
              = List.filter (λ t, q t && postgres.TokenRepository.usable now' t) l).
    { intros q l Hq Hsame. apply filter_update_where_other. intros t Ht.
      assert (q t = false) as Hqt.
      { destruct (q t) eqn:Eq; [|done]. apply Hq in Eq.
        unfold uuid_eqb in *. apply N.eqb_eq in Eq, Ht. congruence. }
      rewrite Hqt. split; [done|].
      rewrite (Hsame t (NT.mk (NT.ID t) (NT.DeviceID t) (NT.Token t) (NT.TokenType_ t)
                              (NT.CreatedAt t) now (NT.ExpiresAt t) false true))
        by done.
      by rewrite Hqt. }
    split.
    + rewrite !statement_healthy by done. cbn [fst tokens with_tokens].
      rewrite (Hkeep (λ t, uuid_eqb (NT.DeviceID t) other)); [done|done|].
      by intros t t' -> _.
    + intros tokenType. rewrite !statement_healthy by done. cbn [fst tokens with_tokens].
      rewrite (Hkeep (postgres.TokenRepository.of_device_and_type other tokenType));
        [done| |].
      * intros t. unfold postgres.TokenRepository.of_device_and_type.
        by intros [? _]%andb_prop.
      * intros t t' H1 H2. unfold postgres.TokenRepository.of_device_and_type.
        by rewrite H1, H2.
Qed.

Lemma RevokeAllForDevice_clears_the_device_witness :
  let tk d v := NT.mk d d v "fcm" 10 10 1000 true false in
  let w := mkWorld [] [tk 1%N "a"; tk 2%N "b"] [] [] [] 100%N in
  let r := postgres.TokenRepository.RevokeAllForDevice 20 1%N w in
  (postgres.TokenRepository.GetAllForDevice 30 1%N r.2).1 = Ok []
  ∧ (postgres.TokenRepository.GetAllForDevice 30 2%N r.2).1 = Ok [tk 2%N "b"].
Proof.
  intros tk w r.
  pose proof (RevokeAllForDevice_clears_the_device w 20 30 1%N eq_refl) as H.
  cbv zeta in H. destruct H as (_ & H & _ & _).
  split; [exact H|reflexivity].
Defined.

(** X23.  [CleanupExpired] changes nothing that a read can see: at the time of
    the cleanup and at any later time every device reads the same tokens as
    without it. *)
Theorem CleanupExpired_changes_no_read w now now' deviceID :
  faults w = [] → now ≤ now' →
  let r := postgres.TokenRepository.CleanupExpired now w in
  r.1 = None
  ∧ (postgres.TokenRepository.GetAllForDevice now' deviceID r.2).1
    = (postgres.TokenRepository.GetAllForDevice now' deviceID w).1
  ∧ ∀ tokenType,
      (postgres.TokenRepository.GetByDeviceAndType now' deviceID tokenType r.2).1
      = (postgres.TokenRepository.GetByDeviceAndType now' deviceID tokenType w).1.
Proof.
  intros Hf Hle r. subst r.
  unfold postgres.TokenRepository.CleanupExpired. rewrite statement_healthy by done.
  cbn [fst snd]. split; [done|].
  unfold postgres.TokenRepository.GetAllForDevice,
    postgres.TokenRepository.GetByDeviceAndType.
  assert (Hkeep : ∀ (q : NT.t → bool) l,
            List.filter (λ t, q t && postgres.TokenRepository.usable now' t)
              (postgres.update_where (λ t, NT.ExpiresAt t <? now)
                 (λ t, NT.mk (NT.ID t) (NT.DeviceID t) (NT.Token t) (NT.TokenType_ t)
                             (NT.CreatedAt t) now (NT.ExpiresAt t) false
                             (NT.IsRevoked t)) l)
            = List.filter (λ t, q t && postgres.TokenRepository.usable now' t) l).
  { intros q l. apply filter_update_where_other. intros t Ht.
    apply Z.ltb_lt in Ht. unfold postgres.TokenRepository.usable.
    cbn [NT.IsActive NT.IsRevoked NT.ExpiresAt andb].
    assert ((now' <? NT.ExpiresAt t) = false) as -> by (apply Z.ltb_ge; lia).
    by rewrite !andb_false_r. }
  split.
  - rewrite !statement_healthy by done. cbn [fst tokens with_tokens].
    by rewrite (Hkeep (λ t, uuid_eqb (NT.DeviceID t) deviceID)).
  - intros tokenType. rewrite !statement_healthy by done. cbn [fst tokens with_tokens].
    by rewrite (Hkeep (postgres.TokenRepository.of_device_and_type deviceID tokenType)).
Qed.

Lemma CleanupExpired_changes_no_read_witness :
  let old := NT.mk 1%N 1%N "a" "fcm" 10 10 15 true false in
  let live := NT.mk 2%N 1%N "b" "fcm" 12 12 1000 true false in
  let w := mkWorld [] [old; live] [] [] [] 100%N in
  let r := postgres.TokenRepository.CleanupExpired 20 w in
  map (λ t, NT.IsActive t) (tokens r.2) = [false; true]
  ∧ (postgres.TokenRepository.GetAllForDevice 25 1%N r.2).1
    = (postgres.TokenRepository.GetAllForDevice 25 1%N w).1.
Proof.
  intros old live w r. split; [reflexivity|].
  pose proof (CleanupExpired_changes_no_read w 20 25 1%N eq_refl) as H.
  cbv zeta in H. destruct H as (_ & H & _); [lia|]. exact H.
Defined.

(** X24.  After [Upsert] the pair reads the new value, whatever the table
    held: a missing row is inserted, and every row of the pair, a revoked or
    expired one too, is made current: it holds the new value, is active and
    not revoked, and expires thirty days from now.  The rows of other pairs
    stay as they were. *)
Theorem Upsert_then_read w now now' deviceID tokenValue tokenType :
  faults w = [] → now' < now + 30 * 24 * Hour →
  let r := postgres.TokenRepository.Upsert now deviceID tokenValue tokenType w in
  r.1 = None
  ∧ token_rows deviceID tokenType r.2 = Nat.max 1 (token_rows deviceID tokenType w)
  ∧ (∃ t, (postgres.TokenRepository.GetByDeviceAndType now' deviceID tokenType r.2).1
          = Ok t
          ∧ NT.Token t = tokenValue)
  ∧ (∀ t, t ∈ tokens r.2 →
          postgres.TokenRepository.of_device_and_type deviceID tokenType t = true →
          NT.Token t = tokenValue ∧ NT.IsActive t = true ∧ NT.IsRevoked t = false
          ∧ NT.ExpiresAt t = now + 30 * 24 * Hour ∧ NT.UpdatedAt t = now)
  ∧ List.filter
      (λ t, negb (postgres.TokenRepository.of_device_and_type deviceID tokenType t))
      (tokens r.2)
    = List.filter
        (λ t, negb (postgres.TokenRepository.of_device_and_type deviceID tokenType t))
        (tokens w).
Proof.
  intros Hf Hlt r. subst r.
  assert (Husable : (now' <? now + 30 * 24 * Hour) = true) by (apply Z.ltb_lt; lia).
  (* every row of the pair in the rewritten table is current *)
  assert (Hcurrent : ∀ l t,
            t ∈ postgres.update_where
                  (postgres.TokenRepository.of_device_and_type deviceID tokenType)
                  (λ t, NT.mk (NT.ID t) (NT.DeviceID t) tokenValue (NT.TokenType_ t)
                              (NT.CreatedAt t) now (now + 30 * 24 * Hour) true false) l →
            postgres.TokenRepository.of_device_and_type deviceID tokenType t = true →
            NT.Token t = tokenValue ∧ NT.IsActive t = true ∧ NT.IsRevoked t = false
            ∧ NT.ExpiresAt t = now + 30 * 24 * Hour ∧ NT.UpdatedAt t = now).
  { intros l t (x & _ & ->)%elem_of_update_where Hp.
    destruct (postgres.TokenRepository.of_device_and_type deviceID tokenType x) eqn:E;
      [done|congruence]. }
  assert (Hothers : ∀ l,
            List.filter
              (λ t, negb (postgres.TokenRepository.of_device_and_type deviceID tokenType t))
              (postgres.update_where
                 (postgres.TokenRepository.of_device_and_type deviceID tokenType)
                 (λ t, NT.mk (NT.ID t) (NT.DeviceID t) tokenValue (NT.TokenType_ t)
                             (NT.CreatedAt t) now (now + 30 * 24 * Hour) true false) l)
            = List.filter
                (λ t, negb (postgres.TokenRepository.of_device_and_type deviceID
                              tokenType t)) l).
  { intros l. apply filter_update_where_other. intros x Hx.
    unfold postgres.TokenRepository.of_device_and_type at 2.
    cbn [NT.DeviceID NT.TokenType_].
    fold (postgres.TokenRepository.of_device_and_type deviceID tokenType x).
    by rewrite Hx. }
  (* every row of the pair in the rewritten table can be read and holds the value *)
  assert (Hrows : ∀ l t,
            t ∈ List.filter
                  (λ t, postgres.TokenRepository.of_device_and_type deviceID tokenType t
                        && postgres.TokenRepository.usable now' t)
                  (postgres.update_where
                     (postgres.TokenRepository.of_device_and_type deviceID tokenType)
                     (λ t, NT.mk (NT.ID t) (NT.DeviceID t) tokenValue (NT.TokenType_ t)
                                 (NT.CreatedAt t) now (now + 30 * 24 * Hour) true false) l)
            → NT.Token t = tokenValue).
  { intros l t [Hin Hp]%elem_of_List_filter.
    apply elem_of_update_where in Hin as (x & _ & ->).
    destruct (postgres.TokenRepository.of_device_and_type deviceID tokenType x) eqn:E;
      [done|]. by rewrite E in Hp. }
  assert (Hsome : ∀ l,
            List.filter (postgres.TokenRepository.of_device_and_type deviceID tokenType) l
              ≠ [] →
            List.filter
              (λ t, postgres.TokenRepository.of_device_and_type deviceID tokenType t
                    && postgres.TokenRepository.usable now' t)
              (postgres.update_where
                 (postgres.TokenRepository.of_device_and_type deviceID tokenType)
                 (λ t, NT.mk (NT.ID t) (NT.DeviceID t) tokenValue (NT.TokenType_ t)
                             (NT.CreatedAt t) now (now + 30 * 24 * Hour) true false) l)
              ≠ []).
  { induction l as [|x l IH]; [done|]. cbn [List.filter postgres.update_where map].
    destruct (postgres.TokenRepository.of_device_and_type deviceID tokenType x) eqn:E.
    - intros _. unfold postgres.TokenRepository.of_device_and_type at 1.
      cbn [NT.DeviceID NT.TokenType_].
      fold (postgres.TokenRepository.of_device_and_type deviceID tokenType x).
      rewrite E. unfold postgres.TokenRepository.usable at 1.
      cbn [NT.IsActive NT.IsRevoked NT.ExpiresAt]. rewrite Husable. done.
    - rewrite E. cbn [andb]. exact IH. }
  unfold postgres.TokenRepository.Upsert, mbind, Repo_bind.
  rewrite statement_healthy by done. unfold postgres.rows_affected, token_rows.
  destruct (List.filter (postgres.TokenRepository.of_device_and_type deviceID tokenType)
              (tokens w)) as [|x0 rows] eqn:Hpair.
  - change (Z.of_nat (length []) =? 0) with true. cbv beta iota.
    unfold uuid_New. rewrite statement_healthy by done.
    cbn [fst snd tokens with_tokens]. split; [done|]. split; [|split; [|split]].
    + rewrite List.filter_app, length_app, filter_update_where_length by done.
      rewrite Hpair. cbn [List.filter].
      by rewrite of_device_and_type_refl.
    + unfold postgres.TokenRepository.GetByDeviceAndType.
      rewrite statement_healthy by done. cbn [fst tokens with_tokens].
      rewrite List.filter_app. cbn [List.filter].
      rewrite of_device_and_type_refl by done.
      unfold postgres.TokenRepository.usable at 2.
      cbn [NT.IsActive NT.IsRevoked NT.ExpiresAt]. rewrite Husable. cbn [andb negb].
      match goal with
      | |- context [postgres.TokenRepository.newest ?l] =>
          destruct (newest_nonempty l) as [t Ht]; [by intros [_ ?]%app_eq_nil|];
          rewrite Ht; exists t; split; [done|];
          apply newest_elem in Ht; apply elem_of_app in Ht as [Ht|Ht]
      end.
      * by apply Hrows in Ht.
      * apply list_elem_of_singleton in Ht. by subst t.
    + intros t [Ht|Ht%list_elem_of_singleton]%elem_of_app Hp.
      * by eapply Hcurrent.
      * by subst t.
    + rewrite List.filter_app, Hothers. cbn [List.filter].
      rewrite of_device_and_type_refl by done. cbn [negb]. apply app_nil_r.
  - assert ((Z.of_nat (length (x0 :: rows)) =? 0) = false) as ->.
    { apply Z.eqb_neq. simpl. lia. }
    cbv beta iota. cbn [fst snd mret Repo_ret tokens with_tokens].
    split; [done|]. split; [|split; [|split]].
    + rewrite filter_update_where_length by done. rewrite Hpair. simpl. lia.
    + unfold postgres.TokenRepository.GetByDeviceAndType.
      rewrite statement_healthy by done. cbn [fst tokens with_tokens].
      match goal with
      | |- context [postgres.TokenRepository.newest ?l] =>
          destruct (newest_nonempty l) as [t Ht];
            [apply Hsome; by rewrite Hpair|];
          rewrite Ht; exists t; split; [done|];
          apply newest_elem in Ht; by apply Hrows in Ht
      end.
    + intros t Ht Hp. by eapply Hcurrent.
    + apply Hothers.
Qed.

Lemma Upsert_then_read_witness :
  let revoked := NT.mk 1%N 1%N "old" "fcm" 10 10 15 false true in
  let w := mkWorld [] [revoked] [] [] [] 100%N in
  let r := postgres.TokenRepository.Upsert 20 1%N "new" "fcm" w in
  r.1 = None ∧ token_rows 1%N "fcm" r.2 = 1%nat
  ∧ map (λ t, (NT.Token t, NT.IsActive t, NT.IsRevoked t)) (tokens r.2)
    = [("new", true, false)].
Proof.
  intros revoked w r.
  pose proof (Upsert_then_read w 20 21 1%N "new" "fcm" eq_refl) as H.
  cbv zeta in H. destruct H as (H1 & H2 & _).
  { unfold Hour, Minute, Second. lia. }
  split; [exact H1|]. split; [exact H2|reflexivity].
Defined.

(** X25.  A token saved for a pair is the one that [GetToken] returns, until
    it expires, provided the rows that the pair already has were made earlier:
    the read takes the row made last. *)
Theorem SaveToken_then_GetToken w now now' deviceID tokenValue tokenType :
  faults w = [] →
  (∀ t, t ∈ tokens w →
        postgres.TokenRepository.of_device_and_type deviceID tokenType t = true →
        NT.CreatedAt t < now) →
  now' < now + 30 * 24 * Hour →
  let r := TS.SaveToken now deviceID tokenValue tokenType w in
  r.1 = None
  ∧ (TS.GetToken now' deviceID tokenType r.2).1
    = Ok (entity.NewNotificationToken (next_uuid w) now deviceID tokenValue tokenType).
Proof.
  intros Hf Hold Hlt r. subst r.
  unfold TS.SaveToken, TS.GetToken, mbind, Repo_bind, uuid_New,
    postgres.TokenRepository.Create, postgres.TokenRepository.GetByDeviceAndType.
  rewrite statement_healthy by done. cbn [fst snd]. split; [done|].
  rewrite statement_healthy by done. cbn [fst tokens with_tokens].
  set (tok := entity.NewNotificationToken (next_uuid w) now deviceID tokenValue tokenType).
  assert (Hu : postgres.TokenRepository.usable now' tok = true).
  { unfold postgres.TokenRepository.usable, tok, entity.NewNotificationToken.
    cbn [NT.IsActive NT.IsRevoked NT.ExpiresAt andb negb]. apply Z.ltb_lt. lia. }
  rewrite List.filter_app. cbn [List.filter].
  rewrite of_device_and_type_refl, Hu by done. cbn [andb].
  rewrite newest_app_last; [done|].
  intros t [Hin Hp]%elem_of_List_filter. apply andb_prop in Hp as [Hp _].
  by apply Hold.
Qed.

Lemma SaveToken_then_GetToken_witness :
  let w := mkWorld [] [NT.mk 1%N 1%N "old" "fcm" 10 10 1000 true false] [] [] [] 100%N in
  let r := TS.SaveToken 20 1%N "new" "fcm" w in
  r.1 = None
  ∧ (TS.GetToken 21 1%N "fcm" r.2).1
    = Ok (entity.NewNotificationToken 100%N 20 1%N "new" "fcm").
Proof.
  intros w r.
  apply (SaveToken_then_GetToken w 20 21 1%N "new" "fcm" eq_refl).
  - intros t Ht _. apply list_elem_of_singleton in Ht. subst t. simpl. lia.
  - unfold Hour, Minute, Second. lia.
Defined.

(** ** The hub *)

Lemma hub_consistent_New : hub_consistent websocket.NewHub.
Proof.
  unfold hub_consistent, websocket.NewHub. cbn. split_and!.
  - intros id cs H. by rewrite lookup_empty in H.
  - intros c Hc. set_solver.
  - intros c Hc. set_solver.
Qed.

Lemma hub_consistent_register client h :
  hub_consistent h → client ∉ websocket.closed h →
  hub_consistent (websocket.registerClient client h).
Proof.
  intros (H1 & H2 & H3) Hopen. unfold hub_consistent, websocket.registerClient.
  cbn [websocket.clients websocket.deviceClients websocket.closed]. split_and!.
  - intros id cs. destruct (decide (id = websocket.deviceID client)) as [->|Hne].
    + rewrite lookup_insert_eq. intros [= <-]. split; [set_solver|].
      intros c. destruct (websocket.deviceClients h !! websocket.deviceID client)
        as [old|] eqn:E; cbn [default].
      * destruct (H1 _ _ E) as [_ Hold]. specialize (Hold c). set_solver.
      * split; [set_solver|]. intros [[Hc|Hc]%elem_of_union Hd]; [set_solver|].
        destruct (H2 c Hc) as [cs' Hcs']. congruence.
    + rewrite lookup_insert_ne by done. intros Hcs.
      destruct (H1 _ _ Hcs) as [Hne' Hiff]. split; [done|].
      intros c. rewrite Hiff. set_solver.
  - intros c [Hc|Hc]%elem_of_union.
    + apply elem_of_singleton in Hc as ->. rewrite lookup_insert_eq. eauto.
    + destruct (decide (websocket.deviceID c = websocket.deviceID client)) as [->|Hne].
      * rewrite lookup_insert_eq. eauto.
      * rewrite lookup_insert_ne by done. by apply H2.
  - intros c [Hc|Hc]%elem_of_union; [|by apply H3].
    by apply elem_of_singleton in Hc as ->.
Qed.

Lemma unregisterClient_Returns client h h' :
  websocket.unregisterClient client h = Returns h' →
  (client ∉ websocket.closed h)
  ∧ h' = websocket.mkHub
           (websocket.clients h ∖ {[client]})
           (websocket.forget (websocket.deviceID client) client (websocket.deviceClients h))
           (if negb (String.eqb (websocket.userID client) "") then
              websocket.forget (websocket.userID client) client (websocket.userClients h)
            else websocket.userClients h)
           ({[client]} ∪ websocket.closed h).
Proof.
  unfold websocket.unregisterClient, websocket.close_send. cbn [websocket.closed].
  case_bool_decide; [done|]. by intros [= <-].
Qed.

Lemma hub_consistent_unregister client h h' :
  hub_consistent h → websocket.unregisterClient client h = Returns h' →
  hub_consistent h'.
Proof.
  intros (H1 & H2 & H3) [Hopen ->]%unregisterClient_Returns. unfold hub_consistent.
  cbn [websocket.clients websocket.deviceClients websocket.closed]. split_and!.
  - intros id cs. unfold websocket.forget.
    destruct (websocket.deviceClients h !! websocket.deviceID client) as [old|] eqn:E.
    + destruct (H1 _ _ E) as [_ Hold]. cbv zeta.
      destruct (Nat.eqb_spec (size (old ∖ {[client]})) 0) as [Hz|Hnz].
      * apply size_empty_iff in Hz.
        destruct (decide (id = websocket.deviceID client)) as [->|Hne].
        -- by rewrite lookup_delete_eq.
        -- rewrite lookup_delete_ne by done. intros Hcs.
           destruct (H1 _ _ Hcs) as [Hne' Hiff]. split; [done|].
           intros c. rewrite Hiff. set_solver.
      * destruct (decide (id = websocket.deviceID client)) as [->|Hne].
        -- rewrite lookup_insert_eq. intros [= <-]. split.
           ++ intros Hempty. apply Hnz. by rewrite Hempty, size_empty.
           ++ intros c. specialize (Hold c). set_solver.
        -- rewrite lookup_insert_ne by done. intros Hcs.
           destruct (H1 _ _ Hcs) as [Hne' Hiff]. split; [done|].
           intros c. rewrite Hiff. set_solver.
    + intros Hcs. destruct (H1 _ _ Hcs) as [Hne' Hiff]. split; [done|].
      intros c. rewrite Hiff. split; [|set_solver].
      intros [Hc Hd]. split; [|done]. apply elem_of_difference. split; [done|].
      intros ->%elem_of_singleton. destruct (H2 _ Hc) as [? ?]. congruence.
  - intros c [Hc Hnc]%elem_of_difference. unfold websocket.forget.
    destruct (websocket.deviceClients h !! websocket.deviceID client) as [old|] eqn:E;
      [|by apply H2].
    destruct (H1 _ _ E) as [_ Hold]. cbv zeta.
    destruct (decide (websocket.deviceID c = websocket.deviceID client)) as [Heq|Hne].
    + assert (c ∈ old ∖ {[client]}) as Hin.
      { apply elem_of_difference. split; [|done]. by apply Hold. }
      destruct (Nat.eqb_spec (size (old ∖ {[client]})) 0) as [Hz|Hnz].
      * apply size_empty_iff in Hz. set_solver.
      * rewrite Heq, lookup_insert_eq. eauto.
    + destruct (Nat.eqb_spec (size (old ∖ {[client]})) 0) as [Hz|Hnz].
      * rewrite lookup_delete_ne by done. by apply H2.
      * rewrite lookup_insert_ne by done. by apply H2.
  - intros c [Hc Hnc]%elem_of_difference. specialize (H3 c Hc). set_solver.
Qed.

Lemma hub_reachable_consistent h : hub_reachable h → hub_consistent h.
Proof.
  induction 1 as [|client h _ IH Hopen|client h h' _ IH Hrun].
  - apply hub_consistent_New.
  - by apply hub_consistent_register.
  - by eapply hub_consistent_unregister.
Qed.

(** X26.  In every state that the hub can reach by registering new clients and
    unregistering clients, a device counts as connected exactly when one of
    the registered clients is of that device: no entry outlives its clients
    and no client is missed. *)
Theorem IsDeviceConnected_iff_registered h id :
  hub_reachable h →
  ((websocket.IsDeviceConnected id h = true)
   ↔ (∃ c, c ∈ websocket.clients h ∧ websocket.deviceID c = id)).
Proof.
  intros (H1 & H2 & _)%hub_reachable_consistent. unfold websocket.IsDeviceConnected.
  split.
  - destruct (websocket.deviceClients h !! id) as [cs|] eqn:E; [|done]. intros _.
    destruct (H1 _ _ E) as [Hne Hiff].
    apply set_choose_L in Hne as [c Hc]. exists c. by apply Hiff.
  - intros (c & Hc & <-). destruct (H2 c Hc) as [cs Hcs]. rewrite Hcs.
    destruct (H1 _ _ Hcs) as [Hne _]. apply Nat.ltb_lt.
    assert (size cs ≠ 0%nat); [|lia].
    intros Hz%size_empty_iff. apply Hne. by apply leibniz_equiv.
Qed.

Lemma IsDeviceConnected_iff_registered_witness :
  let a := websocket.mkClient 1%N 20%N "" in
  let b := websocket.mkClient 2%N 20%N "42" in
  match websocket.unregisterClient a
          (websocket.registerClient b (websocket.registerClient a websocket.NewHub)) with
  | Returns h => websocket.IsDeviceConnected 20%N h = true
  | Panics _ => False
  end.
Proof.
  intros a b.
  destruct (websocket.unregisterClient a
              (websocket.registerClient b (websocket.registerClient a websocket.NewHub)))
    as [h|why] eqn:E.
  - apply IsDeviceConnected_iff_registered.
    + eapply reach_unregister; [|exact E].
      apply reach_register; [apply reach_register; [apply reach_New|]|]; set_solver.
    + exists b. apply unregisterClient_Returns in E as [_ ->].
      cbn [websocket.clients websocket.registerClient]. split; [|done].
      apply elem_of_difference. split; [set_solver|].
      intros Hb%elem_of_singleton. discriminate Hb.
  - exfalso. unfold websocket.unregisterClient, websocket.close_send in E.
    cbn [websocket.closed websocket.registerClient websocket.NewHub] in E.
    case_bool_decide; [set_solver|done].
Defined.

(** X27.  Unregistering is not idempotent: once a client has been
    unregistered, unregistering it again panics, because its channel is closed
    a second time. *)
Theorem unregisterClient_twice_panics client h h' :
  websocket.unregisterClient client h = Returns h' →
  websocket.unregisterClient client h' = Panics "close of closed channel".
Proof.
  intros [_ ->]%unregisterClient_Returns.
  unfold websocket.unregisterClient, websocket.close_send. cbn [websocket.closed].
  case_bool_decide; [done|]. set_solver.
Qed.

Lemma unregisterClient_twice_panics_witness :
  let a := websocket.mkClient 1%N 20%N "42" in
  let h := websocket.mkHub ∅ ∅ ∅ ({[a]} ∪ ∅) in
  websocket.unregisterClient a websocket.NewHub = Returns h
  ∧ websocket.unregisterClient a h = Panics "close of closed channel".
Proof.
  intros a h.
  assert (E : websocket.unregisterClient a websocket.NewHub = Returns h)
    by (vm_compute; reflexivity).
  split; [exact E|]. exact (unregisterClient_twice_panics a _ _ E).
Defined.

(** X28.  Shutting the hub down while a client is registered panics, in
    whatever order the clients are visited: the loop unregisters the client,
    which closes its channel, and then closes the channel again.  Only a hub
    without clients shuts down. *)
Theorem shutdown_panics_with_clients visit h :
  visit ≡ₚ elements (websocket.clients h) →
  match websocket.shutdown_loop visit h with
  | Returns h' => websocket.clients h = ∅ ∧ h' = h
  | Panics why => websocket.clients h ≠ ∅ ∧ why = "close of closed channel"
  end.
Proof.
  intros Hvisit. destruct visit as [|client rest].
  - cbn [websocket.shutdown_loop]. split; [|done].
    apply leibniz_equiv, elements_empty_iff. by apply Permutation_nil.
  - assert (Hin : client ∈ websocket.clients h).
    { apply elem_of_elements. rewrite <- Hvisit. left. }
    cbn [websocket.shutdown_loop]. rewrite bool_decide_true by done.
    destruct (websocket.unregisterClient client h) as [h1|why] eqn:E.
    + apply unregisterClient_Returns in E as [_ ->].
      unfold websocket.close_send. cbn [websocket.closed].
      rewrite bool_decide_true by set_solver. split; [set_solver|done].
    + split; [set_solver|].
      unfold websocket.unregisterClient, websocket.close_send in E.
      destruct (bool_decide _); [by injection E as <-|done].
Qed.

Lemma shutdown_panics_with_clients_witness :
  let a := websocket.mkClient 1%N 20%N "42" in
  let h := websocket.registerClient a websocket.NewHub in
  websocket.shutdown_loop [a] h = Panics "close of closed channel".
Proof.
  intros a h.
  pose proof (shutdown_panics_with_clients [a] h) as H.
  destruct (websocket.shutdown_loop [a] h) as [h'|why].
  - destruct H as [H _].
    + unfold h. cbn [websocket.clients websocket.registerClient websocket.NewHub].
      rewrite union_empty_r_L, elements_singleton. done.
    + exfalso. unfold h in H.
      cbn [websocket.clients websocket.registerClient websocket.NewHub] in H. set_solver.
  - destruct H as [_ ->]; [|done].
    unfold h. cbn [websocket.clients websocket.registerClient websocket.NewHub].
    rewrite union_empty_r_L, elements_singleton. done.
Defined.

(** ** Base64 and the credentials *)

(** X29.  [DecodeBase64URL] gives back what [EncodeBase64URL] encoded, and
    what the unpadded encoder of the credentials encoded; the padded text is a
    whole number of groups of four characters. *)
Theorem Base64URL_round_trip data :
  utils.DecodeBase64URL (EncodeBase64URL data) = Ok data
  ∧ utils.DecodeBase64URL (base64.RawURLEncoding_EncodeToString data) = Ok data
  ∧ (String.length (EncodeBase64URL data) mod 4 = 0)%nat.
Proof.
  split; [|split; [apply DecodeBase64URL_RawURLEncoding|]]; unfold EncodeBase64URL.
  - revert data. fix IH 1.
    intros [|[a0 a1 a2 a3 a4 a5 a6 a7] [|[b0 b1 b2 b3 b4 b5 b6 b7]
              [|[c0 c1 c2 c3 c4 c5 c6 c7] rest]]].
    + reflexivity.
    + unfold utils.DecodeBase64URL. cbn -[base64.enc6 base64.dec6].
      rewrite !dec6_enc6. reflexivity.
    + unfold utils.DecodeBase64URL. cbn -[base64.enc6 base64.dec6 Ascii.eqb].
      rewrite !dec6_enc6, enc6_not_pad. reflexivity.
    + cbn [URLEncoding_EncodeToString].
      erewrite DecodeBase64URL_quad; eauto using dec6_enc6, enc6_not_pad.
      rewrite IH. reflexivity.
  - revert data. fix IH 1.
    intros [|[a0 a1 a2 a3 a4 a5 a6 a7] [|[b0 b1 b2 b3 b4 b5 b6 b7]
              [|[c0 c1 c2 c3 c4 c5 c6 c7] rest]]]; [reflexivity..|].
    cbn [URLEncoding_EncodeToString String.length]. rewrite pad4_length. apply IH.
Qed.

Section Unsigned.

Variable json_Unmarshal : string → Result JSON.

(** X30.  Recovery of the device identifier does not check a credential: any
    text of three segments whose middle segment encodes a JSON object with a
    [device_identifier] that is a non-empty string is accepted, whatever else
    the object holds and whatever the header and the signature segments hold.
    *)
Theorem Extract_accepts_any_signature header body signature fields deviceIdentifier w :
  no_char "." header = true → no_char "." signature = true →
  json_Unmarshal body = Ok (JObject fields) →
  assoc_lookup "device_identifier" fields = Some (JString deviceIdentifier) →
  deviceIdentifier ≠ "" →
  TS.ExtractDeviceIdentifierFromToken json_Unmarshal
    (header +:+ "." +:+ TS.jwt_EncodeSegment body +:+ "." +:+ signature) w
  = (Ok deviceIdentifier, w).
Proof.
  intros Hh Hs Hbody Hclaim Hne.
  unfold TS.ExtractDeviceIdentifierFromToken, TS.jwt_EncodeSegment.
  rewrite strings_Split_three by (done || apply RawURLEncoding_no_dot).
  cbn [length Nat.eqb negb nth].
  rewrite DecodeBase64URL_RawURLEncoding.
  unfold TS.unmarshal_map. rewrite Hbody. cbv beta iota.
  unfold TS.string_claim. rewrite Hclaim.
  unfold TS.nonempty.
  destruct (String.length deviceIdentifier =? 0)%nat eqn:E; [|done].
  by apply length_zero_iff in E.
Qed.

End Unsigned.

Lemma Extract_accepts_any_signature_witness :
  match jsonlib.Marshal (JObject [("device_id", JString "not a uuid");
                                  ("device_identifier", JString "phone-A");
                                  ("exp", JNumber 1)]) with
  | Ok body =>
      TS.ExtractDeviceIdentifierFromToken jsonlib.Unmarshal
        ("none" +:+ "." +:+ TS.jwt_EncodeSegment body +:+ "." +:+ "not a signature")
        empty_store
      = (Ok "phone-A", empty_store)
  | Err _ => False
  end.
Proof.
  destruct (jsonlib.Marshal (JObject [("device_id", JString "not a uuid");
                                      ("device_identifier", JString "phone-A");
                                      ("exp", JNumber 1)]))
    as [body|e] eqn:E.
  - apply (Extract_accepts_any_signature jsonlib.Unmarshal "none" body "not a signature"
             [("device_id", JString "not a uuid");
              ("device_identifier", JString "phone-A");
              ("exp", JNumber 1)]); [reflexivity|reflexivity| |reflexivity|done].
    vm_compute in E. injection E as <-. vm_compute. reflexivity.
  - vm_compute in E. discriminate E.
Defined.
